(** * go-kv: skip list, memtable and B+tree node codec

    A shallow embedding of the write path of the go-kv storage engine:

    - [internal/skiplist/skiplist.go]: the lock-guarded skip list;
    - [internal/memtable/skiplist.go] and the memtable built on it;
    - [internal/btree/btree.go] and the earlier copy of the same codec.

    Go pointers are addresses into an arena of nodes, [nil] is [None];
    every fixed-width integer is a [Z] whose wrap-around is written out;
    a panic, and a loop that never leaves, are outcomes of their own. *)

From Stdlib Require Import ZArith String List Lia Ascii DecimalString Bool.
From Stdlib.Strings Require Import Byte.
From stdpp Require Import base list.

Set Default Proof Using "Type".

(** ** The Go runtime as far as the program uses it *)

Module Go.

(** What a goroutine can die of. *)
Inductive fault : Type :=
| NilDeref                 (* nil pointer dereference *)
| IndexOutOfRange          (* index out of range *)
| SliceOutOfRange          (* slice bounds out of range *)
| Message (msg : string)   (* panic(msg) raised by the program itself *)
| WildPointer.             (* an address outside the arena: no Go value *)

(** The outcome of a call: a result, a panic, or a loop that spins
    for ever. *)
Inductive res (A : Type) : Type :=
| Ok (a : A)
| Panic (f : fault)
| Spin.

Arguments Ok {A} a.
Arguments Panic {A} f.
Arguments Spin {A}.

Definition bind {A B : Type} (m : res A) (k : A -> res B) : res B :=
  match m with
  | Ok a => k a
  | Panic f => Panic f
  | Spin => Spin
  end.

Definition isOk {A : Type} (m : res A) : bool :=
  match m with Ok _ => true | _ => false end.

(** [uintN] arithmetic: results are reduced modulo [2^N]. *)
Definition wrap (bits : Z) (z : Z) : Z := z mod 2 ^ bits.
Definition u8 := wrap 8.
Definition u16 := wrap 16.
Definition u32 := wrap 32.
Definition u64 := wrap 64.

(** [s[i]] on a slice held as a list. *)
Definition index {A : Type} (s : list A) (i : nat) : res A :=
  match s !! i with
  | Some a => Ok a
  | None => Panic IndexOutOfRange
  end.

(** [s[i] = a]. *)
Definition store {A : Type} (s : list A) (i : nat) (a : A) : res (list A) :=
  if (i <? length s)%nat then Ok (<[i := a]> s) else Panic IndexOutOfRange.

(** [len(b)] of a byte slice that may be nil. *)
Definition len (b : option (list byte)) : Z :=
  match b with
  | Some l => Z.of_nat (length l)
  | None => 0
  end.

(** [%d] of the fmt package, for an unsigned argument. *)
Definition fmt_d (z : Z) : string :=
  NilZero.string_of_uint (N.to_uint (Z.to_N z)).

End Go.

Export Go.

Declare Scope go_scope.
Delimit Scope go_scope with go.
Notation "x <- m ;; k" := (bind m (fun x => k))
  (at level 100, m at next level, right associativity) : go_scope.
#[warnings="-notation-incompatible-prefix"]
Notation "' p <- m ;; k" := (bind m (fun x => let p := x in k))
  (at level 100, p pattern, m at next level, right associativity) : go_scope.
Open Scope go_scope.

(** ** math/rand as an oracle *)

Module Rand.

(** The generator is the sequence of results that [rand.Intn(2)] is going
    to return, and the number of calls made so far. *)
Record source : Type := mkSource { draws : nat -> Z; calls : nat }.

Definition Intn2 (g : source) : Z * source :=
  (draws g (calls g), mkSource (draws g) (S (calls g))).

(** A generator that returns the listed results and then zeros. *)
Definition ofList (l : list Z) : source :=
  mkSource (fun i => nth i l 0%Z) 0.

End Rand.

(** ** Nodes, towers and the bound search

    [narrowDownBound], [initBound] and the loop of [searchBounds] have the
    same text in [internal/skiplist/skiplist.go] and in
    [internal/memtable/skiplist.go]; they differ in the type of the value
    a node carries, which is the parameter [V] here. *)

Module Tower.

Definition maxHeight : nat := 16.

(** [liftLayers]: the loop runs while [layer < maxHeight], so at most
    [maxHeight - 1] times. *)
Fixpoint liftLoop (rounds : nat) (layer : nat) (g : Rand.source)
  : nat * Rand.source :=
  match rounds with
  | O => (layer, g)
  | S rounds' =>
      if (layer <? maxHeight)%nat then
        let '(x, g') := Rand.Intn2 g in
        if (x =? 0)%Z then (layer, g')
        else liftLoop rounds' (S layer) g'
      else (layer, g)
  end.

Definition liftLayers (g : Rand.source) : nat * Rand.source :=
  liftLoop maxHeight 1 g.

(** [*node]: an address, or nil. *)
Abbreviation ptr := (option nat).

Definition ptr_eqb (p q : ptr) : bool :=
  match p, q with
  | Some a, Some b => (a =? b)%nat
  | None, None => true
  | _, _ => false
  end.

Section Nodes.

Context {V : Type}.

Record node : Type := mkNode {
  nexts : list ptr;
  key : string;
  val : option V
}.

(** The heap holds the nodes of one list in allocation order; a node's
    address is its position. *)
Local Abbreviation heap := (list node).

Definition deref (h : heap) (p : ptr) : res node :=
  match p with
  | None => Panic NilDeref
  | Some a =>
      match h !! a with
      | Some n => Ok n
      | None => Panic WildPointer
      end
  end.

(** [&node{...}]: a fresh address past the last one. *)
Definition alloc (h : heap) (n : node) : heap * ptr :=
  (h ++ [n], Some (length h)).

(** [newNode]: [make([]*node, layerNum)] is [layerNum] nil links. *)
Definition newNode (k : string) (v : option V) (layerNum : nat) : node :=
  mkNode (replicate layerNum None) k v.

(** [p.nexts[i] = q]. *)
Definition setNext (h : heap) (p : ptr) (i : nat) (q : ptr) : res heap :=
  n <- deref h p ;;
  nx <- store (nexts n) i q ;;
  match p with
  | Some a => Ok (<[a := mkNode nx (key n) (val n)]> h)
  | None => Panic NilDeref
  end.

(** [p.val = v]. *)
Definition setVal (h : heap) (p : ptr) (v : option V) : res heap :=
  n <- deref h p ;;
  match p with
  | Some a => Ok (<[a := mkNode (nexts n) (key n) v]> h)
  | None => Panic NilDeref
  end.

Definition initBound (initNode : ptr) : list ptr :=
  replicate maxHeight initNode.

(** The loop of [narrowDownBound]. It is entered with [next] already
    read from [cur]. [fuel] counts the iterations still allowed. *)
Fixpoint walk (fuel : nat) (h : heap) (head tail rightBound : ptr)
  (k : string) (layer : nat) (cur next : ptr) : res (ptr * ptr) :=
  if ptr_eqb next rightBound then Ok (cur, next)
  else
    match fuel with
    | O => Spin
    | S fuel' =>
        c1 <- (if ptr_eqb cur head then Ok true
               else n <- deref h cur ;; Ok (String.leb (key n) k)) ;;
        c2 <- (if c1 : bool then
                 if ptr_eqb next tail then Ok true
                 else n <- deref h next ;; Ok (String.leb k (key n))
               else Ok false) ;;
        if c2 : bool then Ok (cur, next)
        else
          n <- deref h next ;;
          next' <- index (nexts n) layer ;;
          walk fuel' h head tail rightBound k layer next next'
    end.

(** A walk that runs its body more often than the heap has nodes has
    seen one node twice and never leaves: that is [Spin]. *)
Definition narrowDownBound (h : heap) (head tail leftBound rightBound : ptr)
  (k : string) (layer : nat) : res (ptr * ptr) :=
  n <- deref h leftBound ;;
  next <- index (nexts n) layer ;;
  walk (length h) h head tail rightBound k layer leftBound next.

(** The [for i := maxHeight - 1; ; i--] loop of [searchBounds]. *)
Fixpoint descend (h : heap) (head tail : ptr) (k : string) (i : nat)
  (leftBounds rightBounds : list ptr) : res (list ptr * list ptr) :=
  l <- index leftBounds i ;;
  r <- index rightBounds i ;;
  '(leftBound, rightBound) <- narrowDownBound h head tail l r k i ;;
  leftBounds <- store leftBounds i leftBound ;;
  rightBounds <- store rightBounds i rightBound ;;
  match i with
  | O => Ok (leftBounds, rightBounds)
  | S i' =>
      leftBounds <- store leftBounds i' leftBound ;;
      rightBounds <- store rightBounds i' rightBound ;;
      descend h head tail k i' leftBounds rightBounds
  end.

(** [searchBounds]; [empty] is the test [st.size == 0] of the caller's
    list. *)
Definition searchBoundsIn (h : heap) (head tail : ptr) (empty : bool)
  (k : string) : res (list ptr * list ptr) :=
  let leftBounds := initBound head in
  let rightBounds := initBound tail in
  if empty then Ok (leftBounds, rightBounds)
  else
    leftBounds <- store leftBounds (maxHeight - 1) head ;;
    hd <- deref h head ;;
    top <- index (nexts hd) (maxHeight - 1) ;;
    rightBounds <- store rightBounds (maxHeight - 1) top ;;
    '(leftBounds, rightBounds) <-
      descend h head tail k (maxHeight - 1) leftBounds rightBounds ;;
    l <- index leftBounds 0 ;;
    r <- index rightBounds 0 ;;
    '(leftBound, rightBound) <- narrowDownBound h head tail l r k 0 ;;
    leftBounds <- store leftBounds 0 leftBound ;;
    rightBounds <- store rightBounds 0 rightBound ;;
    Ok (leftBounds, rightBounds).

(** [searchWithBounds]: both tests compare against [st.head]. *)
Definition searchWithBoundsIn (h : heap) (head : ptr) (k : string)
  (leftBounds rightBounds : list ptr) : res ptr :=
  l <- index leftBounds 0 ;;
  hitL <- (if negb (ptr_eqb l head) then
             n <- deref h l ;; Ok (String.eqb (key n) k)
           else Ok false) ;;
  if hitL : bool then Ok l
  else
    r <- index rightBounds 0 ;;
    hitR <- (if negb (ptr_eqb r head) then
               n <- deref h r ;; Ok (String.eqb (key n) k)
             else Ok false) ;;
    if hitR : bool then Ok r else Ok None.

(** The splice loop of [update]:
    [for i := 0; i < layerNum; i++ { leftBounds[i].nexts[i] = node;
    node.nexts[i] = rightBounds[i] }]. *)
Fixpoint splice (todo : nat) (i : nat) (h : heap) (nd : ptr)
  (leftBounds rightBounds : list ptr) : res heap :=
  match todo with
  | O => Ok h
  | S todo' =>
      l <- index leftBounds i ;;
      h <- setNext h l i nd ;;
      r <- index rightBounds i ;;
      h <- setNext h nd i r ;;
      splice todo' (S i) h nd leftBounds rightBounds
  end.

(** [NewSkipList] allocates head, then tail; every head link is the
    tail and every tail link is nil. *)
Definition emptyHeap : heap :=
  [ mkNode (replicate maxHeight (Some 1%nat)) EmptyString None;
    mkNode (replicate maxHeight None) EmptyString None ].

End Nodes.

Arguments node V : clear implicits.

Abbreviation heap V := (list (node V)).

End Tower.

Export Tower.

(** ** internal/skiplist/skiplist.go

    Every exported method takes the list's lock for its whole body, so a
    call is one atomic step on the state; the lock itself does not appear.
    A receiver may be the nil pointer, which is [None]. *)

Module SkipList.

Section WithValue.

(** [val interface{}]: [None] is the nil interface. *)
Context {V : Type}.

Record skipList : Type := mkSkipList {
  nodes : heap V;
  head : ptr;
  tail : ptr;
  size : Z          (* uint64 *)
}.

Definition NewSkipList : skipList :=
  mkSkipList emptyHeap (Some 0%nat) (Some 1%nat) 0.

Definition GetSize (st : option skipList) : res Z :=
  match st with
  | None => Panic NilDeref
  | Some st => Ok (size st)
  end.

Definition IsEmpty (st : option skipList) : res bool :=
  match st with
  | None => Panic NilDeref
  | Some st => Ok (size st =? 0)%Z
  end.

Definition searchBounds (st : skipList) (k : string)
  : res (list ptr * list ptr) :=
  searchBoundsIn (nodes st) (head st) (tail st) (size st =? 0)%Z k.

Definition searchWithBounds (st : skipList) (k : string)
  (leftBounds rightBounds : list ptr) : res ptr :=
  searchWithBoundsIn (nodes st) (head st) k leftBounds rightBounds.

Definition search (st : skipList) (k : string) : res ptr :=
  '(leftBounds, rightBounds) <- searchBounds st k ;;
  searchWithBounds st k leftBounds rightBounds.

Definition Search (st : option skipList) (k : string) : res (option V) :=
  match st with
  | None => Ok None
  | Some st =>
      nd <- search st k ;;
      match nd with
      | None => Ok None
      | Some _ => n <- deref (nodes st) nd ;; Ok (val n)
      end
  end.

(** Serve as both insert and update. *)
Definition update (g : Rand.source) (st : skipList) (k : string)
  (v : option V) : res (skipList * Rand.source) :=
  '(leftBounds, rightBounds) <- searchBounds st k ;;
  nd <- searchWithBounds st k leftBounds rightBounds ;;
  match nd with
  | Some _ =>
      n <- deref (nodes st) nd ;;
      (* the node was marked as deleted before *)
      let size' := match val n with
                   | None => u64 (size st + 1)
                   | Some _ => size st
                   end in
      h <- setVal (nodes st) nd v ;;
      Ok (mkSkipList h (head st) (tail st) size', g)
  | None =>
      let '(layerNum, g') := liftLayers g in
      let '(h, nd) := alloc (nodes st) (newNode k v layerNum) in
      h <- splice layerNum 0 h nd leftBounds rightBounds ;;
      Ok (mkSkipList h (head st) (tail st) (u64 (size st + 1)), g')
  end.

Definition Insert (g : Rand.source) (st : option skipList) (k : string)
  (v : option V) : res (option skipList * Rand.source) :=
  match st with
  | None => Ok (None, g)
  | Some st =>
      match v with
      | None => Panic (Message "Nil value")
      | Some _ =>
          '(st', g') <- update g st k v ;;
          Ok (Some st', g')
      end
  end.

Definition Update (g : Rand.source) (st : option skipList) (k : string)
  (v : option V) : res (option skipList * Rand.source) :=
  match st with
  | None => Ok (None, g)
  | Some st =>
      match v with
      | None => Panic (Message "Nil value")
      | Some _ =>
          '(st', g') <- update g st k v ;;
          Ok (Some st', g')
      end
  end.

(** Mark as deleted. *)
Definition Delete (st : option skipList) (k : string)
  : res (option skipList) :=
  match st with
  | None => Ok None
  | Some st =>
      '(leftBounds, rightBounds) <- searchBounds st k ;;
      nd <- searchWithBounds st k leftBounds rightBounds ;;
      match nd with
      | None => Ok (Some st)
      | Some _ =>
          h <- setVal (nodes st) nd None ;;
          Ok (Some (mkSkipList h (head st) (tail st) (u64 (size st - 1))))
      end
  end.

(** A client's calls, in order. *)
Inductive call : Type :=
| CallInsert (k : string) (v : V)
| CallUpdate (k : string) (v : V)
| CallDelete (k : string).

Definition step (g : Rand.source) (st : option skipList) (c : call)
  : res (option skipList * Rand.source) :=
  match c with
  | CallInsert k v => Insert g st k (Some v)
  | CallUpdate k v => Update g st k (Some v)
  | CallDelete k => st' <- Delete st k ;; Ok (st', g)
  end.

Fixpoint run (g : Rand.source) (st : option skipList) (cs : list call)
  : res (option skipList * Rand.source) :=
  match cs with
  | [] => Ok (st, g)
  | c :: cs' => '(st', g') <- step g st c ;; run g' st' cs'
  end.

End WithValue.

Arguments skipList V : clear implicits.
Arguments call V : clear implicits.

End SkipList.

(** ** internal/memtable: the unlocked skip list and the memtable

    Receivers of this package's methods are never nil: the memtable builds
    every list it calls. The memtable's lock is held for the whole of each
    exported method and does not appear. *)

Module Memtable.

(** [[]byte]: [None] is the nil slice, [Some []] an empty one. *)
Definition bytes : Type := option (list byte).

Record Skiplist : Type := mkSkiplist {
  nodes : heap (list byte);
  head : ptr;
  tail : ptr;
  len : Z;            (* uint32; only count non-nil KV pairs *)
  size : Z            (* uint32; the byte size occupied by all KV pairs *)
}.

Definition NewSkipList : Skiplist :=
  mkSkiplist emptyHeap (Some 0%nat) (Some 1%nat) 0 0.

Definition GetLen (st : Skiplist) : Z := u32 (len st).
Definition GetSize (st : Skiplist) : Z := u32 (size st).
Definition IsEmpty (st : Skiplist) : bool := (size st =? 0)%Z.

Definition searchBounds (st : Skiplist) (k : string)
  : res (list ptr * list ptr) :=
  searchBoundsIn (nodes st) (head st) (tail st) (size st =? 0)%Z k.

Definition searchWithBounds (st : Skiplist) (k : string)
  (leftBounds rightBounds : list ptr) : res ptr :=
  searchWithBoundsIn (nodes st) (head st) k leftBounds rightBounds.

Definition Get (st : Skiplist) (k : string) : res ptr :=
  '(leftBounds, rightBounds) <- searchBounds st k ;;
  searchWithBounds st k leftBounds rightBounds.

(** [len(key)] of a Go string is its number of bytes. *)
Definition keyLen (k : string) : Z := Z.of_nat (String.length k).

(** Serve as both insert and update. Always returns true. *)
Definition Update (g : Rand.source) (st : Skiplist) (k : string) (v : bytes)
  : res (bool * Skiplist * Rand.source) :=
  '(leftBounds, rightBounds) <- searchBounds st k ;;
  nd <- searchWithBounds st k leftBounds rightBounds ;;
  match nd with
  | Some _ =>
      n <- deref (nodes st) nd ;;
      match val n with
      | None =>
          (* the node was marked as deleted before *)
          Ok (true,
              mkSkiplist (nodes st) (head st) (tail st)
                (u32 (len st + 1))
                (u32 (size st + u32 (Go.len v))),
              g)
      | Some old =>
          let size1 := u32 (size st - u32 (Go.len (Some old))) in
          let size2 := u32 (size1 + u32 (Go.len v)) in
          h <- setVal (nodes st) nd v ;;
          Ok (true, mkSkiplist h (head st) (tail st) (len st) size2, g)
      end
  | None =>
      let '(layerNum, g') := liftLayers g in
      let '(h, nd) := alloc (nodes st) (newNode k v layerNum) in
      h <- splice layerNum 0 h nd leftBounds rightBounds ;;
      Ok (true,
          mkSkiplist h (head st) (tail st)
            (u32 (len st + 1))
            (u32 (size st + u32 (keyLen k + Go.len v))),
          g')
  end.

(** if the mutable(1st) skiplist exceeds the threshold, then it will be
    frozen and a new skiplist will be created. *)
Definition skipListThreshold : Z := 256 * 1024 * 1024.

Record memtable : Type := mkMemtable {
  (* sorted by created time descending (the latest one has the index 0) *)
  skiplists : list Skiplist
}.

Definition NewMemtable : memtable := mkMemtable [].

(** The [range] loop of [memtable.Get]. *)
Fixpoint scan (sts : list Skiplist) (k : string) : res (bytes * bool) :=
  match sts with
  | [] => Ok (None, false)
  | st :: older =>
      nd <- Get st k ;;
      match nd with
      | None => scan older k
      | Some _ => n <- deref (nodes st) nd ;; Ok (val n, true)
      end
  end.

Definition memtableGet (mt : memtable) (k : string) : res (bytes * bool) :=
  scan (skiplists mt) k.

Definition popSkiplist (mt : memtable) : memtable :=
  let len_ := length (skiplists mt) in
  if (len_ =? 0)%nat then mt
  else mkMemtable (take (len_ - 1) (skiplists mt)).

Definition newSkiplist (mt : memtable) : memtable :=
  mkMemtable ([NewSkipList] ++ skiplists mt).

(** The test made before each write, with the threshold it compares
    against: a new generation when there is none or when the newest has
    reached the threshold. *)
Definition rotate (threshold : Z) (mt : memtable) : memtable :=
  match skiplists mt with
  | [] => newSkiplist mt
  | st :: _ => if (threshold <=? GetSize st)%Z then newSkiplist mt else mt
  end.

(** [mt.skiplists[0].Update(key, val)] on the list the slice points to. *)
Definition updateNewest (g : Rand.source) (mt : memtable) (k : string)
  (v : bytes) : res (bool * memtable * Rand.source) :=
  st <- index (skiplists mt) 0 ;;
  '(b, st', g') <- Update g st k v ;;
  Ok (b, mkMemtable (<[0%nat := st']> (skiplists mt)), g').

Definition memtableUpdateAt (threshold : Z) (g : Rand.source) (mt : memtable)
  (k : string) (v : bytes) : res (bool * memtable * Rand.source) :=
  match v with
  | None => Panic (Message "Nil val")
  | Some _ => updateNewest g (rotate threshold mt) k v
  end.

Definition memtableDeleteAt (threshold : Z) (g : Rand.source) (mt : memtable)
  (k : string) : res (bool * memtable * Rand.source) :=
  updateNewest g (rotate threshold mt) k None.

(** The methods as the package compiles them. *)
Definition memtableUpdate := memtableUpdateAt skipListThreshold.
Definition memtableDelete := memtableDeleteAt skipListThreshold.

(** The iterator over one generation. It points to the list; the list
    it is made for is the oldest one, which no write reaches. *)
Record MemtableIterator : Type := mkIterator {
  st : Skiplist;
  cursor : ptr
}.

Definition getKey (it : MemtableIterator) : res string :=
  n <- deref (nodes (st it)) (cursor it) ;; Ok (key n).

(** [string(it.cursor.val)]: the nil slice converts to the empty
    string. *)
Definition getVal (it : MemtableIterator) : res string :=
  n <- deref (nodes (st it)) (cursor it) ;;
  Ok (match val n with
      | None => EmptyString
      | Some b => string_of_list_byte b
      end).

Definition next (it : MemtableIterator) : res MemtableIterator :=
  n <- deref (nodes (st it)) (cursor it) ;;
  c <- index (nexts n) 0 ;;
  Ok (mkIterator (st it) c).

Definition hasNext (it : MemtableIterator) : bool :=
  negb (ptr_eqb (cursor it) None) && negb (ptr_eqb (cursor it) (tail (st it))).

(** [nil] when there are fewer than two generations. *)
Definition getLastIterator (mt : memtable) : res (option MemtableIterator) :=
  if (length (skiplists mt) <=? 1)%nat then Ok None
  else
    lastSkiplist <- index (skiplists mt) (length (skiplists mt) - 1) ;;
    hd <- deref (nodes lastSkiplist) (head lastSkiplist) ;;
    c <- index (nexts hd) 0 ;;
    Ok (Some (mkIterator lastSkiplist c)).

(** The loop a consumer of the [Iterator] interface runs:
    [for it.hasNext() { emit(it.getKey(), it.getVal()); it.next() }]. *)
Fixpoint drain (fuel : nat) (it : MemtableIterator)
  : res (list (string * string)) :=
  if hasNext it then
    match fuel with
    | O => Spin
    | S fuel' =>
        k <- getKey it ;;
        v <- getVal it ;;
        it' <- next it ;;
        rest <- drain fuel' it' ;;
        Ok ((k, v) :: rest)
    end
  else Ok [].

Definition collect (it : MemtableIterator) : res (list (string * string)) :=
  drain (length (nodes (st it))) it.

End Memtable.

(** ** Byte slices and encoding/binary

    A [[]byte] is a window on a backing array: where it starts, how many
    bytes it shows, and how many it may be re-sliced to. Accessors of a
    page return such windows, not copies, and writes go to the array. *)

Module Bytes.

Local Open Scope Z_scope.

Definition memory : Type := list byte.

Record slice : Type := mkSlice { base : Z; len : Z; cap : Z }.

(** The slice that shows the whole array. *)
Definition whole (m : memory) : slice :=
  mkSlice 0 (Z.of_nat (length m)) (Z.of_nat (length m)).

(** [s[lo:hi]] panics unless [0 <= lo <= hi <= cap(s)]. *)
Definition sub (s : slice) (lo hi : Z) : res slice :=
  if (0 <=? lo) && (lo <=? hi) && (hi <=? cap s)
  then Ok (mkSlice (base s + lo) (hi - lo) (cap s - lo))
  else Panic SliceOutOfRange.

(** [s[lo:]] and [s[:hi]]. *)
Definition from (s : slice) (lo : Z) : res slice := sub s lo (len s).
Definition upto (s : slice) (hi : Z) : res slice := sub s 0 hi.

(** The bytes a slice shows. *)
Definition view (m : memory) (s : slice) : list byte :=
  take (Z.to_nat (len s)) (drop (Z.to_nat (base s)) m).

Definition byteToZ (b : byte) : Z := Z.of_N (Byte.to_N b).

(** [byte(v)]: the low eight bits. *)
Definition byteOfZ (v : Z) : byte :=
  match Byte.of_N (Z.to_N (v mod 256)) with
  | Some b => b
  | None => x00
  end.

Fixpoint leValue (bs : list byte) : Z :=
  match bs with
  | [] => 0
  | b :: bs' => Z.lor (byteToZ b) (Z.shiftl (leValue bs') 8)
  end.

Fixpoint leBytes (n : nat) (v : Z) : list byte :=
  match n with
  | O => []
  | S n' => byteOfZ v :: leBytes n' (Z.shiftr v 8)
  end.

(** [binary.LittleEndian.UintN(b)] reads the first [N/8] bytes of [b] and
    panics when [b] is shorter. *)
Definition UintLE (width : nat) (m : memory) (b : slice) : res Z :=
  if Z.of_nat width <=? Z.of_nat (length (view m b))
  then Ok (leValue (take width (view m b)))
  else Panic IndexOutOfRange.

Definition Uint16 := UintLE 2.
Definition Uint64 := UintLE 8.

Fixpoint writeAt (m : memory) (at_ : nat) (bs : list byte) : memory :=
  match bs with
  | [] => m
  | b :: bs' => writeAt (<[at_ := b]> m) (S at_) bs'
  end.

(** [binary.LittleEndian.PutUintN(b, v)]. *)
Definition PutUintLE (width : nat) (m : memory) (b : slice) (v : Z)
  : res memory :=
  if Z.of_nat width <=? Z.of_nat (length (view m b))
  then Ok (writeAt m (Z.to_nat (base b)) (leBytes width v))
  else Panic IndexOutOfRange.

Definition PutUint16 := PutUintLE 2.
Definition PutUint64 := PutUintLE 8.

(** A slice lies in its array: the window it may be re-sliced to is part
    of the array. *)
Definition inArray (m : memory) (s : slice) : Prop :=
  0 <= base s /\ 0 <= len s <= cap s /\ base s + cap s <= Z.of_nat (length m).

(** [t] is a window inside the window that [s] may be re-sliced to. *)
Definition within (s t : slice) : Prop :=
  base s <= base t /\ 0 <= len t <= cap t
  /\ base t + cap t <= base s + cap s.

End Bytes.

(** ** internal/btree/btree.go: the node page codec *)

Module BTree.

Import Bytes.
Local Open Scope Z_scope.

(** [type BTreeNode []byte]: the slice; the array it shows is passed
    next to it. *)
Definition BTreeNode : Type := slice.

(** [type BTreeNodeType byte]. *)
Definition BTreeNodeType : Type := Z.
Definition internal : BTreeNodeType := 0.
Definition leaf : BTreeNodeType := 1.

Definition typeLiteralInternal : string := "INTERNAL".
Definition typeLiteralLeaf : string := "LEAF".

Definition getTypeLiteral (type_ : BTreeNodeType) : string :=
  if type_ =? internal then typeLiteralInternal else typeLiteralLeaf.

Definition headerOffset := 0.
Definition headerLen := 8.
Definition typeOffset := 0.
Definition typeLen := 2.
Definition countOffset := 2.
Definition countLen := 2.
Definition sizeOffset := 4.
Definition sizeLen := 2.

(** [slice[offset : offset+len]], the sum taken in uint16. *)
Definition getSlice (s : slice) (offset len : Z) : res slice :=
  sub s offset (u16 (offset + len)).

Definition getType (m : memory) (node : BTreeNode) : res BTreeNodeType :=
  s <- getSlice node typeOffset typeLen ;;
  v <- Uint16 m s ;;
  Ok (u8 v).

Definition setType (m : memory) (node : BTreeNode) (type_ : BTreeNodeType)
  : res memory :=
  s <- getSlice node typeOffset typeLen ;;
  PutUint16 m s type_.

Definition getCount (m : memory) (node : BTreeNode) : res Z :=
  s <- getSlice node countOffset countLen ;;
  Uint16 m s.

Definition setCount (m : memory) (node : BTreeNode) (count : Z)
  : res memory :=
  s <- getSlice node countOffset countLen ;;
  PutUint16 m s count.

Definition getSize (m : memory) (node : BTreeNode) : res Z :=
  s <- getSlice node sizeOffset sizeLen ;;
  Uint16 m s.

Definition setSize (m : memory) (node : BTreeNode) (size : Z)
  : res memory :=
  s <- getSlice node sizeOffset sizeLen ;;
  PutUint16 m s size.

(** [fmt.Sprintf(panicTypeMismatchMsg, ...)] and
    [fmt.Sprintf(panicOutOfBoundMsg, ...)]. *)
Definition typeMismatchMsg (expected actual : string) : string :=
  "expected " ++ expected ++ " but got " ++ actual.

Definition outOfBoundMsg (idx bound : Z) : string :=
  "index " ++ fmt_d idx ++ " out of bound " ++ fmt_d bound.

Definition panicOutOfBound {A : Type} (idx bound : Z) : res A :=
  Panic (Message (outOfBoundMsg idx bound)).

Definition panicTypeMismatch {A : Type} (expected actual : BTreeNodeType)
  : res A :=
  Panic (Message (typeMismatchMsg (getTypeLiteral expected)
                                  (getTypeLiteral actual))).

Definition checkType (m : memory) (node : BTreeNode) (type_ : BTreeNodeType)
  : res unit :=
  nodeType <- getType m node ;;
  if negb (nodeType =? type_) then
    actual <- getType m node ;; panicTypeMismatch type_ actual
  else Ok tt.

Definition checkIdx (m : memory) (node : BTreeNode) (idx : Z) : res unit :=
  count <- getCount m node ;;
  if count <=? idx then panicOutOfBound idx count else Ok tt.

Definition dataOffset := 8.
Definition childPtrLen := 8.
Definition kvOffsetOffset := 0.
Definition kvOffsetLen := 2.
Definition keyLenOffset := 0.
Definition keyLenLen := 2.
Definition valueLenOffset := 2.
Definition valueLenLen := 2.
Definition keyOffset := 4.

Definition getData (m : memory) (node : BTreeNode) : res slice :=
  size <- getSize m node ;;
  getSlice node dataOffset (u16 (size - dataOffset)).

Definition getChildPtr (m : memory) (node : BTreeNode) (idx : Z) : res Z :=
  _ <- checkType m node internal ;;
  _ <- checkIdx m node idx ;;
  data <- getData m node ;;
  s <- getSlice data (u16 (idx * childPtrLen)) childPtrLen ;;
  Uint64 m s.

Definition setChildPtr (m : memory) (node : BTreeNode) (idx : Z) (ptr : Z)
  : res memory :=
  _ <- checkType m node internal ;;
  _ <- checkIdx m node idx ;;
  data <- getData m node ;;
  s <- getSlice data (u16 (idx * childPtrLen)) childPtrLen ;;
  PutUint64 m s ptr.

Definition getKV (m : memory) (node : BTreeNode) (idx : Z)
  : res (slice * slice) :=
  _ <- checkType m node leaf ;;
  _ <- checkIdx m node idx ;;
  count <- getCount m node ;;
  data <- getData m node ;;
  kvOffsets <- upto data (u16 (count * kvOffsetLen)) ;;
  s <- getSlice kvOffsets (u16 (idx * kvOffsetLen)) kvOffsetLen ;;
  kvOffset <- Uint16 m s ;;
  kvPairs <- from data (u16 (count * kvOffsetLen)) ;;
  kvPair <- from kvPairs kvOffset ;;
  s <- getSlice kvPair keyLenOffset keyLenLen ;;
  keyLen <- Uint16 m s ;;
  s <- getSlice kvPair valueLenOffset valueLenLen ;;
  valueLen <- Uint16 m s ;;
  kvPair <- getSlice kvPair 0
              (u16 (keyLenLen + valueLenLen + keyLen + valueLen)) ;;
  k <- getSlice kvPair keyOffset keyLen ;;
  v <- getSlice kvPair (u16 (keyOffset + keyLen)) valueLen ;;
  Ok (k, v).

(** *** A leaf page as the layout comment of btree.go draws it

    [| type | count | size | padding | kv_offsets | kv_data | unused |],
    each offset relative to the beginning of the kv_data part, each pair
    [| key_len | val_len | key | val |]. The repository has no encoder;
    [TestGetKV] assembles its page in this way. *)

Definition kv : Type := (list byte * list byte)%type.

Definition pairLen (p : kv) : Z :=
  keyLenLen + valueLenLen + Z.of_nat (length (fst p))
  + Z.of_nat (length (snd p)).

Definition encodePair (p : kv) : list byte :=
  leBytes 2 (Z.of_nat (length (fst p)))
  ++ leBytes 2 (Z.of_nat (length (snd p)))
  ++ fst p ++ snd p.

(** The offsets of the pairs, the first one at [start]. *)
Fixpoint pairOffsets (start : Z) (kvs : list kv) : list Z :=
  match kvs with
  | [] => []
  | p :: kvs' => start :: pairOffsets (start + pairLen p) kvs'
  end.

Definition pairsLen (kvs : list kv) : Z :=
  fold_right (fun p acc => pairLen p + acc) 0 kvs.

Definition leafSize (kvs : list kv) : Z :=
  headerLen + kvOffsetLen * Z.of_nat (length kvs) + pairsLen kvs.

Definition encodeLeaf (kvs : list kv) (unused : list byte) : memory :=
  leBytes 2 leaf
  ++ leBytes 2 (Z.of_nat (length kvs))
  ++ leBytes 2 (leafSize kvs)
  ++ [x00; x00]
  ++ concat (map (leBytes 2) (pairOffsets 0 kvs))
  ++ concat (map encodePair kvs)
  ++ unused.

End BTree.

(** ** internal/btree/btree_test.go: the page the tests start from

    [getSliceWithRandomIntegers(4096)] fills a page with the results of
    [rand.Intn(256)]; the page is a parameter here. *)

Module BTreeTest.

Import Bytes BTree.

Definition getNode (page : memory) (type_ : BTreeNodeType) (count size : Z)
  : res (memory * BTreeNode) :=
  let node := whole page in
  m <- setType page node type_ ;;
  m <- setCount m node count ;;
  m <- setSize m node size ;;
  Ok (m, node).

End BTreeTest.

(** ** The second copy of the node codec

    The repository holds another file of package btree whose header has
    only [type] and [count]; its accessors slice the page directly. *)

Module BTreeDraft.

Import Bytes.
Local Open Scope Z_scope.

Definition BTreeNode : Type := slice.
Definition BTreeNodeType : Type := Z.
Definition internal : BTreeNodeType := 0.
Definition leaf : BTreeNodeType := 1.

Definition typeLiteralInternal : string := "INTERNAL".
Definition typeLiteralLeaf : string := "LEAF".

Definition getTypeLiteral (type_ : BTreeNodeType) : string :=
  if type_ =? internal then typeLiteralInternal else typeLiteralLeaf.

Definition typeOffset := 0.
Definition typeLen := 2.
Definition countOffset := 2.
Definition countLen := 4.

(** [node[typeOffset:][:typeLen]]. *)
Definition getTypeSlice (node : BTreeNode) : res slice :=
  s <- from node typeOffset ;; upto s typeLen.

Definition getType (m : memory) (node : BTreeNode) : res BTreeNodeType :=
  s <- getTypeSlice node ;;
  v <- Uint16 m s ;;
  Ok (u8 v).

Definition setType (m : memory) (node : BTreeNode) (type_ : BTreeNodeType)
  : res memory :=
  s <- getTypeSlice node ;;
  PutUint16 m s type_.

Definition getCountSlice (node : BTreeNode) : res slice :=
  s <- from node countOffset ;; upto s countLen.

Definition getCount (m : memory) (node : BTreeNode) : res Z :=
  s <- getCountSlice node ;;
  Uint16 m s.

Definition setCount (m : memory) (node : BTreeNode) (count : Z)
  : res memory :=
  s <- getCountSlice node ;;
  PutUint16 m s count.

Definition dataStart := 4.
Definition childPointerLen := 8.
Definition metadataOffset := 4.
Definition kvOffsetLen := 2.
Definition kvKeyLen := 2.
Definition kvValueLen := 2.
Definition kvDataOffset := 4.

Definition typeMistMatchMsg (a b : string) : string :=
  "mismatch between type " ++ a ++ " and type " ++ b.

Definition outOfBoundMsg (idx bound : Z) : string :=
  "index " ++ fmt_d idx ++ " out of bound " ++ fmt_d bound.

Definition checkType (m : memory) (node : BTreeNode) (type_ : BTreeNodeType)
  : res unit :=
  nodeType <- getType m node ;;
  if negb (nodeType =? type_) then
    Panic (Message (typeMistMatchMsg (getTypeLiteral nodeType)
                                     (getTypeLiteral type_)))
  else Ok tt.

Definition checkIdx (m : memory) (node : BTreeNode) (idx : Z) : res unit :=
  count <- getCount m node ;;
  if count <=? idx then Panic (Message (outOfBoundMsg idx count))
  else Ok tt.

Definition getChildPointer (m : memory) (node : BTreeNode) (idx : Z)
  : res Z :=
  _ <- checkType m node internal ;;
  _ <- checkIdx m node idx ;;
  data <- from node dataStart ;;
  s <- from data (u16 (idx * childPointerLen)) ;;
  Uint64 m s.

(** The type tested here is [internal]. *)
Definition getKV (m : memory) (node : BTreeNode) (idx : Z)
  : res (slice * slice) :=
  _ <- checkType m node internal ;;
  _ <- checkIdx m node idx ;;
  count <- getCount m node ;;
  s <- from node metadataOffset ;;
  metadata <- upto s (u16 (kvOffsetLen * count)) ;;
  s <- from metadata (u16 (idx * kvOffsetLen)) ;;
  s <- upto s kvOffsetLen ;;
  kvOffset <- Uint16 m s ;;
  data <- from node (metadataOffset + len metadata) ;;
  s <- from data kvOffset ;;
  s <- upto s kvKeyLen ;;
  keyLen <- Uint16 m s ;;
  s <- from data (u16 (kvOffset + keyLen)) ;;
  s <- upto s kvValueLen ;;
  valueLen <- Uint16 m s ;;
  s <- from data kvDataOffset ;;
  k <- upto s keyLen ;;
  s <- from data (u16 (kvOffset + keyLen)) ;;
  v <- upto s valueLen ;;
  Ok (k, v).

End BTreeDraft.

(** * Properties *)

(** ** Outcomes *)

Lemma bind_Ok {A B : Type} (m : res A) (k : A -> res B) (b : B) :
  bind m k = Ok b -> exists a, m = Ok a /\ k a = Ok b.
Proof.
  destruct m as [a | f | ]; simpl; intros H; try discriminate.
  exists a. split; [reflexivity | exact H].
Qed.

Lemma bind_of_Ok {A B : Type} (m : res A) (k : A -> res B) (a : A) :
  m = Ok a -> bind m k = k a.
Proof. intros ->. reflexivity. Qed.

Lemma index_Ok {A : Type} (s : list A) (i : nat) (a : A) :
  index s i = Ok a <-> s !! i = Some a.
Proof.
  unfold index. destruct (s !! i) as [x | ]; split; intros H;
    try discriminate; congruence.
Qed.

Lemma store_Ok {A : Type} (s s' : list A) (i : nat) (a : A) :
  store s i a = Ok s' <-> (i < length s)%nat /\ s' = <[i := a]> s.
Proof.
  unfold store. destruct (Nat.ltb_spec i (length s)); split.
  - intros [= <-]. split; [assumption | reflexivity].
  - intros [_ ->]. reflexivity.
  - discriminate.
  - intros [Hlt _]. lia.
Qed.

(** Takes a hypothesis [x <- m ;; k = Ok b] apart, as often as it can. *)
Ltac bind_inv H :=
  repeat match type of H with
    | bind _ _ = Ok _ =>
        let a := fresh "a" in
        let Ha := fresh "Ha" in
        apply bind_Ok in H; destruct H as (a & Ha & H)
    | (let '(_, _) := ?p in _) = Ok _ => destruct p
    | (let (_, _) := ?p in _) = Ok _ => destruct p
    end.

Lemma ptr_eqb_eq (p q : ptr) : ptr_eqb p q = true <-> p = q.
Proof.
  destruct p as [a | ], q as [b | ]; simpl; split; intros H;
    try discriminate; try reflexivity.
  - apply Nat.eqb_eq in H. congruence.
  - injection H as ->. apply Nat.eqb_refl.
Qed.

(** ** liftLayers *)

Lemma liftLoop_range (rounds : nat) :
  forall (layer : nat) (g : Rand.source),
    (layer <= fst (liftLoop rounds layer g)
     /\ fst (liftLoop rounds layer g) <= Nat.max layer maxHeight)%nat.
Proof.
  induction rounds as [ | rounds IH]; intros layer g; simpl.
  - lia.
  - destruct (Nat.ltb_spec layer maxHeight) as [Hlt | Hge]; simpl; [ | lia].
    destruct (Rand.draws g (Rand.calls g) =? 0)%Z; simpl; [lia | ].
    specialize (IH (S layer)
                  (Rand.mkSource (Rand.draws g) (S (Rand.calls g)))).
    lia.
Qed.

(** Sampled tower heights lie in [1, maxHeight]. *)
Lemma liftLayers_range (g : Rand.source) :
  (1 <= fst (liftLayers g) <= maxHeight)%nat.
Proof.
  unfold liftLayers. pose proof (liftLoop_range maxHeight 1 g) as H.
  unfold maxHeight in *. lia.
Qed.

(** The heights a tower can get, one case each. *)
Lemma height_cases (g : Rand.source) :
  In (fst (liftLayers g)) (seq 1 16).
Proof.
  apply in_seq. pose proof (liftLayers_range g). unfold maxHeight in *. lia.
Qed.

(** Splits a hypothesis [In h (seq 1 16)] into its sixteen cases. *)
Ltac each_height H :=
  cbn [seq In] in H;
  repeat (destruct H as [<- | H]; [ | ]); [ .. | contradiction].

(** What the loop of [liftLayers] does with the draws. *)
Lemma liftLoop_spec (rounds : nat) :
  forall (layer : nat) (g : Rand.source),
    (maxHeight < layer + rounds)%nat ->
    let h := fst (liftLoop rounds layer g) in
    let g' := snd (liftLoop rounds layer g) in
    Rand.draws g' = Rand.draws g
    /\ (layer <= h)%nat
    /\ (forall i : nat, (i < h - layer)%nat ->
          Rand.draws g (Rand.calls g + i) <> 0%Z)
    /\ ((h < maxHeight)%nat
        /\ Rand.draws g (Rand.calls g + (h - layer)) = 0%Z
        /\ Rand.calls g' = (Rand.calls g + (h - layer) + 1)%nat
        \/ (maxHeight <= h)%nat
           /\ Rand.calls g' = (Rand.calls g + (h - layer))%nat).
Proof.
  induction rounds as [ | rounds IH]; intros layer g Hfuel; cbn [liftLoop].
  - cbn [fst snd]. split; [reflexivity | ]. split; [lia | ].
    split; [intros i Hi; lia | ]. right. split; lia.
  - destruct (Nat.ltb_spec layer maxHeight) as [Hlt | Hge].
    + unfold Rand.Intn2.
      destruct (Z.eqb_spec (Rand.draws g (Rand.calls g)) 0) as [Hz | Hnz];
        cbn [fst snd Rand.draws Rand.calls].
      * split; [reflexivity | ]. split; [lia | ].
        split; [intros i Hi; lia | ]. left.
        rewrite Nat.sub_diag, Nat.add_0_r. split; [assumption | ].
        split; [assumption | lia].
      * specialize (IH (S layer)
                      (Rand.mkSource (Rand.draws g) (S (Rand.calls g)))
                      ltac:(lia)).
        cbn zeta in IH. cbn [Rand.draws Rand.calls] in IH.
        destruct IH as (Hd & Hle & Hnon & Hstop).
        set (h := fst (liftLoop rounds (S layer) _)) in *.
        split; [exact Hd | ]. split; [lia | ]. split.
        -- intros i Hi. destruct i as [ | i].
           ++ now rewrite Nat.add_0_r.
           ++ replace (Rand.calls g + S i)%nat
                with (S (Rand.calls g) + i)%nat by lia.
              apply Hnon. lia.
        -- replace (Rand.calls g + (h - layer))%nat
             with (S (Rand.calls g) + (h - S layer))%nat by lia.
           exact Hstop.
    + cbn [fst snd]. split; [reflexivity | ]. split; [lia | ].
      split; [intros i Hi; lia | ]. right. split; lia.
Qed.

(** X1. [liftLayers] returns one more than the number of results other
    than zero that [rand.Intn(2)] gives in a row, at most [maxHeight]. It
    consumes the draws it looked at: as many as the height when a zero
    stopped it, and [maxHeight - 1] when the height is [maxHeight]
    ([TestLiftLayers] checks the range). *)
Theorem liftLayers_counts_draws (g : Rand.source) :
  let h := fst (liftLayers g) in
  let g' := snd (liftLayers g) in
  (1 <= h <= maxHeight)%nat
  /\ Rand.draws g' = Rand.draws g
  /\ (forall i : nat, (i < h - 1)%nat ->
        Rand.draws g (Rand.calls g + i) <> 0%Z)
  /\ ((h < maxHeight)%nat ->
      Rand.draws g (Rand.calls g + (h - 1)) = 0%Z
      /\ Rand.calls g' = (Rand.calls g + h)%nat)
  /\ (h = maxHeight -> Rand.calls g' = (Rand.calls g + (maxHeight - 1))%nat).
Proof.
  intros h g'. pose proof (liftLayers_range g) as Hrange. fold h in Hrange.
  destruct (liftLoop_spec maxHeight 1 g ltac:(lia))
    as (Hd & Hle & Hnon & Hstop).
  change (liftLoop maxHeight 1 g) with (liftLayers g) in *.
  fold h g' in Hd, Hle, Hnon, Hstop.
  split; [exact Hrange | ]. split; [exact Hd | ]. split; [exact Hnon | ].
  split.
  - intros Hlt. destruct Hstop as [(_ & Hz & Hc) | (Hge & _)]; [ | lia].
    split; [exact Hz | lia].
  - intros Heq. destruct Hstop as [(Hlt & _) | (_ & Hc)]; [lia | ].
    rewrite Hc, Heq. reflexivity.
Qed.

(** The order on keys is reflexive. *)
Lemma leb_refl (k : string) : String.leb k k = true.
Proof. destruct (String.leb_total k k); assumption. Qed.

(** Evaluates a search whose key is a variable: the comparisons of the
    key with itself are the only ones that do not compute. *)
Ltac search_self :=
  repeat (cbv -[String.leb String.eqb];
          rewrite ?leb_refl, ?String.eqb_refl);
  try reflexivity.

(** ** What a search returns *)

Section SearchFacts.

Context {V : Type}.
Implicit Types (h : heap V) (head tail : ptr) (k : string).

(** A node that [searchWithBounds] returns is in the heap and carries the
    key searched for. *)
Lemma searchWithBoundsIn_hit h head k (lb rb : list ptr) (a : nat) :
  searchWithBoundsIn h head k lb rb = Ok (Some a) ->
  exists n, h !! a = Some n /\ key n = k.
Proof.
  unfold searchWithBoundsIn. intros H.
  apply bind_Ok in H as (l & Hl & H).
  apply bind_Ok in H as (hitL & HhitL & H).
  assert (Hfound : forall p hit,
    (if negb (ptr_eqb p head)
     then n <- deref h p ;; Ok (String.eqb (key n) k)
     else Ok false) = Ok hit ->
    hit = true -> p = Some a ->
    exists n, h !! a = Some n /\ key n = k).
  { intros p hit Hp -> ->.
    destruct (negb (ptr_eqb (Some a) head)); [ | discriminate].
    apply bind_Ok in Hp as (n & Hn & Hp). simpl in Hn.
    destruct (h !! a) as [n' | ] eqn:Ha; [ | discriminate].
    injection Hn as ->. injection Hp as Hp.
    exists n. split; [reflexivity | ]. now apply String.eqb_eq. }
  destruct hitL.
  - injection H as ->. eapply Hfound; eauto.
  - apply bind_Ok in H as (r & Hr & H).
    apply bind_Ok in H as (hitR & HhitR & H).
    destruct hitR; [ | discriminate].
    injection H as ->. eapply Hfound; eauto.
Qed.

(** *** Searches read links and keys, never values

    Two heaps of the same shape (the same links and keys at every
    address) send every search the same way. *)

Definition shape (n : node V) : list ptr * string := (nexts n, key n).

Definition sameShape (h h' : heap V) : Prop :=
  Forall2 (fun n n' => shape n = shape n') h h'.

Lemma sameShape_length h h' : sameShape h h' -> length h = length h'.
Proof. apply Forall2_length. Qed.

Lemma bind_deref_shape {B : Type} h h' (p : ptr) (f f' : node V -> res B) :
  sameShape h h' ->
  (forall n n', shape n = shape n' -> f n = f' n') ->
  (n <- deref h p ;; f n) = (n <- deref h' p ;; f' n).
Proof.
  intros Hs Hf. destruct p as [a | ]; simpl; [ | reflexivity].
  destruct (h !! a) as [n | ] eqn:Ha.
  - destruct (Forall2_lookup_l _ _ _ _ _ Hs Ha) as (n' & Ha' & Hn).
    rewrite Ha'. simpl. now apply Hf.
  - apply lookup_ge_None in Ha. rewrite (sameShape_length _ _ Hs) in Ha.
    apply lookup_ge_None in Ha. rewrite Ha. reflexivity.
Qed.

Lemma shape_key (n n' : node V) : shape n = shape n' -> key n = key n'.
Proof. unfold shape. congruence. Qed.

Lemma shape_nexts (n n' : node V) : shape n = shape n' -> nexts n = nexts n'.
Proof. unfold shape. congruence. Qed.

Lemma walk_shape h h' head tail (rb : ptr) k (layer : nat) :
  sameShape h h' ->
  forall (fuel : nat) (cur next : ptr),
    walk fuel h head tail rb k layer cur next
    = walk fuel h' head tail rb k layer cur next.
Proof.
  intros Hs. induction fuel as [ | fuel IH]; intros cur next; simpl.
  - reflexivity.
  - destruct (ptr_eqb next rb); [reflexivity | ].
    assert (E1 :
      (if ptr_eqb cur head then Ok true
       else n <- deref h cur ;; Ok (String.leb (key n) k))
      = (if ptr_eqb cur head then Ok true
         else n <- deref h' cur ;; Ok (String.leb (key n) k))).
    { destruct (ptr_eqb cur head); [reflexivity | ].
      apply bind_deref_shape; [assumption | ].
      intros n n' Hn. now rewrite (shape_key _ _ Hn). }
    rewrite E1.
    destruct (if ptr_eqb cur head then Ok true
              else n <- deref h' cur ;; Ok (String.leb (key n) k))
      as [c1 | f | ]; simpl; try reflexivity.
    assert (E2 :
      (if c1 then
         if ptr_eqb next tail then Ok true
         else n <- deref h next ;; Ok (String.leb k (key n))
       else Ok false)
      = (if c1 then
           if ptr_eqb next tail then Ok true
           else n <- deref h' next ;; Ok (String.leb k (key n))
         else Ok false)).
    { destruct c1; [ | reflexivity].
      destruct (ptr_eqb next tail); [reflexivity | ].
      apply bind_deref_shape; [assumption | ].
      intros n n' Hn. now rewrite (shape_key _ _ Hn). }
    rewrite E2.
    destruct (if c1 then
                if ptr_eqb next tail then Ok true
                else n <- deref h' next ;; Ok (String.leb k (key n))
              else Ok false) as [c2 | f | ]; simpl; try reflexivity.
    destruct c2; [reflexivity | ].
    apply bind_deref_shape; [assumption | ].
    intros n n' Hn. rewrite (shape_nexts _ _ Hn).
    destruct (index (nexts n') layer) as [next' | f | ]; simpl;
      try reflexivity.
    apply IH.
Qed.

Lemma narrowDownBound_shape h h' head tail (lb rb : ptr) k (layer : nat) :
  sameShape h h' ->
  narrowDownBound h head tail lb rb k layer
  = narrowDownBound h' head tail lb rb k layer.
Proof.
  intros Hs. unfold narrowDownBound.
  apply bind_deref_shape; [assumption | ].
  intros n n' Hn. rewrite (shape_nexts _ _ Hn).
  destruct (index (nexts n') layer) as [next | f | ]; simpl;
    try reflexivity.
  rewrite (sameShape_length _ _ Hs). now apply walk_shape.
Qed.

Lemma descend_shape h h' head tail k :
  sameShape h h' ->
  forall (i : nat) (lbs rbs : list ptr),
    descend h head tail k i lbs rbs = descend h' head tail k i lbs rbs.
Proof.
  intros Hs. induction i as [ | i IH]; intros lbs rbs; simpl;
    destruct (index lbs _) as [l | f | ]; simpl; try reflexivity;
    destruct (index rbs _) as [r | f | ]; simpl; try reflexivity;
    rewrite (narrowDownBound_shape h h') by assumption;
    destruct (narrowDownBound h' head tail l r k _) as [[cur next] | f | ];
    simpl; try reflexivity.
  destruct (store lbs (S i) cur) as [lbs1 | f | ]; simpl; try reflexivity.
  destruct (store rbs (S i) next) as [rbs1 | f | ]; simpl; try reflexivity.
  destruct (store lbs1 i cur) as [lbs2 | f | ]; simpl; try reflexivity.
  destruct (store rbs1 i next) as [rbs2 | f | ]; simpl; try reflexivity.
  apply IH.
Qed.

Lemma searchBoundsIn_shape h h' head tail (empty : bool) k :
  sameShape h h' ->
  searchBoundsIn h head tail empty k = searchBoundsIn h' head tail empty k.
Proof.
  intros Hs. unfold searchBoundsIn. destruct empty; [reflexivity | ].
  destruct (store (initBound head) (maxHeight - 1) head) as [lbs | f | ];
    cbn [bind]; try reflexivity.
  apply bind_deref_shape; [assumption | ].
  intros n n' Hn. rewrite (shape_nexts _ _ Hn).
  destruct (index (nexts n') (maxHeight - 1)) as [top | f | ]; cbn [bind];
    try reflexivity.
  destruct (store (initBound tail) (maxHeight - 1) top) as [rbs | f | ];
    cbn [bind]; try reflexivity.
  rewrite (descend_shape h h') by assumption.
  destruct (descend h' head tail k (maxHeight - 1) lbs rbs)
    as [[lbs' rbs'] | f | ]; cbn [bind]; try reflexivity.
  destruct (index lbs' 0) as [l | f | ]; cbn [bind]; try reflexivity.
  destruct (index rbs' 0) as [r | f | ]; cbn [bind]; try reflexivity.
  now rewrite (narrowDownBound_shape h h').
Qed.

Lemma searchWithBoundsIn_shape h h' head k (lbs rbs : list ptr) :
  sameShape h h' ->
  searchWithBoundsIn h head k lbs rbs = searchWithBoundsIn h' head k lbs rbs.
Proof.
  intros Hs. unfold searchWithBoundsIn.
  assert (E : forall p,
    (if negb (ptr_eqb p head)
     then n <- deref h p ;; Ok (String.eqb (key n) k) else Ok false)
    = (if negb (ptr_eqb p head)
       then n <- deref h' p ;; Ok (String.eqb (key n) k) else Ok false)).
  { intros p. destruct (negb (ptr_eqb p head)); [ | reflexivity].
    apply bind_deref_shape; [assumption | ].
    intros n n' Hn. now rewrite (shape_key _ _ Hn). }
  destruct (index lbs 0) as [l | f | ]; simpl; try reflexivity.
  rewrite (E l).
  destruct (if negb (ptr_eqb l head)
            then n <- deref h' l ;; Ok (String.eqb (key n) k)
            else Ok false) as [hitL | f | ]; simpl; try reflexivity.
  destruct hitL; [reflexivity | ].
  destruct (index rbs 0) as [r | f | ]; simpl; try reflexivity.
  now rewrite (E r).
Qed.

(** Writing a value keeps the shape. *)
Lemma setVal_Ok h (a : nat) (n : node V) (v : option V) :
  h !! a = Some n ->
  setVal h (Some a) v = Ok (<[a := mkNode (nexts n) (key n) v]> h).
Proof. intros Ha. unfold setVal. simpl. rewrite Ha. reflexivity. Qed.

Lemma sameShape_setVal h (a : nat) (n : node V) (v : option V) :
  h !! a = Some n ->
  sameShape h (<[a := mkNode (nexts n) (key n) v]> h).
Proof.
  intros Ha. apply Forall2_same_length_lookup. split.
  - now rewrite length_insert.
  - intros i x y Hx Hy. destruct (decide (i = a)) as [-> | Hne].
    + rewrite list_lookup_insert_eq in Hy
        by (apply lookup_lt_is_Some; eauto).
      injection Hy as <-. rewrite Ha in Hx. injection Hx as <-.
      reflexivity.
    + rewrite list_lookup_insert_ne in Hy by congruence.
      congruence.
Qed.

(** *** The left bounds can take the new node

    [tall h p i]: [p] points to a node of [h] that has a link at layer
    [i]. Every left bound that a search returns for layer [i] is such a
    node, which is what the splice loop of an insert needs. *)

Definition tall (h : heap V) (p : ptr) (i : nat) : Prop :=
  exists a n, p = Some a /\ h !! a = Some n /\ (i < length (nexts n))%nat.

Lemma tall_of_reads h (p q : ptr) (n : node V) (i : nat) :
  deref h p = Ok n -> index (nexts n) i = Ok q -> tall h p i.
Proof.
  intros Hd Hi. destruct p as [a | ]; [ | discriminate]. simpl in Hd.
  destruct (h !! a) as [n' | ] eqn:Ha; [ | discriminate].
  injection Hd as ->. apply index_Ok in Hi. apply lookup_lt_Some in Hi.
  exists a, n. auto.
Qed.

Lemma walk_tall h head tail (rb : ptr) k (layer : nat) :
  forall (fuel : nat) (cur next c x : ptr),
    tall h cur layer ->
    walk fuel h head tail rb k layer cur next = Ok (c, x) ->
    tall h c layer.
Proof.
  induction fuel as [ | fuel IH]; intros cur next c x Hcur H; simpl in H.
  - destruct (ptr_eqb next rb); [ | discriminate]. now injection H as <- _.
  - destruct (ptr_eqb next rb); [now injection H as <- _ | ].
    apply bind_Ok in H as (c1 & _ & H).
    apply bind_Ok in H as (c2 & _ & H).
    destruct c2; [now injection H as <- _ | ].
    apply bind_Ok in H as (n & Hn & H).
    apply bind_Ok in H as (next' & Hnext' & H).
    eapply IH; [ | exact H]. eapply tall_of_reads; eauto.
Qed.

Lemma narrowDownBound_tall h head tail (lb rb : ptr) k (layer : nat)
  (c x : ptr) :
  narrowDownBound h head tail lb rb k layer = Ok (c, x) -> tall h c layer.
Proof.
  unfold narrowDownBound. intros H.
  apply bind_Ok in H as (n & Hn & H).
  apply bind_Ok in H as (next & Hnext & H).
  eapply walk_tall; [ | exact H]. eapply tall_of_reads; eauto.
Qed.

Lemma descend_tall h head tail k :
  forall (i : nat) (lbs rbs lbs' rbs' : list ptr),
    descend h head tail k i lbs rbs = Ok (lbs', rbs') ->
    length lbs' = length lbs /\ length rbs' = length rbs
    /\ (forall j : nat, (i < j)%nat ->
          lbs' !! j = lbs !! j /\ rbs' !! j = rbs !! j)
    /\ (forall j : nat, (j <= i)%nat ->
          exists p, lbs' !! j = Some p /\ tall h p j).
Proof.
  induction i as [ | i IH]; intros lbs rbs lbs' rbs' H; simpl in H;
    apply bind_Ok in H as (l & Hl & H);
    apply bind_Ok in H as (r & Hr & H);
    apply bind_Ok in H as ([cur next] & Hn & H);
    apply narrowDownBound_tall in Hn;
    apply bind_Ok in H as (lbs1 & H1 & H);
    apply bind_Ok in H as (rbs1 & H2 & H);
    apply store_Ok in H1 as [Hlt1 ->];
    apply store_Ok in H2 as [Hlt2 ->].
  - injection H as <- <-. rewrite !length_insert.
    split; [reflexivity | ]. split; [reflexivity | ]. split.
    + intros j Hj. split; apply list_lookup_insert_ne; lia.
    + intros j Hj. assert (j = 0%nat) as -> by lia. exists cur.
      split; [now apply list_lookup_insert_eq | assumption].
  - apply bind_Ok in H as (lbs2 & H3 & H).
    apply bind_Ok in H as (rbs2 & H4 & H).
    apply store_Ok in H3 as [Hlt3 ->].
    apply store_Ok in H4 as [Hlt4 ->].
    destruct (IH _ _ _ _ H) as (Hlen1 & Hlen2 & Hup & Hlow).
    rewrite !length_insert in *.
    split; [assumption | ]. split; [assumption | ]. split.
    + intros j Hj. destruct (Hup j ltac:(lia)) as [-> ->].
      rewrite !list_lookup_insert_ne by lia. split; reflexivity.
    + intros j Hj. destruct (decide (j = S i)) as [-> | Hne].
      * exists cur. split; [ | assumption].
        destruct (Hup (S i) ltac:(lia)) as [-> _].
        rewrite list_lookup_insert_ne by lia.
        now apply list_lookup_insert_eq.
      * apply Hlow. lia.
Qed.

Lemma initBound_lookup (p : ptr) (j : nat) :
  (j < maxHeight)%nat -> initBound p !! j = Some p.
Proof. intros Hj. unfold initBound. now apply lookup_replicate_2. Qed.

Lemma searchBoundsIn_tall h head tail (empty : bool) k (lb rb : list ptr) :
  (empty = true -> tall h head (maxHeight - 1)) ->
  searchBoundsIn h head tail empty k = Ok (lb, rb) ->
  length lb = maxHeight /\ length rb = maxHeight
  /\ (forall j : nat, (j < maxHeight)%nat ->
        exists p, lb !! j = Some p /\ tall h p j).
Proof.
  intros Hhead H. unfold searchBoundsIn in H. destruct empty.
  - injection H as <- <-. unfold initBound. rewrite !length_replicate.
    split; [reflexivity | ]. split; [reflexivity | ].
    intros j Hj. exists head. split; [now apply initBound_lookup | ].
    destruct (Hhead eq_refl) as (a & n & -> & Ha & Hn).
    exists a, n. repeat split; try assumption. lia.
  - apply bind_Ok in H as (lbs & H1 & H). apply store_Ok in H1 as [_ ->].
    apply bind_Ok in H as (hd & _ & H).
    apply bind_Ok in H as (top & _ & H).
    apply bind_Ok in H as (rbs & H2 & H). apply store_Ok in H2 as [_ ->].
    apply bind_Ok in H as ([lbs' rbs'] & Hd & H).
    apply descend_tall in Hd as (Hlen1 & Hlen2 & _ & Hlow).
    rewrite length_insert in Hlen1, Hlen2.
    unfold initBound in Hlen1, Hlen2. rewrite length_replicate in Hlen1, Hlen2.
    apply bind_Ok in H as (l & _ & H).
    apply bind_Ok in H as (r & _ & H).
    apply bind_Ok in H as ([cur next] & Hn & H).
    apply narrowDownBound_tall in Hn.
    apply bind_Ok in H as (lbs2 & H3 & H). apply store_Ok in H3 as [Hlt3 ->].
    apply bind_Ok in H as (rbs2 & H4 & H). apply store_Ok in H4 as [Hlt4 ->].
    injection H as <- <-. rewrite !length_insert.
    split; [assumption | ]. split; [assumption | ].
    intros j Hj. destruct (decide (j = 0%nat)) as [-> | Hne].
    + exists cur. split; [now apply list_lookup_insert_eq | assumption].
    + rewrite list_lookup_insert_ne by lia. apply Hlow.
      unfold maxHeight in *. lia.
Qed.

(** *** Linking changes links only *)

Definition sameFrame (h h' : heap V) : Prop :=
  Forall2 (fun n n' => key n = key n' /\ val n = val n'
                       /\ length (nexts n) = length (nexts n')) h h'.

Lemma sameFrame_refl h : sameFrame h h.
Proof. apply Forall_Forall2_diag, Forall_forall. auto. Qed.

Lemma sameFrame_trans h1 h2 h3 :
  sameFrame h1 h2 -> sameFrame h2 h3 -> sameFrame h1 h3.
Proof.
  intros H12 H23. eapply Forall2_trans; [ | exact H12 | exact H23].
  intros x y z (? & ? & ?) (? & ? & ?). repeat split; congruence.
Qed.

Lemma sameFrame_lookup h h' (a : nat) (n : node V) :
  sameFrame h h' -> h !! a = Some n ->
  exists n', h' !! a = Some n' /\ key n' = key n /\ val n' = val n
             /\ length (nexts n') = length (nexts n).
Proof.
  intros Hf Ha. destruct (Forall2_lookup_l _ _ _ _ _ Hf Ha)
    as (n' & Ha' & Hk & Hv & Hl).
  exists n'. auto.
Qed.

Lemma sameFrame_tall h h' (p : ptr) (i : nat) :
  sameFrame h h' -> tall h p i -> tall h' p i.
Proof.
  intros Hf (a & n & -> & Ha & Hi).
  destruct (sameFrame_lookup _ _ _ _ Hf Ha) as (n' & Ha' & _ & _ & Hl).
  exists a, n'. repeat split; try assumption. lia.
Qed.

Lemma setNext_tall h (p q : ptr) (i : nat) :
  tall h p i -> exists h', setNext h p i q = Ok h' /\ sameFrame h h'.
Proof.
  intros (a & n & -> & Ha & Hi). unfold setNext. simpl. rewrite Ha. simpl.
  unfold store. destruct (Nat.ltb_spec i (length (nexts n))); [ | lia].
  simpl. eexists. split; [reflexivity | ].
  apply Forall2_same_length_lookup. split; [now rewrite length_insert | ].
  intros j x y Hx Hy. destruct (decide (j = a)) as [-> | Hne].
  - rewrite list_lookup_insert_eq in Hy by (now apply lookup_lt_Some in Ha).
    injection Hy as <-. rewrite Ha in Hx. injection Hx as <-. simpl.
    now rewrite length_insert.
  - rewrite list_lookup_insert_ne in Hy by congruence.
    rewrite Hx in Hy. injection Hy as <-. auto.
Qed.

Lemma splice_tall (nd : ptr) (lb rb : list ptr) :
  forall (todo i : nat) h,
    (forall j : nat, (i <= j < i + todo)%nat ->
       exists p, lb !! j = Some p /\ tall h p j) ->
    (i + todo <= length rb)%nat ->
    (forall j : nat, (i <= j < i + todo)%nat -> tall h nd j) ->
    exists h', splice todo i h nd lb rb = Ok h' /\ sameFrame h h'.
Proof.
  induction todo as [ | todo IH]; intros i h Hlb Hrb Hnd; simpl.
  - exists h. split; [reflexivity | apply sameFrame_refl].
  - destruct (Hlb i ltac:(lia)) as (l & Hl & Htl).
    apply index_Ok in Hl. rewrite Hl. cbn [bind].
    destruct (setNext_tall h l nd i Htl) as (h1 & -> & Hf1). cbn [bind].
    destruct (lookup_lt_is_Some_2 rb i ltac:(lia)) as [r Hr].
    apply index_Ok in Hr. rewrite Hr. cbn [bind].
    destruct (setNext_tall h1 nd r i
                (sameFrame_tall _ _ _ _ Hf1 (Hnd i ltac:(lia))))
      as (h2 & -> & Hf2). cbn [bind].
    pose proof (sameFrame_trans _ _ _ Hf1 Hf2) as Hf.
    destruct (IH (S i) h2) as (h' & Hs & Hf').
    + intros j Hj. destruct (Hlb j ltac:(lia)) as (p & Hp & Htp).
      exists p. split; [assumption | now apply (sameFrame_tall h)].
    + lia.
    + intros j Hj. apply (sameFrame_tall h); [assumption | ].
      apply Hnd. lia.
    + exists h'. split; [assumption | ].
      now apply (sameFrame_trans _ h2).
Qed.

(** The whole insert: allocation and splice succeed whenever the bounds
    come from a search, and leave the old nodes' keys and values alone. *)
Lemma insert_succeeds h (lb rb : list ptr) (k : string) (v : option V)
  (layerNum : nat) :
  (layerNum <= maxHeight)%nat ->
  length rb = maxHeight ->
  (forall j : nat, (j < maxHeight)%nat ->
     exists p, lb !! j = Some p /\ tall h p j) ->
  exists h' n',
    splice layerNum 0 (h ++ [newNode k v layerNum]) (Some (length h)) lb rb
    = Ok h'
    /\ length h' = S (length h)
    /\ h' !! length h = Some n'
    /\ key n' = k /\ val n' = v /\ length (nexts n') = layerNum
    /\ (forall a n, h !! a = Some n ->
          exists m, h' !! a = Some m /\ key m = key n /\ val m = val n).
Proof.
  intros Hle Hrb Hlb.
  assert (Hgrow : forall p j, tall h p j ->
                    tall (h ++ [newNode k v layerNum]) p j).
  { intros p j (a & n & -> & Ha & Hj). exists a, n.
    repeat split; try assumption. now apply lookup_app_l_Some. }
  destruct (splice_tall (Some (length h)) lb rb layerNum 0
              (h ++ [newNode k v layerNum])) as (h' & Hs & Hf).
  - intros j Hj. destruct (Hlb j ltac:(lia)) as (p & Hp & Htp).
    exists p. split; [assumption | now apply Hgrow].
  - lia.
  - intros j Hj. exists (length h), (newNode k v layerNum).
    repeat split.
    + rewrite lookup_app_r by lia. now rewrite Nat.sub_diag.
    + simpl. rewrite length_replicate. lia.
  - assert (Hnew : (h ++ [newNode k v layerNum]) !! length h
                   = Some (newNode k v layerNum)).
    { rewrite lookup_app_r by lia. now rewrite Nat.sub_diag. }
    destruct (sameFrame_lookup _ _ _ _ Hf Hnew) as (n' & Hn' & Hk & Hv & Hl).
    exists h', n'. split; [assumption | ].
    split.
    { rewrite <- (Forall2_length _ _ _ Hf), length_app. simpl. lia. }
    split; [assumption | ].
    split; [assumption | ]. split; [assumption | ].
    split; [simpl in Hl; now rewrite length_replicate in Hl | ].
    intros a n Ha.
    assert (Ha' : (h ++ [newNode k v layerNum]) !! a = Some n)
      by now apply lookup_app_l_Some.
    destruct (sameFrame_lookup _ _ _ _ Hf Ha') as (m & Hm & Hkm & Hvm & _).
    exists m. auto.
Qed.

(** *** Links, one at a time

    [link h a j] is the link of the node at address [a] at layer [j], when
    there is such a node and it has such a layer. *)

Definition link (h : heap V) (a j : nat) : option ptr :=
  match h !! a with
  | Some n => nexts n !! j
  | None => None
  end.

Lemma setNext_spec h (p q : ptr) (i : nat) h' :
  setNext h p i q = Ok h' ->
  exists a n,
    p = Some a /\ h !! a = Some n /\ (i < length (nexts n))%nat
    /\ h' = <[a := mkNode (<[i := q]> (nexts n)) (key n) (val n)]> h.
Proof.
  unfold setNext. intros H. apply bind_Ok in H as (n & Hn & H).
  apply bind_Ok in H as (nx & Hnx & H). apply store_Ok in Hnx as [Hi ->].
  destruct p as [a | ]; [ | discriminate]. simpl in Hn.
  destruct (h !! a) as [n' | ] eqn:Ha; [ | discriminate].
  injection Hn as ->. injection H as <-. exists a, n. auto.
Qed.

Lemma link_setNext h (p q : ptr) (i : nat) h' :
  setNext h p i q = Ok h' ->
  length h' = length h
  /\ forall a j,
       link h' a j
       = if decide (p = Some a /\ j = i) then Some q else link h a j.
Proof.
  intros H. apply setNext_spec in H as (b & n & -> & Hb & Hi & ->).
  split; [apply length_insert | ]. intros a j. unfold link.
  pose proof (lookup_lt_Some _ _ _ Hb) as Hlt.
  destruct (decide (a = b)) as [-> | Hne].
  - rewrite list_lookup_insert_eq by assumption. simpl. rewrite Hb.
    destruct (decide (j = i)) as [-> | Hji].
    + rewrite decide_True by auto. now apply list_lookup_insert_eq.
    + rewrite decide_False by (intros [_ ?]; contradiction).
      now apply list_lookup_insert_ne.
  - rewrite list_lookup_insert_ne by congruence.
    rewrite decide_False by (intros [[= ?] _]; congruence). reflexivity.
Qed.

(** The links after the splice loop has run over layers [i .. i+todo-1]:
    at these layers the new node points to the right bounds and the left
    bounds point to the new node; every other link is as before. *)
Lemma splice_link (b : nat) (lb rb : list ptr) :
  forall (todo i : nat) h h',
    splice todo i h (Some b) lb rb = Ok h' ->
    (forall j : nat, (i <= j < i + todo)%nat -> lb !! j <> Some (Some b)) ->
    length h' = length h
    /\ (forall a j : nat,
          (i <= j < i + todo)%nat ->
          link h' a j
          = if decide (a = b) then rb !! j
            else if decide (lb !! j = Some (Some a)) then Some (Some b)
                 else link h a j)
    /\ (forall a j : nat,
          ~ (i <= j < i + todo)%nat -> link h' a j = link h a j).
Proof.
  induction todo as [ | todo IH]; intros i h h' H Hlb; simpl in H.
  - injection H as <-. split; [reflexivity | ].
    split; [intros a j Hj; lia | reflexivity].
  - apply bind_Ok in H as (l & Hl & H). apply index_Ok in Hl.
    apply bind_Ok in H as (h1 & H1 & H).
    apply bind_Ok in H as (r & Hr & H). apply index_Ok in Hr.
    apply bind_Ok in H as (h2 & H2 & H).
    apply link_setNext in H1 as (Hlen1 & Hlink1).
    apply link_setNext in H2 as (Hlen2 & Hlink2).
    destruct (IH (S i) h2 h' H) as (Hlen & Hin & Hout).
    { intros j Hj. apply Hlb. lia. }
    assert (Hstep : forall a j,
      link h2 a j
      = if decide (j = i)
        then if decide (a = b) then Some r
             else if decide (l = Some a) then Some (Some b) else link h a j
        else link h a j).
    { intros a j. rewrite Hlink2, Hlink1.
      destruct (decide (j = i)) as [-> | Hji].
      - destruct (decide (a = b)) as [-> | Hab].
        + rewrite decide_True by auto. reflexivity.
        + rewrite decide_False by (intros [[= ?] _]; congruence).
          destruct (decide (l = Some a)) as [-> | Hla].
          * rewrite decide_True by auto. reflexivity.
          * rewrite decide_False by (intros [? _]; contradiction).
            reflexivity.
      - rewrite !decide_False by (intros [_ ?]; contradiction).
        reflexivity. }
    split; [congruence | ]. split.
    + intros a j Hj. destruct (decide (j = i)) as [-> | Hji].
      * rewrite Hout by lia. rewrite Hstep.
        rewrite (decide_True (P := i = i)) by reflexivity.
        rewrite Hr, Hl.
        destruct (decide (a = b)); [reflexivity | ].
        destruct (decide (l = Some a)) as [-> | Hla].
        -- now rewrite decide_True.
        -- rewrite decide_False by congruence. reflexivity.
      * rewrite Hin by lia. rewrite Hstep.
        rewrite (decide_False (P := j = i)) by assumption. reflexivity.
    + intros a j Hj. rewrite Hout by lia. rewrite Hstep.
      rewrite (decide_False (P := j = i)) by lia. reflexivity.
Qed.

(** *** The bounds of a search are neighbours

    In a heap whose links all lead to nodes, except those of the tail,
    which are nil, a search that returns gives for every layer a left bound
    that is not the tail and a right bound that is the left bound's link at
    that layer. *)

Definition linked (h : heap V) (t : nat) : Prop :=
  forall a j q, a <> t -> link h a j = Some q ->
                exists b, q = Some b /\ (b < length h)%nat.

Definition tailNil (h : heap V) (t : nat) : Prop :=
  forall j q, link h t j = Some q -> q = None.

Definition neighbours (h : heap V) (t : nat) (j : nat) (l r : ptr) : Prop :=
  exists a, l = Some a /\ a <> t /\ link h a j = Some r.

Lemma link_of_reads h (a : nat) (n : node V) (j : nat) (q : ptr) :
  deref h (Some a) = Ok n -> index (nexts n) j = Ok q -> link h a j = Some q.
Proof.
  simpl. intros Hd Hi. unfold link.
  destruct (h !! a) as [n' | ]; [ | discriminate].
  injection Hd as ->. now apply index_Ok.
Qed.

Lemma walk_neighbours h head (t : nat) (rb : ptr) k (layer : nat) :
  tailNil h t -> rb <> None ->
  forall (fuel : nat) (cur next c x : ptr),
    neighbours h t layer cur next ->
    walk fuel h head (Some t) rb k layer cur next = Ok (c, x) ->
    neighbours h t layer c x.
Proof.
  intros Htail Hrb.
  induction fuel as [ | fuel IH]; intros cur next c x Hn H; simpl in H.
  - destruct (ptr_eqb next rb); [ | discriminate]. now injection H as <- <-.
  - destruct (ptr_eqb next rb) eqn:E; [now injection H as <- <- | ].
    apply bind_Ok in H as (c1 & _ & H).
    apply bind_Ok in H as (c2 & _ & H).
    destruct c2; [now injection H as <- <- | ].
    apply bind_Ok in H as (n & Hd & H).
    apply bind_Ok in H as (next' & Hi & H).
    destruct next as [a' | ]; [ | discriminate].
    pose proof (link_of_reads _ _ _ _ _ Hd Hi) as Hlink.
    apply (IH (Some a') next'); [ | exact H].
    exists a'. split; [reflexivity | ]. split; [ | assumption].
    intros ->. pose proof (Htail _ _ Hlink) as ->.
    clear IH. destruct rb as [r | ]; [ | contradiction].
    destruct fuel as [ | fuel]; cbn [walk ptr_eqb] in H; [discriminate | ].
    apply bind_Ok in H as (c1' & _ & H).
    apply bind_Ok in H as (c2' & Hc2 & H).
    destruct c1'; simpl in Hc2; [discriminate | ].
    injection Hc2 as <-. simpl in H. discriminate.
Qed.

Lemma narrowDownBound_neighbours h head (t : nat) (l r : ptr) k (layer : nat)
  (c x : ptr) :
  tailNil h t -> r <> None -> l <> Some t ->
  narrowDownBound h head (Some t) l r k layer = Ok (c, x) ->
  neighbours h t layer c x.
Proof.
  intros Htail Hr Hl H. unfold narrowDownBound in H.
  apply bind_Ok in H as (n & Hd & H).
  apply bind_Ok in H as (next & Hi & H).
  destruct l as [a | ]; [ | discriminate].
  eapply walk_neighbours; [eassumption | eassumption | | exact H].
  exists a. split; [reflexivity | ]. split; [congruence | ].
  eapply link_of_reads; eauto.
Qed.

Lemma neighbours_right h (t j : nat) (l r : ptr) :
  linked h t -> neighbours h t j l r -> r <> None /\ l <> Some t.
Proof.
  intros Hl (a & -> & Hat & Hlink).
  destruct (Hl _ _ _ Hat Hlink) as (b & -> & _).
  split; [discriminate | congruence].
Qed.

Lemma descend_neighbours h head (t : nat) k :
  linked h t -> tailNil h t ->
  forall (i : nat) (lbs rbs lbs' rbs' : list ptr) (l r : ptr),
    lbs !! i = Some l -> l <> Some t ->
    rbs !! i = Some r -> r <> None ->
    descend h head (Some t) k i lbs rbs = Ok (lbs', rbs') ->
    length lbs' = length lbs /\ length rbs' = length rbs
    /\ (forall j : nat, (j <= i)%nat ->
          exists l' r', lbs' !! j = Some l' /\ rbs' !! j = Some r'
                        /\ neighbours h t j l' r').
Proof.
  intros Hlinked Htail.
  induction i as [ | i IH]; intros lbs rbs lbs' rbs' l r Hl Hlt Hr Hrn H;
    simpl in H;
    apply index_Ok in Hl; apply index_Ok in Hr;
    rewrite Hl, Hr in H; cbn [bind] in H;
    apply bind_Ok in H as ([cur next] & Hn & H);
    apply (narrowDownBound_neighbours _ _ _ _ _ _ _ _ _ Htail Hrn Hlt) in Hn;
    apply bind_Ok in H as (lbs1 & H1 & H);
    apply bind_Ok in H as (rbs1 & H2 & H);
    apply store_Ok in H1 as [Hlt1 ->];
    apply store_Ok in H2 as [Hlt2 ->].
  - injection H as <- <-. rewrite !length_insert.
    split; [reflexivity | ]. split; [reflexivity | ].
    intros j Hj. assert (j = 0%nat) as -> by lia. exists cur, next.
    split; [now apply list_lookup_insert_eq | ].
    split; [now apply list_lookup_insert_eq | assumption].
  - apply bind_Ok in H as (lbs2 & H3 & H).
    apply bind_Ok in H as (rbs2 & H4 & H).
    apply store_Ok in H3 as [Hlt3 ->].
    apply store_Ok in H4 as [Hlt4 ->].
    destruct (neighbours_right _ _ _ _ _ Hlinked Hn) as (Hnext & Hcur).
    pose proof (descend_tall h head (Some t) k i _ _ _ _ H)
      as (_ & _ & Hup & _).
    destruct (IH _ _ _ _ cur next
                (list_lookup_insert_eq _ _ _ Hlt3) Hcur
                (list_lookup_insert_eq _ _ _ Hlt4) Hnext H)
      as (Hlen1 & Hlen2 & Hlow).
    rewrite !length_insert in *.
    split; [assumption | ]. split; [assumption | ].
    intros j Hj. destruct (decide (j = S i)) as [-> | Hne];
      [ | apply Hlow; lia].
    destruct (Hup (S i) ltac:(lia)) as [E1 E2].
    exists cur, next. split; [ | split; [ | assumption]].
    + rewrite E1. rewrite list_lookup_insert_ne by lia.
      now apply list_lookup_insert_eq.
    + rewrite E2. rewrite list_lookup_insert_ne by lia.
      now apply list_lookup_insert_eq.
Qed.

Lemma searchBoundsIn_neighbours h (hd t : nat) (empty : bool) k
  (lb rb : list ptr) :
  hd <> t -> linked h t -> tailNil h t ->
  (empty = true ->
   forall j : nat, (j < maxHeight)%nat -> link h hd j = Some (Some t)) ->
  searchBoundsIn h (Some hd) (Some t) empty k = Ok (lb, rb) ->
  length lb = maxHeight /\ length rb = maxHeight
  /\ (forall j : nat, (j < maxHeight)%nat ->
        exists l r, lb !! j = Some l /\ rb !! j = Some r
                    /\ neighbours h t j l r).
Proof.
  intros Hne Hlinked Htail Hempty H. unfold searchBoundsIn in H.
  destruct empty.
  - injection H as <- <-. unfold initBound. rewrite !length_replicate.
    split; [reflexivity | ]. split; [reflexivity | ].
    intros j Hj. exists (Some hd), (Some t).
    split; [now apply initBound_lookup | ].
    split; [now apply initBound_lookup | ].
    exists hd. auto.
  - apply bind_Ok in H as (lbs & H1 & H). apply store_Ok in H1 as [Hl1 ->].
    apply bind_Ok in H as (n & Hd & H).
    apply bind_Ok in H as (top & Htop & H).
    apply bind_Ok in H as (rbs & H2 & H). apply store_Ok in H2 as [Hl2 ->].
    apply bind_Ok in H as ([lbs' rbs'] & Hdesc & H).
    pose proof (link_of_reads _ _ _ _ _ Hd Htop) as Hlink.
    destruct (Hlinked _ _ _ Hne Hlink) as (b & -> & _).
    apply (descend_neighbours h (Some hd) t k Hlinked Htail _ _ _ _ _
             (Some hd) (Some b)
             (list_lookup_insert_eq _ _ _ Hl1) ltac:(congruence)
             (list_lookup_insert_eq _ _ _ Hl2) ltac:(discriminate))
      in Hdesc as (Hlen1 & Hlen2 & Hlow).
    rewrite length_insert in Hlen1, Hlen2.
    unfold initBound in Hlen1, Hlen2. rewrite length_replicate in Hlen1, Hlen2.
    apply bind_Ok in H as (l & Hl & H). apply index_Ok in Hl.
    apply bind_Ok in H as (r & Hr & H). apply index_Ok in Hr.
    apply bind_Ok in H as ([cur next] & Hn & H).
    destruct (Hlow 0%nat ltac:(lia)) as (l0 & r0 & Hl0 & Hr0 & Hn0).
    rewrite Hl in Hl0. injection Hl0 as <-.
    rewrite Hr in Hr0. injection Hr0 as <-.
    destruct (neighbours_right _ _ _ _ _ Hlinked Hn0) as (Hrn & Hlt).
    apply (narrowDownBound_neighbours _ _ _ _ _ _ _ _ _ Htail Hrn Hlt) in Hn.
    apply bind_Ok in H as (lbs2 & H3 & H). apply store_Ok in H3 as [Hlt3 ->].
    apply bind_Ok in H as (rbs2 & H4 & H). apply store_Ok in H4 as [Hlt4 ->].
    injection H as <- <-. rewrite !length_insert.
    split; [assumption | ]. split; [assumption | ].
    intros j Hj. destruct (decide (j = 0%nat)) as [-> | Hj0].
    + exists cur, next. split; [now apply list_lookup_insert_eq | ].
      split; [now apply list_lookup_insert_eq | assumption].
    + rewrite !list_lookup_insert_ne by lia. apply Hlow.
      unfold maxHeight in *. lia.
Qed.

Lemma splice_sameFrame (nd : ptr) (lb rb : list ptr) :
  forall (todo i : nat) h h',
    splice todo i h nd lb rb = Ok h' -> sameFrame h h'.
Proof.
  induction todo as [ | todo IH]; intros i h h' H; simpl in H.
  - injection H as <-. apply sameFrame_refl.
  - apply bind_Ok in H as (l & _ & H).
    apply bind_Ok in H as (h1 & H1 & H).
    apply bind_Ok in H as (r & _ & H).
    apply bind_Ok in H as (h2 & H2 & H).
    assert (Hstep : forall h0 p q h0',
              setNext h0 p i q = Ok h0' -> sameFrame h0 h0').
    { intros h0 p q h0' Hs.
      pose proof Hs as Hs'. apply setNext_spec in Hs' as (a & n & -> & Ha & Hi & _).
      destruct (setNext_tall h0 (Some a) q i) as (h0'' & E & Hf).
      - exists a, n. auto.
      - congruence. }
    eapply sameFrame_trans; [exact (Hstep _ _ _ _ H1) | ].
    eapply sameFrame_trans; [exact (Hstep _ _ _ _ H2) | ].
    exact (IH _ _ _ H).
Qed.

Lemma link_Some h (a j : nat) (q : ptr) :
  link h a j = Some q <-> exists n, h !! a = Some n /\ nexts n !! j = Some q.
Proof.
  unfold link. destruct (h !! a) as [n | ]; split.
  - intros H. exists n. auto.
  - intros (n' & [= <-] & H). exact H.
  - discriminate.
  - intros (n' & H & _). discriminate.
Qed.

Lemma link_lt h (a j : nat) (q : ptr) :
  link h a j = Some q -> (a < length h)%nat.
Proof.
  intros H. apply link_Some in H as (n & Ha & _).
  now apply lookup_lt_Some in Ha.
Qed.

Lemma link_app_l h (n : node V) (a j : nat) :
  (a < length h)%nat -> link (h ++ [n]) a j = link h a j.
Proof. intros Ha. unfold link. now rewrite lookup_app_l. Qed.

Lemma link_app_new h (n : node V) (j : nat) :
  link (h ++ [n]) (length h) j = nexts n !! j.
Proof.
  unfold link. rewrite lookup_app_r by lia. now rewrite Nat.sub_diag.
Qed.

Lemma link_setVal h (a : nat) (n : node V) (v : option V) (a' j : nat) :
  h !! a = Some n ->
  link (<[a := mkNode (nexts n) (key n) v]> h) a' j = link h a' j.
Proof.
  intros Ha. unfold link. destruct (decide (a' = a)) as [-> | Hne].
  - rewrite list_lookup_insert_eq by now apply lookup_lt_Some in Ha.
    now rewrite Ha.
  - now rewrite list_lookup_insert_ne by congruence.
Qed.

End SearchFacts.

(** ** Searches return

    A search walks forward along one layer and steps down to the next.
    It ends when the links of every layer run forward ([rank] grows along
    each link), a linked node has the layer it is linked at, and the
    layers are nested: the link of a node at layer [j + 1] is reached from
    the same node along layer [j]. *)

Section Levels.

Context {V : Type}.
Implicit Types (h : heap V) (k : string).

(** [steps h j a b]: the links of layer [j] lead from [a] to [b]. *)
Inductive steps (h : heap V) (j : nat) : nat -> nat -> Prop :=
| steps_here (a : nat) : steps h j a a
| steps_next (a c b : nat) :
    link h a j = Some (Some c) -> steps h j c b -> steps h j a b.

Lemma steps_trans h (j a b c : nat) :
  steps h j a b -> steps h j b c -> steps h j a c.
Proof.
  induction 1 as [ | a x b Hl _ IH]; [auto | ].
  intros Hbc. eapply steps_next; eauto.
Qed.

(** The layers of a heap are in order: a rank grows along every link, a
    node that a link of layer [j] leads to has a link of that layer, and
    the link of layer [j+1] of a node leads to a node that its links of
    layer [j] lead to as well. *)
Record levels (h : heap V) (rank : nat -> nat) : Prop := mkLevels {
  lv_rank : forall a j c, link h a j = Some (Some c) ->
                          (rank a < rank c)%nat;
  lv_bound : forall a, (rank a <= length h)%nat;
  lv_tall : forall a j c, link h a j = Some (Some c) ->
                          is_Some (link h c j);
  lv_nest : forall a j c, link h a (S j) = Some (Some c) ->
                          exists c0, link h a j = Some (Some c0)
                                     /\ steps h j c0 c
}.

Lemma steps_rank h rank (j a b : nat) :
  levels h rank -> steps h j a b -> (rank a <= rank b)%nat.
Proof.
  intros Hlv. induction 1 as [ | a c b Hl _ IH]; [lia | ].
  pose proof (lv_rank h rank Hlv _ _ _ Hl). lia.
Qed.

Lemma deref_link h (a j : nat) (q : ptr) :
  link h a j = Some q ->
  exists n, deref h (Some a) = Ok n /\ index (nexts n) j = Ok q.
Proof.
  intros Hl. apply link_Some in Hl as (n & Ha & Hq). exists n.
  cbn [deref]. rewrite Ha. split; [reflexivity | now apply index_Ok].
Qed.

Lemma ptr_eqb_Some (a b : nat) : ptr_eqb (Some a) (Some b) = (a =? b)%nat.
Proof. reflexivity. Qed.

(** The loop of [narrowDownBound] leaves: it is entered between two nodes
    of which the second leads to the right bound. *)
Lemma walk_returns h rank (hd t rb : nat) k (j : nat) :
  levels h rank -> tailNil h t ->
  forall (fuel cur next : nat),
    link h cur j = Some (Some next) ->
    cur <> t ->
    steps h j next rb ->
    (rank rb - rank next <= fuel)%nat ->
    exists c x,
      walk fuel h (Some hd) (Some t) (Some rb) k j (Some cur) (Some next)
      = Ok (Some c, Some x)
      /\ link h c j = Some (Some x) /\ c <> t
      /\ steps h j cur c /\ steps h j x rb.
Proof.
  intros Hlv Htail.
  induction fuel as [ | fuel IH]; intros cur next Hl Hcur Hst Hfuel.
  - assert (next = rb) as ->.
    { inversion Hst as [ | a c b Hl' Hst']; subst; [reflexivity | ].
      pose proof (lv_rank h rank Hlv _ _ _ Hl').
      pose proof (steps_rank h rank _ _ _ Hlv Hst'). lia. }
    exists cur, rb. cbn [walk]. rewrite ptr_eqb_Some, Nat.eqb_refl.
    split; [reflexivity | ]. split; [assumption | ].
    split; [assumption | ]. split; constructor.
  - cbn [walk]. rewrite ptr_eqb_Some.
    destruct (Nat.eqb_spec next rb) as [-> | Hne].
    + exists cur, rb. split; [reflexivity | ]. split; [assumption | ].
      split; [assumption | ]. split; constructor.
    + inversion Hst as [ | a c b Hl' Hst']; subst; [contradiction | ].
      assert (Hnt : next <> t).
      { intros ->. now pose proof (Htail _ _ Hl'). }
      destruct (deref_link _ _ _ _ Hl) as (nc & Hdc & _).
      destruct (deref_link _ _ _ _ Hl') as (nn & Hdn & Hin).
      assert (Hstop : exists c x,
                Ok (Some cur, Some next) = Ok (Some c, Some x)
                /\ link h c j = Some (Some x) /\ c <> t
                /\ steps h j cur c /\ steps h j x rb).
      { exists cur, next. split; [reflexivity | ]. split; [assumption | ].
        split; [assumption | ]. split; [constructor | assumption]. }
      rewrite Hdc, Hdn. cbn [bind].
      assert (Et : ptr_eqb (Some next) (Some t) = false).
      { rewrite ptr_eqb_Some. now apply Nat.eqb_neq. }
      rewrite Et.
      destruct (ptr_eqb (Some cur) (Some hd)); cbn [bind].
      * destruct (String.leb k (key nn)); [exact Hstop | ].
        rewrite Hin. cbn [bind].
        destruct (IH next c Hl' Hnt Hst') as (c' & x & E & H1 & H2 & H3 & H4).
        { pose proof (lv_rank h rank Hlv _ _ _ Hl'). lia. }
        exists c', x. split; [exact E | ]. split; [assumption | ].
        split; [assumption | ]. split; [ | assumption].
        eapply steps_next; eauto.
      * destruct (String.leb (key nc) k); cbn [bind].
        -- destruct (String.leb k (key nn)); [exact Hstop | ].
           rewrite Hin. cbn [bind].
           destruct (IH next c Hl' Hnt Hst')
             as (c' & x & E & H1 & H2 & H3 & H4).
           { pose proof (lv_rank h rank Hlv _ _ _ Hl'). lia. }
           exists c', x. split; [exact E | ]. split; [assumption | ].
           split; [assumption | ]. split; [ | assumption].
           eapply steps_next; eauto.
        -- rewrite Hin. cbn [bind].
           destruct (IH next c Hl' Hnt Hst')
             as (c' & x & E & H1 & H2 & H3 & H4).
           { pose proof (lv_rank h rank Hlv _ _ _ Hl'). lia. }
           exists c', x. split; [exact E | ]. split; [assumption | ].
           split; [assumption | ]. split; [ | assumption].
           eapply steps_next; eauto.
Qed.

Lemma narrowDownBound_returns h rank (hd t l r : nat) k (j : nat) (n0 : nat) :
  levels h rank -> tailNil h t ->
  l <> t ->
  link h l j = Some (Some n0) ->
  steps h j n0 r ->
  exists c x,
    narrowDownBound h (Some hd) (Some t) (Some l) (Some r) k j
    = Ok (Some c, Some x)
    /\ link h c j = Some (Some x) /\ c <> t
    /\ steps h j l c /\ steps h j x r.
Proof.
  intros Hlv Htail Hl Hlink Hst. unfold narrowDownBound.
  destruct (deref_link _ _ _ _ Hlink) as (n & Hd & Hi).
  rewrite Hd. cbn [bind]. rewrite Hi. cbn [bind].
  apply (walk_returns h rank hd t r k j Hlv Htail); try assumption.
  pose proof (lv_bound h rank Hlv r). lia.
Qed.


Lemma narrowDownBound_neighbour h (hd t l r : nat) k (j : nat) :
  link h l j = Some (Some r) ->
  narrowDownBound h (Some hd) (Some t) (Some l) (Some r) k j
  = Ok (Some l, Some r).
Proof.
  intros Hlink. unfold narrowDownBound.
  destruct (deref_link _ _ _ _ Hlink) as (n & Hd & Hi).
  rewrite Hd. cbn [bind]. rewrite Hi. cbn [bind].
  destruct (length h); cbn [walk]; now rewrite ptr_eqb_Some, Nat.eqb_refl.
Qed.

(** The bounds that a search returns, layer by layer: [L j] and [R j] are
    neighbours in layer [j], the left bounds of the layers below are
    reached from those above, and the right bounds above from those
    below. *)
Definition ladder (h : heap V) (t : nat) (top : nat) (lb rb : list ptr)
  (L R : nat -> nat) : Prop :=
  (forall j : nat, (j <= top)%nat ->
     lb !! j = Some (Some (L j)) /\ rb !! j = Some (Some (R j))
     /\ link h (L j) j = Some (Some (R j)) /\ L j <> t)
  /\ (forall j : nat, (j < top)%nat ->
        steps h j (L (S j)) (L j) /\ steps h j (R j) (R (S j))).

Lemma descend_returns h rank (hd t : nat) k :
  levels h rank -> tailNil h t ->
  forall (i : nat) (lbs rbs : list ptr) (l r n0 : nat),
    lbs !! i = Some (Some l) -> rbs !! i = Some (Some r) ->
    l <> t ->
    link h l i = Some (Some n0) ->
    steps h i n0 r ->
    exists lbs' rbs' L R,
      descend h (Some hd) (Some t) k i lbs rbs = Ok (lbs', rbs')
      /\ length lbs' = length lbs /\ length rbs' = length rbs
      /\ ladder h t i lbs' rbs' L R
      /\ steps h i l (L i) /\ steps h i (R i) r.
Proof.
  intros Hlv Htail.
  induction i as [ | i IH]; intros lbs rbs l r n0 Hl Hr Hlt Hlink Hst;
    cbn [descend];
    pose proof (lookup_lt_Some _ _ _ Hl) as Hlen1;
    pose proof (lookup_lt_Some _ _ _ Hr) as Hlen2;
    apply index_Ok in Hl, Hr; rewrite Hl, Hr; cbn [bind];
    destruct (narrowDownBound_returns h rank hd t l r k _ n0
                Hlv Htail Hlt Hlink Hst)
      as (c & x & E & Hcx & Hct & Hlc & Hxr);
    rewrite E; cbn [bind]; unfold store;
    destruct (Nat.ltb_spec 0 (length lbs)) as [_ | ?]; try lia.
  - destruct (Nat.ltb_spec 0 (length rbs)) as [_ | ?]; [ | lia].
    cbn [bind].
    exists (<[0%nat := Some c]> lbs), (<[0%nat := Some x]> rbs),
      (fun _ => c), (fun _ => x).
    split; [reflexivity | ]. rewrite !length_insert.
    split; [reflexivity | ]. split; [reflexivity | ]. split; [ | auto].
    split.
    + intros j Hj. assert (j = 0%nat) as -> by lia.
      rewrite !list_lookup_insert_eq by lia. auto.
    + intros j Hj. lia.
  - destruct (Nat.ltb_spec (S i) (length lbs)) as [_ | ?]; [ | lia].
    destruct (Nat.ltb_spec (S i) (length rbs)) as [_ | ?]; [ | lia].
    cbn [bind]. rewrite !length_insert.
    destruct (Nat.ltb_spec i (length lbs)) as [_ | ?]; [ | lia].
    destruct (Nat.ltb_spec i (length rbs)) as [_ | ?]; [ | lia].
    cbn [bind].
    destruct (lv_nest h rank Hlv _ _ _ Hcx) as (c0 & Hc0 & Hc0x).
    destruct (IH (<[i := Some c]> (<[S i := Some c]> lbs))
                (<[i := Some x]> (<[S i := Some x]> rbs)) c x c0)
      as (lbs' & rbs' & L & R & E' & Hl1 & Hl2 & (Hrung & Hlad) & HcL & HRx);
      try assumption.
    { apply list_lookup_insert_eq. rewrite length_insert. lia. }
    { apply list_lookup_insert_eq. rewrite length_insert. lia. }
    rewrite !length_insert in Hl1, Hl2.
    (* the entries above [i] are those stored before the recursive call *)
    assert (Hup : lbs' !! S i = Some (Some c) /\ rbs' !! S i = Some (Some x)).
    { destruct (descend_tall h (Some hd) (Some t) k i _ _ _ _ E')
        as (_ & _ & Hup & _).
      destruct (Hup (S i) ltac:(lia)) as [-> ->].
      split; (rewrite list_lookup_insert_ne by lia);
        apply list_lookup_insert_eq; lia. }
    exists lbs', rbs',
      (fun j => if decide (j = S i) then c else L j),
      (fun j => if decide (j = S i) then x else R j).
    split; [exact E' | ]. split; [assumption | ]. split; [assumption | ].
    rewrite !decide_True by reflexivity.
    split; [ | auto]. split.
    + intros j Hj. destruct (decide (j = S i)) as [-> | Hne].
      * destruct Hup as [-> ->]. auto.
      * apply Hrung. lia.
    + intros j Hj. rewrite !(decide_False (P := j = S i)) by lia.
      destruct (decide (S j = S i)) as [Heq | Hne].
      * assert (j = i) as -> by lia. auto.
      * apply Hlad. lia.
Qed.

Lemma searchBoundsIn_returns h rank (hd t : nat) (empty : bool) k :
  levels h rank -> tailNil h t -> linked h t -> hd <> t ->
  (exists n, h !! hd = Some n /\ length (nexts n) = maxHeight) ->
  (empty = true ->
   forall j : nat, (j < maxHeight)%nat -> link h hd j = Some (Some t)) ->
  exists lb rb L R,
    searchBoundsIn h (Some hd) (Some t) empty k = Ok (lb, rb)
    /\ length lb = maxHeight /\ length rb = maxHeight
    /\ ladder h t (maxHeight - 1) lb rb L R.
Proof.
  intros Hlv Htail Hlinked Hne (nh & Hnh & Hfull) Hempty.
  unfold searchBoundsIn. destruct empty.
  - exists (initBound (Some hd)), (initBound (Some t)),
      (fun _ => hd), (fun _ => t).
    split; [reflexivity | ]. unfold initBound. rewrite !length_replicate.
    split; [reflexivity | ]. split; [reflexivity | ]. split.
    + intros j Hj. rewrite !lookup_replicate_2 by (unfold maxHeight in *; lia).
      split; [reflexivity | ]. split; [reflexivity | ].
      split; [ | assumption]. apply Hempty; [reflexivity | ].
      unfold maxHeight in *. lia.
    + intros j Hj. split; constructor.
  - unfold store, initBound. rewrite !length_replicate.
    change (maxHeight - 1 <? maxHeight)%nat with true. cbn [bind deref].
    rewrite Hnh. cbn [bind].
    destruct (lookup_lt_is_Some_2 (nexts nh) (maxHeight - 1)
                ltac:(rewrite Hfull; unfold maxHeight; lia)) as [q Hq].
    assert (Hlq : link h hd (maxHeight - 1) = Some q)
      by (apply link_Some; eauto).
    destruct (Hlinked _ _ _ Hne Hlq) as (top & -> & _).
    apply index_Ok in Hq. rewrite Hq. cbn [bind].
    destruct (descend_returns h rank hd t k Hlv Htail (maxHeight - 1)
                (<[(maxHeight - 1)%nat := Some hd]>
                   (replicate maxHeight (Some hd)))
                (<[(maxHeight - 1)%nat := Some top]>
                   (replicate maxHeight (Some t))) hd top top)
      as (lbs' & rbs' & L & R & E & Hl1 & Hl2 & (Hrung & Hlad) & _ & _);
      try assumption.
    { apply list_lookup_insert_eq. rewrite length_replicate.
      unfold maxHeight. lia. }
    { apply list_lookup_insert_eq. rewrite length_replicate.
      unfold maxHeight. lia. }
    { constructor. }
    rewrite length_insert, length_replicate in Hl1, Hl2.
    rewrite E. cbn [bind].
    destruct (Hrung 0%nat ltac:(lia)) as (HL0 & HR0 & Hlink0 & HLt).
    pose proof HL0 as HL0'. pose proof HR0 as HR0'.
    apply index_Ok in HL0', HR0'. rewrite HL0', HR0'. cbn [bind].
    rewrite (narrowDownBound_neighbour _ _ _ _ _ _ _ Hlink0). cbn [bind].
    rewrite Hl1, Hl2. change (0 <? maxHeight)%nat with true. cbn [bind].
    exists (<[0%nat := Some (L 0%nat)]> lbs'),
      (<[0%nat := Some (R 0%nat)]> rbs'), L, R.
    split; [reflexivity | ]. rewrite !length_insert.
    split; [assumption | ]. split; [assumption | ]. split; [ | exact Hlad].
    intros j Hj. rewrite !list_insert_id by assumption. now apply Hrung.
Qed.


Lemma steps_ext h h' (j a b : nat) :
  (forall x, link h' x j = link h x j) ->
  steps h j a b -> steps h' j a b.
Proof.
  intros Hsame. induction 1 as [ | a c b Hl _ IH]; [constructor | ].
  eapply steps_next; [ | exact IH]. now rewrite Hsame.
Qed.

Lemma levels_ext h h' rank :
  length h' = length h ->
  (forall a j, link h' a j = link h a j) ->
  levels h rank -> levels h' rank.
Proof.
  intros Hlen Hsame Hlv. constructor.
  - intros a j c Hl. rewrite Hsame in Hl. exact (lv_rank h rank Hlv _ _ _ Hl).
  - intros a. rewrite Hlen. apply (lv_bound h rank Hlv).
  - intros a j c Hl. rewrite Hsame in *. exact (lv_tall h rank Hlv _ _ _ Hl).
  - intros a j c Hl. rewrite Hsame in Hl.
    destruct (lv_nest h rank Hlv _ _ _ Hl) as (c0 & Hc0 & Hst).
    exists c0. rewrite Hsame. split; [assumption | ].
    apply (steps_ext h); [intros x; apply Hsame | assumption].
Qed.

(** The ranks of the bounds: the left bounds of the layers above are not
    behind that of layer 0, and the right bounds are behind it. *)
Lemma ladder_rank h rank (t top : nat) (lb rb : list ptr) (L R : nat -> nat) :
  levels h rank -> ladder h t top lb rb L R ->
  forall j : nat, (j <= top)%nat ->
    (rank (L j) <= rank (L 0%nat) /\ rank (L 0%nat) < rank (R j))%nat.
Proof.
  intros Hlv (Hrung & Hlad).
  induction j as [ | j IH]; intros Hj.
  - destruct (Hrung 0%nat Hj) as (_ & _ & Hl & _).
    pose proof (lv_rank h rank Hlv _ _ _ Hl). lia.
  - destruct (IH ltac:(lia)) as (IH1 & IH2).
    destruct (Hlad j ltac:(lia)) as (HL & HR).
    pose proof (steps_rank h rank _ _ _ Hlv HL).
    pose proof (steps_rank h rank _ _ _ Hlv HR). lia.
Qed.

(** Linking a new node between the bounds of a search keeps the layers in
    order. *)
Lemma levels_inserted h rank (t : nat) (lb rb : list ptr) (L R : nat -> nat)
  k (v : option V) (hgt : nat) h' :
  levels h rank ->
  ladder h t (maxHeight - 1) lb rb L R ->
  (1 <= hgt <= maxHeight)%nat ->
  splice hgt 0 (h ++ [newNode k v hgt]) (Some (length h)) lb rb = Ok h' ->
  exists rank', levels h' rank'.
Proof.
  intros Hlv Hladder Hhgt Hsp. pose proof Hladder as (Hrung & Hlad).
  set (b := length h) in *.
  assert (HLb : forall j, (j < maxHeight)%nat -> (L j < b)%nat).
  { intros j Hj. destruct (Hrung j ltac:(lia)) as (_ & _ & Hl & _).
    exact (link_lt _ _ _ _ Hl). }
  assert (HRb : forall j, (j < maxHeight)%nat -> (R j < b)%nat).
  { intros j Hj. destruct (Hrung j ltac:(lia)) as (_ & _ & Hl & _).
    destruct (lv_tall h rank Hlv _ _ _ Hl) as [q Hq].
    exact (link_lt _ _ _ _ Hq). }
  destruct (splice_link b lb rb hgt 0 _ _ Hsp) as (Hlen & Hin & Hout).
  { intros j Hj E. destruct (Hrung j ltac:(lia)) as (HLj & _).
    rewrite HLj in E. injection E as E. pose proof (HLb j ltac:(lia)). lia. }
  rewrite length_app in Hlen. cbn [length] in Hlen. fold b in Hlen.
  (* the links of the new heap *)
  assert (Hlink : forall a j,
    link h' a j
    = if decide (a = b)
      then if decide (j < hgt)%nat then Some (Some (R j)) else None
      else if decide ((j < hgt)%nat /\ a = L j) then Some (Some b)
           else link h a j).
  { intros a j.
    assert (Happ : forall a', a' <> b ->
              link (h ++ [newNode k v hgt]) a' j = link h a' j).
    { intros a' Ha'. destruct (Nat.lt_ge_cases a' b) as [Hlt | Hge].
      - now apply link_app_l.
      - unfold link. rewrite !lookup_ge_None_2;
          [reflexivity | fold b; lia | rewrite length_app; cbn [length]; fold b; lia]. }
    destruct (decide (j < hgt)%nat) as [Hj | Hj].
    - rewrite Hin by lia. destruct (Hrung j ltac:(lia)) as (HLj & HRj & _).
      destruct (decide (a = b)) as [-> | Hab]; [exact HRj | ].
      rewrite HLj.
      destruct (decide (Some (Some (L j)) = Some (Some a))) as [E | E].
      + injection E as <-. now rewrite decide_True.
      + rewrite decide_False by (intros [_ ->]; congruence). now apply Happ.
    - rewrite Hout by lia.
      destruct (decide (a = b)) as [-> | Hab].
      + unfold b. rewrite link_app_new. cbn [newNode nexts].
        apply lookup_ge_None_2. rewrite length_replicate. lia.
      + rewrite decide_False by (intros [? _]; contradiction).
        now apply Happ. }
  (* paths of the old heap are paths of the new one *)
  assert (Hpath : forall j x y, steps h j x y -> steps h' j x y).
  { intros j x y. induction 1 as [ | a c y Hl _ IH]; [constructor | ].
    pose proof (link_lt _ _ _ _ Hl) as Ha. fold b in Ha.
    destruct (decide ((j < hgt)%nat /\ a = L j)) as [[Hj ->] | Hno].
    - destruct (Hrung j ltac:(lia)) as (_ & _ & HLR & _).
      rewrite HLR in Hl. injection Hl as <-.
      apply steps_next with (c := b).
      + rewrite Hlink, decide_False by lia. now rewrite decide_True.
      + apply steps_next with (c := R j); [ | exact IH].
        rewrite Hlink, decide_True by reflexivity. now rewrite decide_True.
    - apply steps_next with (c := c); [ | exact IH].
      rewrite Hlink, decide_False by lia. now rewrite decide_False. }
  pose proof (ladder_rank h rank _ _ _ _ _ _ Hlv Hladder) as Hranks.
  set (rank' := fun a => if decide (a = b) then S (rank (L 0%nat))
                   else if decide (rank a <= rank (L 0%nat))%nat then rank a
                        else S (rank a)).
  assert (Hnew : rank' b = S (rank (L 0%nat))).
  { unfold rank'. now rewrite decide_True. }
  assert (Hlo : forall a, a <> b -> (rank a <= rank (L 0%nat))%nat ->
                  rank' a = rank a).
  { intros a Ha Hr. unfold rank'. rewrite decide_False by assumption.
    now rewrite decide_True. }
  assert (Hhi : forall a, a <> b -> (rank (L 0%nat) < rank a)%nat ->
                  rank' a = S (rank a)).
  { intros a Ha Hr. unfold rank'. rewrite decide_False by assumption.
    rewrite decide_False by lia. reflexivity. }
  assert (Hmono : forall a c, a <> b -> c <> b -> (rank a < rank c)%nat ->
                    (rank' a < rank' c)%nat).
  { intros a c Ha Hc Hr.
    destruct (Nat.le_gt_cases (rank a) (rank (L 0%nat)));
      destruct (Nat.le_gt_cases (rank c) (rank (L 0%nat)));
      rewrite ?(Hlo a), ?(Hhi a), ?(Hlo c), ?(Hhi c) by assumption; lia. }
  clearbody rank'.
  exists rank'. constructor.
  - intros a j c Hl. rewrite Hlink in Hl.
    destruct (decide (a = b)) as [-> | Hab].
    + destruct (decide (j < hgt)%nat) as [Hj | Hj]; [ | discriminate].
      injection Hl as <-. pose proof (HRb j ltac:(lia)).
      destruct (Hranks j ltac:(unfold maxHeight in *; lia)) as (_ & H2).
      rewrite Hnew, Hhi by lia. lia.
    + destruct (decide ((j < hgt)%nat /\ a = L j)) as [[Hj ->] | Hno].
      * injection Hl as <-.
        destruct (Hranks j ltac:(unfold maxHeight in *; lia)) as (H1 & _).
        rewrite Hnew, Hlo by lia. lia.
      * pose proof (lv_rank h rank Hlv _ _ _ Hl) as Hr.
        destruct (lv_tall h rank Hlv _ _ _ Hl) as [q Hq].
        pose proof (link_lt _ _ _ _ Hq) as Hc. fold b in Hc.
        apply Hmono; [assumption | lia | assumption].
  - intros a. rewrite Hlen. pose proof (lv_bound h rank Hlv a).
    pose proof (lv_bound h rank Hlv (L 0%nat)).
    destruct (decide (a = b)) as [-> | Hab]; [rewrite Hnew; unfold b; lia | ].
    unfold b.
    destruct (Nat.le_gt_cases (rank a) (rank (L 0%nat)));
      rewrite ?Hlo, ?Hhi by assumption; lia.
  - intros a j c Hl. rewrite Hlink in Hl. rewrite (Hlink c j).
    destruct (decide (a = b)) as [-> | Hab].
    + destruct (decide (j < hgt)%nat) as [Hj | Hj]; [ | discriminate].
      injection Hl as <-. pose proof (HRb j ltac:(lia)).
      rewrite decide_False by lia.
      destruct (decide ((j < hgt)%nat /\ R j = L j)); [eauto | ].
      destruct (Hrung j ltac:(lia)) as (_ & _ & HLR & _).
      exact (lv_tall h rank Hlv _ _ _ HLR).
    + destruct (decide ((j < hgt)%nat /\ a = L j)) as [[Hj ->] | Hno].
      * injection Hl as <-. rewrite decide_True by reflexivity.
        rewrite decide_True by assumption. eauto.
      * destruct (lv_tall h rank Hlv _ _ _ Hl) as [q Hq].
        pose proof (link_lt _ _ _ _ Hq) as Hc. fold b in Hc.
        rewrite decide_False by lia.
        destruct (decide ((j < hgt)%nat /\ c = L j)); eauto.
  - intros a j c Hl. rewrite Hlink in Hl. rewrite (Hlink a j).
    destruct (decide (a = b)) as [-> | Hab].
    + destruct (decide (S j < hgt)%nat) as [Hj | Hj]; [ | discriminate].
      injection Hl as <-. rewrite decide_True by lia.
      exists (R j). split; [reflexivity | ].
      apply Hpath. apply Hlad. unfold maxHeight in *. lia.
    + destruct (decide ((S j < hgt)%nat /\ a = L (S j))) as [[Hj ->] | Hno].
      * injection Hl as <-.
        destruct (decide ((j < hgt)%nat /\ L (S j) = L j)) as [[_ E] | Hne].
        -- exists b. split; [reflexivity | constructor].
        -- destruct (Hlad j ltac:(unfold maxHeight in *; lia)) as (HL & _).
           inversion HL as [x Ex | x c0 y Hl0 Hst0]; subst.
           ++ exfalso. apply Hne. split; [lia | congruence].
           ++ exists c0. split; [assumption | ].
              apply (steps_trans _ _ _ (L j)); [now apply Hpath | ].
              apply steps_next with (c := b); [ | constructor].
              pose proof (HLb j ltac:(unfold maxHeight in *; lia)).
              rewrite Hlink, decide_False by lia.
              now rewrite decide_True by (split; [lia | reflexivity]).
      * destruct (lv_nest h rank Hlv _ _ _ Hl) as (c0 & Hc0 & Hst).
        destruct (decide ((j < hgt)%nat /\ a = L j)) as [[Hj ->] | Hno'].
        -- destruct (Hrung j ltac:(unfold maxHeight in *; lia))
             as (_ & _ & HLR & _).
           rewrite HLR in Hc0. injection Hc0 as <-.
           exists b. split; [reflexivity | ].
           apply steps_next with (c := R j); [ | now apply Hpath].
           rewrite Hlink, decide_True by reflexivity. now rewrite decide_True.
        -- exists c0. split; [assumption | now apply Hpath].
Qed.

End Levels.

(** ** The memtable's read path *)

Module MemtableFacts.

Import Memtable.

Lemma Get_hit (st : Skiplist) (k : string) (a : nat) :
  Get st k = Ok (Some a) -> exists n, nodes st !! a = Some n /\ key n = k.
Proof.
  unfold Get. intros H. apply bind_Ok in H as ([lb rb] & _ & H).
  unfold searchWithBounds in H. eapply searchWithBoundsIn_hit; eauto.
Qed.

(** Generations in which the key is not found are passed over. *)
Lemma scan_skips (newer rest : list Skiplist) (k : string) :
  Forall (fun s => Get s k = Ok None) newer ->
  scan (newer ++ rest) k = scan rest k.
Proof.
  induction 1 as [ | s newer Hs _ IH]; simpl; [reflexivity | ].
  rewrite Hs. simpl. exact IH.
Qed.

(** What the loop of [memtable.Get] makes of the results of
    [Skiplist.Get]: the generations in which [Skiplist.Get] finds no node
    are passed over, and the first in which it finds one decides the
    result, that node's value with the found flag set, whatever the older
    generations hold. When it finds a node in none, the result is nil and
    not found. *)
Lemma memtableGet_first_generation_decides
  (newer : list Skiplist) (st : Skiplist) (k : string) (a : nat) :
  Forall (fun s => Get s k = Ok None) newer ->
  Get st k = Ok (Some a) ->
  exists n,
    nodes st !! a = Some n /\ key n = k
    /\ (forall older,
          memtableGet (mkMemtable (newer ++ st :: older)) k
          = Ok (val n, true))
    /\ (val n = None ->
        forall older,
          memtableGet (mkMemtable (newer ++ st :: older)) k
          = Ok (None, true))
    /\ memtableGet (mkMemtable newer) k = Ok (None, false).
Proof.
  intros Hnewer Hst.
  destruct (Get_hit _ _ _ Hst) as (n & Hn & Hk).
  assert (Hall : forall older,
    memtableGet (mkMemtable (newer ++ st :: older)) k = Ok (val n, true)).
  { intros older. unfold memtableGet. simpl.
    rewrite (scan_skips _ _ _ Hnewer). simpl.
    rewrite Hst. simpl. rewrite Hn. reflexivity. }
  exists n. repeat split; try assumption.
  - intros Hv older. rewrite <- Hv. apply Hall.
  - unfold memtableGet. simpl.
    rewrite <- (app_nil_r newer), (scan_skips _ _ _ Hnewer). reflexivity.
Qed.

(** *** The write path of one generation *)

Local Open Scope string_scope.
Local Open Scope list_scope.

Lemma u32_idem (z : Z) : u32 (u32 z) = u32 z.
Proof. unfold u32, wrap. apply Z.mod_mod. lia. Qed.

Lemma u32_add_l (a b : Z) : u32 (u32 a + b) = u32 (a + b).
Proof. unfold u32, wrap. apply Zplus_mod_idemp_l. Qed.

Lemma u32_add_r (a b : Z) : u32 (a + u32 b) = u32 (a + b).
Proof. unfold u32, wrap. apply Zplus_mod_idemp_r. Qed.

Lemma u32_small (z : Z) : (0 <= z < 2 ^ 32)%Z -> u32 z = z.
Proof. unfold u32, wrap. apply Z.mod_small. Qed.

(** [[]byte(s)]. *)
Definition B (s : string) : bytes := Some (list_byte_of_string s).

(** C2. In the memtable's list the branch of [Update] for a node that was
    marked as deleted adds to [len] and [size] and returns: the assignment
    [node.val = val] stands in the other branch. So for every list and
    every key whose node is a tombstone, [Update(k, v)] raises the live
    count by one and leaves every node as it was; the key stays a
    tombstone. (The lock-guarded list assigns the value in both cases,
    see [SkipListFacts.update_revives].) *)
Theorem Update_leaves_tombstone (g : Rand.source) (st : Skiplist)
  (k : string) (v : bytes) (a : nat) (n : node (list byte)) :
  Get st k = Ok (Some a) ->
  nodes st !! a = Some n ->
  val n = None ->
  exists st',
    Update g st k v = Ok (true, st', g)
    /\ GetLen st' = u32 (GetLen st + 1)
    /\ nodes st' = nodes st
    /\ nodes st' !! a = Some n
    /\ ((size st' =? 0)%Z = (size st =? 0)%Z -> Get st' k = Ok (Some a)).
Proof.
  intros HG Ha Hv.
  exists (mkSkiplist (nodes st) (head st) (tail st) (u32 (len st + 1))
            (u32 (size st + u32 (Go.len v)))).
  repeat split; try assumption.
  - unfold Update. unfold Get in HG.
    destruct (searchBounds st k) as [[lb rb] | f | ]; simpl in *;
      try discriminate.
    rewrite HG. simpl. rewrite Ha. simpl. rewrite Hv. reflexivity.
  - unfold GetLen. simpl. now rewrite u32_idem, u32_add_l.
  - intros Hz. unfold Get, searchBounds, searchWithBounds in *.
    simpl in *. now rewrite Hz.
Qed.

(** The generation after [Update("a", "1")] and [Update("a", nil)], the
    tower of height one. *)
Definition oneTombstone : Skiplist :=
  mkSkiplist
    [ mkNode (Some 2%nat :: replicate 15 (Some 1%nat)) "" None;
      mkNode (replicate maxHeight None) "" None;
      mkNode [Some 1%nat] "a" None ]
    (Some 0%nat) (Some 1%nat) 1 1.

Example oneTombstone_history :
  exists g1 g2 st1,
    Update (Rand.ofList []) NewSkipList "a" (B "1") = Ok (true, st1, g1)
    /\ Update g1 st1 "a" None = Ok (true, oneTombstone, g2).
Proof.
  do 3 eexists. split; [vm_compute; reflexivity | ]. vm_compute. reflexivity.
Qed.

Lemma Update_leaves_tombstone_witness :
  exists st',
    Update (Rand.ofList []) oneTombstone "a" (B "2")
    = Ok (true, st', Rand.ofList [])
    /\ GetLen st' = u32 (GetLen oneTombstone + 1)
    /\ nodes st' = nodes oneTombstone
    /\ nodes st' !! 2%nat = Some (mkNode [Some 1%nat] "a" None)
    /\ ((size st' =? 0)%Z = (size oneTombstone =? 0)%Z ->
        Get st' "a" = Ok (Some 2%nat)).
Proof.
  apply (Update_leaves_tombstone (Rand.ofList []) oneTombstone "a" (B "2")
           2 (mkNode [Some 1%nat] "a" None));
    vm_compute; reflexivity.
Defined.

(** Seen through the memtable: the revived key reads as a tombstone. *)
Example memtable_revive_reads_nil :
  exists mt g',
    memtableUpdate (Rand.ofList []) (mkMemtable [oneTombstone]) "a" (B "2")
    = Ok (true, mt, g')
    /\ memtableGet mt "a" = Ok (None, true)
    /\ map GetLen (skiplists mt) = [2%Z].
Proof.
  do 2 eexists. split; [vm_compute; reflexivity | ].
  split; vm_compute; reflexivity.
Qed.

(** *** Rotation by size *)

(** The insert branch of [Update] on the newest generation, with the
    bounds and the sampled height named. *)
Lemma updateNewest_absent (g : Rand.source) (st : Skiplist)
  (rest : list Skiplist) (k : string) (v : bytes) (lb rb : list ptr) :
  searchBounds st k = Ok (lb, rb) ->
  searchWithBounds st k lb rb = Ok None ->
  updateNewest g (mkMemtable (st :: rest)) k v
  = (h <- splice (fst (liftLayers g)) 0
            (nodes st ++ [newNode k v (fst (liftLayers g))])
            (Some (length (nodes st))) lb rb ;;
     Ok (true,
         mkMemtable
           (mkSkiplist h (head st) (tail st) (u32 (len st + 1))
              (u32 (size st + u32 (keyLen k + Go.len v))) :: rest),
         snd (liftLayers g))).
Proof.
  intros Hb Hw. unfold updateNewest, Update. simpl. rewrite Hb. simpl.
  rewrite Hw. simpl. destruct (liftLayers g) as [layerNum g']. simpl.
  destruct (splice layerNum 0 _ _ lb rb); reflexivity.
Qed.



(** A new generation after its first write, of a key other than the empty
    string, the tower of height [h]. *)
Definition freshWritten (k : string) (v : bytes) (h : nat) : Skiplist :=
  mkSkiplist
    [ mkNode (replicate h (Some 2%nat) ++ replicate (16 - h) (Some 1%nat))
        "" None;
      mkNode (replicate maxHeight None) "" None;
      mkNode (replicate h (Some 1%nat)) k v ]
    (Some 0%nat) (Some 1%nat)
    (u32 (0 + 1)) (u32 (0 + u32 (keyLen k + Go.len v))).

Lemma write_on_fresh (g : Rand.source) (rest : list Skiplist) (k : string)
  (v : bytes) :
  k <> "" ->
  updateNewest g (mkMemtable (NewSkipList :: rest)) k v
  = Ok (true, mkMemtable (freshWritten k v (fst (liftLayers g)) :: rest),
        snd (liftLayers g)).
Proof.
  intros Hk.
  erewrite updateNewest_absent; cycle 1.
  - reflexivity.
  - destruct k as [ | c k]; [congruence | ]. reflexivity.
  - pose proof (height_cases g) as Hh.
    destruct (liftLayers g) as [h g']. cbn [fst snd] in *.
    unfold freshWritten.
    change (nodes NewSkipList) with (@emptyHeap (list byte)).
    set (sz := u32 (_ + u32 (keyLen k + Go.len v))).
    set (ln := u32 (_ + 1)).
    assert (E : forall (x y : heap (list byte)),
      x = y ->
      (a <- Ok x ;;
       Ok (true,
           mkMemtable
             (mkSkiplist a (head NewSkipList) (tail NewSkipList) ln sz
                :: rest), g'))
      = Ok (true,
            mkMemtable
              (mkSkiplist y (Some 0%nat) (Some 1%nat) ln sz :: rest), g')).
    { intros x y ->. reflexivity. }
    each_height Hh;
      (match goal with
       | |- bind ?sp _ = _ =>
           let r := eval vm_compute in sp in
           change sp with r
       end);
      apply E; reflexivity.
Qed.









Example first_height_one :
  (fst (liftLayers (Rand.ofList [])) < maxHeight)%nat.
Proof. vm_compute. lia. Qed.

(** *** The iterator over the oldest generation *)

(** The level-0 list from a cursor to the tail sentinel: the nodes met, in
    link order, each with its address. *)
Inductive chain (h : heap (list byte)) (tl : ptr)
  : ptr -> list (nat * node (list byte)) -> Prop :=
| chain_end : chain h tl tl []
| chain_step (a : nat) (n : node (list byte)) (q : ptr)
    (l : list (nat * node (list byte))) :
    Some a <> tl ->
    h !! a = Some n ->
    nexts n !! 0%nat = Some q ->
    chain h tl q l ->
    chain h tl (Some a) ((a, n) :: l).

(** What the consumer receives for a node: its key and [string(val)]. *)
Definition entry (n : node (list byte)) : string * string :=
  (key n,
   match val n with
   | None => ""
   | Some b => string_of_list_byte b
   end).

Lemma chain_functional h tl c l :
  chain h tl c l -> forall l', chain h tl c l' -> l = l'.
Proof.
  induction 1 as [ | a n q l Hne Ha Hq _ IH]; intros l' H'.
  - inversion H' as [ | a n q l0 Hne]; [reflexivity | congruence].
  - inversion H' as [E | a' n' q' l0 Hne' Ha' Hq' Hc']; subst.
    + congruence.
    + rewrite Ha in Ha'. injection Ha' as <-.
      rewrite Hq in Hq'. injection Hq' as <-.
      f_equal. now apply IH.
Qed.

(** A node met on the way starts a chain of its own, which is no longer. *)
Lemma chain_from_member h tl c l (a : nat) :
  chain h tl c l -> In a (map fst l) ->
  exists l', chain h tl (Some a) l' /\ (length l' <= length l)%nat.
Proof.
  induction 1 as [ | b n q l Hne Hb Hq Hc IH]; simpl; intros Hin.
  - contradiction.
  - destruct Hin as [-> | Hin].
    + exists ((a, n) :: l).
      split; [exact (chain_step h tl a n q l Hne Hb Hq Hc) | simpl; lia].
    + destruct (IH Hin) as (l' & Hl' & Hlen). exists l'. split; [assumption | lia].
Qed.

Lemma chain_NoDup h tl c l : chain h tl c l -> List.NoDup (map fst l).
Proof.
  induction 1 as [ | a n q l Hne Ha Hq Hc IH]; simpl; constructor;
    [ | assumption].
  intros Hin.
  destruct (chain_from_member _ _ _ _ _ Hc Hin) as (l' & Hl' & Hlen).
  assert (E : l' = (a, n) :: l).
  { symmetry.
    exact (chain_functional _ _ _ _ (chain_step h tl a n q l Hne Ha Hq Hc)
             l' Hl'). }
  subst l'. simpl in Hlen. lia.
Qed.

Lemma chain_in_heap h tl c l (a : nat) :
  chain h tl c l -> In a (map fst l) -> (a < length h)%nat.
Proof.
  induction 1 as [ | b n q l Hne Hb Hq Hc IH]; simpl; intros Hin.
  - contradiction.
  - destruct Hin as [<- | Hin]; [ | now apply IH].
    now apply lookup_lt_Some in Hb.
Qed.

(** A chain is not longer than the heap, so the consumer's loop has the
    rounds it needs. *)
Lemma chain_length h tl c l : chain h tl c l -> (length l <= length h)%nat.
Proof.
  intros Hc.
  pose proof (List.NoDup_incl_length (l := map fst l)
                (l' := seq 0 (length h)) (chain_NoDup _ _ _ _ Hc)) as H.
  rewrite List.length_seq, List.length_map in H. apply H.
  intros a Ha. apply in_seq. pose proof (chain_in_heap _ _ _ _ _ Hc Ha). lia.
Qed.

Lemma drain_chain (s : Skiplist) c l :
  chain (nodes s) (tail s) c l ->
  forall fuel : nat,
    (length l <= fuel)%nat ->
    drain fuel (mkIterator s c) = Ok (map (fun an => entry (snd an)) l).
Proof.
  induction 1 as [ | a n q l Hne Ha Hq Hc IH]; intros fuel Hfuel.
  - destruct fuel; simpl; unfold hasNext; simpl;
      rewrite (proj2 (ptr_eqb_eq (tail s) (tail s)) eq_refl);
      now rewrite andb_false_r.
  - destruct fuel as [ | fuel]; [simpl in Hfuel; lia | ].
    assert (E : hasNext (mkIterator s (Some a)) = true).
    { unfold hasNext. cbn [cursor st].
      destruct (ptr_eqb (Some a) (tail s)) eqn:E;
        [apply ptr_eqb_eq in E; congruence | reflexivity]. }
    cbn [drain]. rewrite E.
    unfold getKey, getVal, next. cbn [cursor st deref]. rewrite Ha.
    cbn [bind]. apply index_Ok in Hq. rewrite Hq. cbn [bind].
    rewrite IH by (simpl in Hfuel; lia). reflexivity.
Qed.

(** With at least two generations the memtable hands out an iterator
    over the oldest one. Where the level-0 links of that generation lead
    from the head through the nodes [l] to the tail sentinel, the consumer's
    loop receives one pair for every node of [l], in link order: the node's
    key with [string(val)]. No node is passed over for its value: a
    tombstone is emitted, with the empty string that the nil slice converts
    to. *)
Lemma iterator_follows_chain (mt : memtable) (s : Skiplist)
  (hd : node (list byte)) (c : ptr) (l : list (nat * node (list byte))) :
  (2 <= length (skiplists mt))%nat ->
  last (skiplists mt) = Some s ->
  deref (nodes s) (head s) = Ok hd ->
  nexts hd !! 0%nat = Some c ->
  chain (nodes s) (tail s) c l ->
  exists it,
    getLastIterator mt = Ok (Some it)
    /\ collect it = Ok (map (fun an => entry (snd an)) l)
    /\ (forall a n, In (a, n) l -> val n = None ->
        exists i : nat,
          l !! i = Some (a, n)
          /\ map (fun an => entry (snd an)) l !! i = Some (key n, "")).
Proof.
  intros Hlen Hlast Hhd Hc0 Hchain.
  exists (mkIterator s c). repeat split.
  - unfold getLastIterator.
    destruct (Nat.leb_spec (length (skiplists mt)) 1) as [Hle | _]; [lia | ].
    rewrite last_lookup in Hlast.
    replace (length (skiplists mt) - 1)%nat
      with (Init.Nat.pred (length (skiplists mt))) by lia.
    apply index_Ok in Hlast. rewrite Hlast. cbn [bind].
    rewrite Hhd. cbn [bind]. apply index_Ok in Hc0. rewrite Hc0. reflexivity.
  - unfold collect. cbn [st]. apply drain_chain; [assumption | ].
    exact (chain_length _ _ _ _ Hchain).
  - intros a n Hin Hv. apply list_elem_of_In in Hin.
    apply list_elem_of_lookup in Hin as [i Hi]. exists i.
    split; [assumption | ].
    change (map (fun an => entry (snd an)) l)
      with ((fun an : nat * node (list byte) => entry (snd an)) <$> l).
    rewrite list_lookup_fmap, Hi. simpl. unfold entry. now rewrite Hv.
Qed.

(** Two generations; the older one holds "a" as a tombstone in front of
    the live key "b". *)
Definition frozenGeneration : Skiplist :=
  mkSkiplist
    [ mkNode (Some 3%nat :: replicate 15 (Some 1%nat)) "" None;
      mkNode (replicate maxHeight None) "" None;
      mkNode [Some 1%nat] "b" (B "2");
      mkNode [Some 2%nat] "a" None ]
    (Some 0%nat) (Some 1%nat) 2 3.

Definition frozenWithTombstone : memtable :=
  mkMemtable [freshWritten "zz" None 1; frozenGeneration].

(** It is what [Update("b","2")], [Delete("a")], [Delete("zz")] build with
    a threshold of 3 bytes and towers of height one. *)
Example frozenWithTombstone_history :
  exists g1 g2 g3 mt1 mt2,
    memtableUpdateAt 3 (Rand.ofList []) NewMemtable "b" (B "2")
    = Ok (true, mt1, g1)
    /\ memtableDeleteAt 3 g1 mt1 "a" = Ok (true, mt2, g2)
    /\ memtableDeleteAt 3 g2 mt2 "zz" = Ok (true, frozenWithTombstone, g3).
Proof.
  do 5 eexists.
  split; [vm_compute; reflexivity | ].
  split; [vm_compute; reflexivity | ].
  vm_compute. reflexivity.
Qed.

Example iterator_on_frozenWithTombstone :
  exists it,
    getLastIterator frozenWithTombstone = Ok (Some it)
    /\ collect it = Ok [("a", ""); ("b", "2")]
    /\ (forall a n,
          In (a, n) [ (3%nat, mkNode [Some 2%nat] "a" None);
                      (2%nat, mkNode [Some 1%nat] "b" (B "2")) ] ->
          val n = None ->
          exists i : nat,
            [ (3%nat, mkNode [Some 2%nat] "a" None);
              (2%nat, mkNode [Some 1%nat] "b" (B "2")) ] !! i = Some (a, n)
            /\ [("a", ""); ("b", "2")] !! i = Some (key n, "")).
Proof.
  apply (iterator_follows_chain frozenWithTombstone frozenGeneration
           (mkNode (Some 3%nat :: replicate 15 (Some 1%nat)) "" None)
           (Some 3%nat)
           [ (3%nat, mkNode [Some 2%nat] "a" None);
             (2%nat, mkNode [Some 1%nat] "b" (B "2")) ]).
  - simpl. lia.
  - reflexivity.
  - reflexivity.
  - reflexivity.
  - apply chain_step with (q := Some 2%nat);
      [discriminate | reflexivity | reflexivity | ].
    apply chain_step with (q := Some 1%nat);
      [discriminate | reflexivity | reflexivity | ].
    apply chain_end.
Qed.

(** A tombstone that [Skiplist.Get] finds in the middle generation hides
    the live "a" of an older one. *)
Example tombstone_shadows_older_value :
  memtableGet
    (mkMemtable [freshWritten "zz" None 1; frozenGeneration;
                 freshWritten "a" (B "old") 1]) "a"
  = Ok (None, true)
  /\ memtableGet (mkMemtable [freshWritten "a" (B "old") 1]) "a"
     = Ok (B "old", true).
Proof. split; vm_compute; reflexivity. Qed.

(** *** Deleting a key the newest generation does not hold *)

(** The head of a list built by [NewSkipList] has [maxHeight] links, and
    no operation changes the number of links of a node. *)
Definition fullHead (s : Skiplist) : Prop :=
  tall (nodes s) (head s) (maxHeight - 1).

Lemma fullHead_NewSkipList : fullHead NewSkipList.
Proof.
  exists 0%nat, (mkNode (replicate maxHeight (Some 1%nat)) "" None).
  repeat split. simpl. lia.
Qed.

(** The insert branch of [Update] returns, with a new node at the next
    free address. *)
Lemma Update_inserts (g : Rand.source) (s : Skiplist) (k : string)
  (v : bytes) :
  Get s k = Ok None ->
  (size s = 0%Z -> fullHead s) ->
  exists s' n',
    Update g s k v = Ok (true, s', snd (liftLayers g))
    /\ length (nodes s') = S (length (nodes s))
    /\ nodes s' !! length (nodes s) = Some n'
    /\ key n' = k /\ val n' = v
    /\ length (nexts n') = fst (liftLayers g)
    /\ (forall a n, nodes s !! a = Some n ->
          exists m, nodes s' !! a = Some m /\ key m = key n
                    /\ val m = val n)
    /\ len s' = u32 (len s + 1)
    /\ size s' = u32 (size s + u32 (keyLen k + Go.len v))
    /\ head s' = head s /\ tail s' = tail s.
Proof.
  intros HG Hhead. unfold Get in HG. unfold Update.
  destruct (searchBounds s k) as [[lb rb] | f | ] eqn:Hb; simpl in HG;
    try discriminate.
  cbn [bind]. rewrite HG. cbn [bind].
  unfold searchBounds in Hb.
  apply searchBoundsIn_tall in Hb as (Hlb & Hrb & Htall).
  2:{ intros Hz. apply Hhead. now apply Z.eqb_eq. }
  pose proof (liftLayers_range g) as Hrange.
  destruct (liftLayers g) as [layerNum g']. cbn [fst snd] in *.
  destruct (insert_succeeds (nodes s) lb rb k v layerNum
              ltac:(lia) Hrb Htall)
    as (h' & n' & Hs & Hlen & Hn' & Hk & Hv & Hl & Hold).
  unfold alloc. rewrite Hs. cbn [bind].
  eexists. exists n'. split; [reflexivity | ]. cbn.
  repeat split; assumption.
Qed.

(** [memtable.Delete(key)] writes nil through [Update] to the generation
    at index 0 as the rotation test leaves it. When that generation has no
    node for the key and its head has all its links, the call returns true
    and the generation gets one more node, at a fresh address, with this
    key and the nil value. *)
Lemma memtableDeleteAt_absent (threshold : Z) (g : Rand.source)
  (mt : memtable) (k : string) (s : Skiplist) (rest : list Skiplist) :
  skiplists (rotate threshold mt) = s :: rest ->
  Get s k = Ok None ->
  (size s = 0%Z -> fullHead s) ->
  exists s' n',
    memtableDeleteAt threshold g mt k
    = Ok (true, mkMemtable (s' :: rest), snd (liftLayers g))
    /\ length (nodes s') = S (length (nodes s))
    /\ nodes s' !! length (nodes s) = Some n'
    /\ key n' = k /\ val n' = None
    /\ (forall a n, nodes s !! a = Some n ->
          exists m, nodes s' !! a = Some m /\ key m = key n
                    /\ val m = val n)
    /\ GetLen s' = u32 (GetLen s + 1)
    /\ GetSize s' = u32 (GetSize s + keyLen k)
    /\ ((GetLen s + 1 < 2 ^ 32)%Z -> GetLen s' = (GetLen s + 1)%Z)
    /\ ((GetSize s + keyLen k < 2 ^ 32)%Z ->
        GetSize s' = (GetSize s + keyLen k)%Z).
Proof.
  intros Hrot HG Hhead.
  destruct (Update_inserts g s k None HG Hhead)
    as (s' & n' & HU & Hlen & Hn' & Hk & Hv & _ & Hold & Hl & Hsz & _ & _).
  assert (HGL : GetLen s' = u32 (GetLen s + 1)).
  { unfold GetLen. now rewrite Hl, u32_idem, u32_add_l. }
  assert (HGS : GetSize s' = u32 (GetSize s + keyLen k)).
  { unfold GetSize. rewrite Hsz, u32_idem, u32_add_r, u32_add_l.
    simpl. now rewrite Z.add_0_r. }
  assert (Hk0 : (0 <= keyLen k)%Z) by (unfold keyLen; lia).
  assert (HL0 : (0 <= GetLen s)%Z).
  { unfold GetLen, u32, wrap. apply Z.mod_pos_bound. lia. }
  assert (HS0 : (0 <= GetSize s)%Z).
  { unfold GetSize, u32, wrap. apply Z.mod_pos_bound. lia. }
  exists s', n'. split.
  { unfold memtableDeleteAt, updateNewest. rewrite Hrot. cbn [index bind].
    simpl. rewrite HU. reflexivity. }
  repeat split; try assumption.
  - intros Hb. rewrite HGL. apply u32_small. lia.
  - intros Hb. rewrite HGS. apply u32_small. lia.
Qed.

(** *** The generations a memtable can hold

    Every generation is made by [NewSkipList] and changed by [Update]
    alone. As long as the byte count stays within uint32, such a list
    keeps its sentinels, its links lead to nodes, and its level-0 links
    lead from the head through every node, once, to the tail. *)

Lemma chain_ext h h' tl c l :
  chain h tl c l ->
  (forall a, In a (map fst l) -> link h' a 0 = link h a 0) ->
  exists l', chain h' tl c l' /\ map fst l' = map fst l.
Proof.
  induction 1 as [ | a n q l Hne Ha Hq Hc IH]; intros Hsame.
  - exists []. split; [constructor | reflexivity].
  - destruct IH as (l' & Hl' & Hfst).
    { intros a' Ha'. apply Hsame. now right. }
    assert (Hlink : link h' a 0 = Some q).
    { rewrite Hsame by now left. apply link_Some. eauto. }
    apply link_Some in Hlink as (n' & Ha' & Hq').
    exists ((a, n') :: l'). split; [now apply chain_step with (q := q) | ].
    simpl. now rewrite Hfst.
Qed.

Lemma chain_start_fresh h tl (a : nat) c l :
  link h a 0 = Some c -> Some a <> tl -> chain h tl c l ->
  ~ In a (map fst l).
Proof.
  intros Hlink Hne Hc Hin.
  apply link_Some in Hlink as (n & Ha & Hq).
  destruct (chain_from_member _ _ _ _ _ Hc Hin) as (l' & Hl' & Hlen).
  pose proof (chain_functional _ _ _ _
                (chain_step h tl a n c l Hne Ha Hq Hc) l' Hl') as <-.
  simpl in Hlen. lia.
Qed.

Lemma chain_insert_after h h' tl (ca b : nat) (r0 : ptr) c l :
  chain h tl c l ->
  In ca (map fst l) ->
  link h ca 0 = Some r0 ->
  link h' ca 0 = Some (Some b) ->
  link h' b 0 = Some r0 ->
  Some b <> tl ->
  (forall a, In a (map fst l) -> a <> ca -> link h' a 0 = link h a 0) ->
  exists l',
    chain h' tl c l'
    /\ forall x, In x (map fst l') <-> x = b \/ In x (map fst l).
Proof.
  intros Hc. revert ca b r0.
  induction Hc as [ | a n q l Hne Ha Hq Hc IH];
    intros ca b r0 Hin Hold Hca Hb Hbt Hsame.
  - contradiction.
  - destruct (decide (a = ca)) as [-> | Hac].
    + assert (r0 = q) as ->.
      { apply link_Some in Hold as (n0 & Hn0 & Hq0). congruence. }
      pose proof (chain_NoDup _ _ _ _ (chain_step h tl ca n q l Hne Ha Hq Hc))
        as Hnd.
      simpl in Hnd. apply List.NoDup_cons_iff in Hnd as [Hfresh _].
      destruct (chain_ext h h' tl q l Hc) as (l2 & Hl2 & Hfst).
      { intros a' Ha'. apply Hsame; [now right | ]. intros ->. contradiction. }
      apply link_Some in Hca as (n1 & Hn1 & Hq1).
      apply link_Some in Hb as (nb & Hnb & Hqb).
      exists ((ca, n1) :: (b, nb) :: l2). split.
      * apply chain_step with (q := Some b); try assumption.
        now apply chain_step with (q := q).
      * intros x. simpl. rewrite Hfst. intuition congruence.
    + destruct Hin as [Hin | Hin]; [simpl in Hin; congruence | ].
      destruct (IH ca b r0 Hin Hold Hca Hb Hbt) as (l' & Hl' & Hmem).
      { intros a' Ha' Hne'. apply Hsame; [now right | assumption]. }
      assert (Hlink : link h' a 0 = Some q).
      { rewrite Hsame; [ | now left | assumption]. apply link_Some. eauto. }
      apply link_Some in Hlink as (n' & Hn' & Hq').
      exists ((a, n') :: l'). split; [now apply chain_step with (q := q) | ].
      intros x. simpl. rewrite Hmem. intuition congruence.
Qed.

(** The bytes a node accounts for, and those of a heap. *)
Definition weight (n : node (list byte)) : Z := keyLen (key n) + Go.len (val n).

Definition heapWeight (h : heap (list byte)) : Z :=
  fold_right (fun n acc => (weight n + acc)%Z) 0%Z h.

Lemma weight_nonneg n : (0 <= weight n)%Z.
Proof. unfold weight, keyLen, Go.len. destruct (val n); lia. Qed.

Lemma heapWeight_nonneg h : (0 <= heapWeight h)%Z.
Proof.
  induction h as [ | n h IH]; simpl; [lia | ].
  pose proof (weight_nonneg n). lia.
Qed.

Lemma heapWeight_app h1 h2 :
  heapWeight (h1 ++ h2) = (heapWeight h1 + heapWeight h2)%Z.
Proof. induction h1 as [ | n h1 IH]; simpl; lia. Qed.

Lemma heapWeight_lookup h (a : nat) n :
  h !! a = Some n -> (weight n <= heapWeight h)%Z.
Proof.
  revert a. induction h as [ | m h IH]; intros a Ha; [discriminate | ].
  destruct a as [ | a]; simpl in *.
  - injection Ha as ->. pose proof (heapWeight_nonneg h). lia.
  - pose proof (IH _ Ha). pose proof (weight_nonneg m). lia.
Qed.

Lemma heapWeight_insert h (a : nat) n n' :
  h !! a = Some n ->
  heapWeight (<[a := n']> h) = (heapWeight h - weight n + weight n')%Z.
Proof.
  revert a. induction h as [ | m h IH]; intros a Ha; [discriminate | ].
  destruct a as [ | a]; simpl in *.
  - injection Ha as ->. lia.
  - rewrite (IH _ Ha). lia.
Qed.

Lemma heapWeight_sameFrame h h' :
  sameFrame h h' -> heapWeight h = heapWeight h'.
Proof.
  induction 1 as [ | n n' h h' (Hk & Hv & _) _ IH]; simpl; [reflexivity | ].
  unfold weight. now rewrite Hk, Hv, IH.
Qed.

Record sound (s : Skiplist) : Prop := mkSound {
  sound_head : head s = Some 0%nat;
  sound_tail : tail s = Some 1%nat;
  sound_headFull :
    exists hd, nodes s !! 0%nat = Some hd /\ length (nexts hd) = maxHeight;
  sound_tailKey : exists tl, nodes s !! 1%nat = Some tl /\ key tl = "";
  sound_linked : linked (nodes s) 1;
  sound_tailNil : tailNil (nodes s) 1;
  sound_empty :
    length (nodes s) = 2%nat ->
    forall j : nat, (j < maxHeight)%nat ->
                    link (nodes s) 0 j = Some (Some 1%nat);
  sound_first : forall n, nodes s !! 2%nat = Some n -> key n <> "";
  sound_size :
    (0 <= size s < 2 ^ 32)%Z /\ (heapWeight (nodes s) <= size s)%Z;
  sound_chain :
    exists c l,
      link (nodes s) 0 0 = Some c
      /\ chain (nodes s) (Some 1%nat) c l
      /\ forall a : nat, (2 <= a < length (nodes s))%nat -> In a (map fst l)
}.

Lemma link_new_head (j : nat) :
  link (nodes NewSkipList) 0 j = replicate maxHeight (Some 1%nat) !! j.
Proof. reflexivity. Qed.

Lemma link_new_tail (j : nat) :
  link (nodes NewSkipList) 1 j = replicate maxHeight None !! j.
Proof. reflexivity. Qed.

Lemma sound_NewSkipList : sound NewSkipList.
Proof.
  constructor; try reflexivity.
  - eexists. split; reflexivity.
  - eexists. split; reflexivity.
  - intros a j q Ha Hq. destruct a as [ | [ | a]]; try contradiction.
    + rewrite link_new_head in Hq.
      apply lookup_replicate in Hq as [-> _]. exists 1%nat.
      split; [reflexivity | simpl; lia].
    + discriminate.
  - intros j q Hq. rewrite link_new_tail in Hq.
    now apply lookup_replicate in Hq as [-> _].
  - intros _ j Hj. rewrite link_new_head. now apply lookup_replicate_2.
  - discriminate.
  - split; [split; [reflexivity | reflexivity] | ].
    vm_compute. discriminate.
  - exists (Some 1%nat), []. split; [reflexivity | ].
    split; [constructor | ]. simpl. intros a Ha. lia.
Qed.

Lemma sound_length s : sound s -> (2 <= length (nodes s))%nat.
Proof.
  intros Hs. destruct (sound_tailKey s Hs) as (tl & Htl & _).
  apply lookup_lt_Some in Htl. lia.
Qed.

(** A counter of zero bytes means that the list has no node but its
    sentinels. *)
Lemma sound_size_zero s : sound s -> size s = 0%Z -> length (nodes s) = 2%nat.
Proof.
  intros Hs Hz. pose proof (sound_length s Hs) as Hlen.
  destruct (decide (length (nodes s) = 2%nat)) as [ | Hne]; [assumption | ].
  destruct (lookup_lt_is_Some_2 (nodes s) 2 ltac:(lia)) as [n Hn].
  pose proof (sound_first s Hs n Hn) as Hk.
  pose proof (heapWeight_lookup _ _ _ Hn) as Hw.
  destruct (sound_size s Hs) as (_ & Hle).
  assert (1 <= weight n)%Z.
  { unfold weight, keyLen. pose proof (weight_nonneg n).
    destruct (key n) as [ | ch k']; [contradiction | ].
    unfold Go.len. destruct (val n); simpl String.length; lia. }
  lia.
Qed.

Lemma sound_fullHead s : sound s -> fullHead s.
Proof.
  intros Hs. destruct (sound_headFull s Hs) as (hd & Hhd & Hlen).
  exists 0%nat, hd. rewrite (sound_head s Hs). repeat split; try assumption.
  rewrite Hlen. unfold maxHeight. lia.
Qed.

Lemma len_nonneg (v : bytes) : (0 <= Go.len v)%Z.
Proof. unfold Go.len. destruct v; lia. Qed.

Lemma keyLen_nonneg (k : string) : (0 <= keyLen k)%Z.
Proof. unfold keyLen. lia. Qed.

(** The branch for a tombstone changes the counters only. *)
Lemma sound_counted (s : Skiplist) (v : bytes) :
  sound s ->
  (size s + Go.len v < 2 ^ 32)%Z ->
  sound (mkSkiplist (nodes s) (head s) (tail s) (u32 (len s + 1))
           (u32 (size s + u32 (Go.len v)))).
Proof.
  intros Hs Hfit. destruct (sound_size s Hs) as ((Hs0 & Hs1) & Hw).
  pose proof (len_nonneg v) as Hv.
  constructor; simpl; try apply Hs.
  rewrite (u32_small (Go.len v)) by lia. rewrite u32_small by lia. lia.
Qed.

(** The branch for a live node writes one value. *)
Lemma sound_overwritten (s : Skiplist) (a : nat) (n : node (list byte))
  (old : list byte) (v : bytes) :
  sound s ->
  nodes s !! a = Some n ->
  val n = Some old ->
  (size s + Go.len v < 2 ^ 32)%Z ->
  sound (mkSkiplist (<[a := mkNode (nexts n) (key n) v]> (nodes s))
           (head s) (tail s) (len s)
           (u32 (u32 (size s - u32 (Go.len (Some old))) + u32 (Go.len v)))).
Proof.
  intros Hs Ha Hold Hfit. destruct (sound_size s Hs) as ((Hs0 & Hs1) & Hw).
  pose proof (len_nonneg v) as Hv.
  pose proof (len_nonneg (Some old)) as Ho.
  pose proof (heapWeight_lookup _ _ _ Ha) as Hwa.
  pose proof (keyLen_nonneg (key n)) as Hkn.
  assert (Hlink : forall a' j,
            link (<[a := mkNode (nexts n) (key n) v]> (nodes s)) a' j
            = link (nodes s) a' j).
  { intros a' j. now apply link_setVal. }
  assert (Hat : forall a' m,
            nodes s !! a' = Some m ->
            exists m', <[a := mkNode (nexts n) (key n) v]> (nodes s) !! a'
                       = Some m'
                       /\ key m' = key m /\ nexts m' = nexts m).
  { intros a' m Hm. destruct (decide (a' = a)) as [-> | Hne].
    - rewrite list_lookup_insert_eq by now apply lookup_lt_Some in Ha.
      rewrite Ha in Hm. injection Hm as <-. eexists. split; [reflexivity | ].
      split; reflexivity.
    - rewrite list_lookup_insert_ne by congruence. exists m. auto. }
  constructor; cbn [nodes head tail size].
  - apply Hs.
  - apply Hs.
  - destruct (sound_headFull s Hs) as (hd & Hhd & Hlen).
    destruct (Hat _ _ Hhd) as (m' & Hm' & _ & Hnx). exists m'.
    split; [assumption | congruence].
  - destruct (sound_tailKey s Hs) as (tl & Htl & Hk).
    destruct (Hat _ _ Htl) as (m' & Hm' & Hk' & _). exists m'.
    split; [assumption | congruence].
  - intros a' j q Hne Hq. rewrite Hlink in Hq. rewrite length_insert.
    exact (sound_linked s Hs a' j q Hne Hq).
  - intros j q Hq. rewrite Hlink in Hq. exact (sound_tailNil s Hs j q Hq).
  - rewrite length_insert. intros Hlen j Hj. rewrite Hlink.
    now apply (sound_empty s Hs).
  - intros m Hm. destruct (lookup_lt_is_Some_2 (nodes s) 2) as [m0 Hm0].
    { apply lookup_lt_Some in Hm. now rewrite length_insert in Hm. }
    destruct (Hat _ _ Hm0) as (m' & Hm' & Hk' & _).
    rewrite Hm in Hm'. injection Hm' as <-. rewrite Hk'.
    now apply (sound_first s Hs).
  - assert (Hwn : weight n = (keyLen (key n) + Go.len (Some old))%Z)
      by (unfold weight; now rewrite Hold).
    rewrite (u32_small (Go.len (Some old))) by lia.
    rewrite (u32_small (size s - _)) by lia.
    rewrite (u32_small (Go.len v)) by lia.
    rewrite u32_small by lia.
    rewrite (heapWeight_insert _ _ _ _ Ha). unfold weight at 2.
    cbn [key val]. lia.
  - destruct (sound_chain s Hs) as (c & l & Hc0 & Hc & Hcover).
    destruct (chain_ext _ (<[a := mkNode (nexts n) (key n) v]> (nodes s))
                _ _ _ Hc) as (l' & Hl' & Hfst).
    { intros a' _. apply Hlink. }
    exists c, l'. rewrite Hlink, Hfst, length_insert. auto.
Qed.

(** The bounds that a search returns on a sound list. *)
Lemma sound_neighbours (s : Skiplist) (k : string) (lb rb : list ptr) :
  sound s ->
  searchBounds s k = Ok (lb, rb) ->
  forall j : nat, (j < maxHeight)%nat ->
    exists (a : nat) (r : ptr),
      lb !! j = Some (Some a) /\ rb !! j = Some r
      /\ a <> 1%nat /\ link (nodes s) a j = Some r.
Proof.
  intros Hs Hb j Hj. unfold searchBounds in Hb.
  rewrite (sound_head s Hs), (sound_tail s Hs) in Hb.
  apply searchBoundsIn_neighbours in Hb as (_ & _ & Hnb).
  - destruct (Hnb j Hj) as (l & r & Hl & Hr & a & -> & Hne & Hlink).
    exists a, r. auto.
  - discriminate.
  - apply Hs.
  - apply Hs.
  - intros Hz. apply Z.eqb_eq in Hz.
    apply (sound_empty s Hs). now apply sound_size_zero.
Qed.

(** On a list without nodes, a search that finds nothing was not for the
    empty key, which the tail sentinel carries. *)
Lemma sound_empty_miss (s : Skiplist) (k : string) (lb rb : list ptr) :
  sound s ->
  length (nodes s) = 2%nat ->
  searchBounds s k = Ok (lb, rb) ->
  searchWithBounds s k lb rb = Ok None ->
  k <> "".
Proof.
  intros Hs Hlen Hb Hw.
  destruct (sound_neighbours s k lb rb Hs Hb 0%nat)
    as (a & r & Hl & Hr & Hne & Hlink); [unfold maxHeight; lia | ].
  assert (a = 0%nat) as ->.
  { apply link_lt in Hlink. lia. }
  rewrite (sound_empty s Hs Hlen 0%nat) in Hlink by (unfold maxHeight; lia).
  injection Hlink as <-.
  destruct (sound_tailKey s Hs) as (tl & Htl & Hk).
  unfold searchWithBounds, searchWithBoundsIn in Hw.
  rewrite (sound_head s Hs) in Hw.
  apply index_Ok in Hl, Hr. rewrite Hl in Hw. cbn [bind] in Hw.
  simpl in Hw. rewrite Hr in Hw. cbn [bind] in Hw. simpl in Hw.
  rewrite Htl in Hw. simpl in Hw. rewrite Hk in Hw.
  intros ->. simpl in Hw. discriminate.
Qed.

(** The insert branch links one more node into every layer it reaches. *)
Lemma sound_inserted (s : Skiplist) (k : string) (v : bytes)
  (lb rb : list ptr) (hgt : nat) h' :
  sound s ->
  searchBounds s k = Ok (lb, rb) ->
  searchWithBounds s k lb rb = Ok None ->
  (1 <= hgt <= maxHeight)%nat ->
  splice hgt 0 (nodes s ++ [newNode k v hgt]) (Some (length (nodes s))) lb rb
  = Ok h' ->
  (size s + keyLen k + Go.len v < 2 ^ 32)%Z ->
  sound (mkSkiplist h' (head s) (tail s) (u32 (len s + 1))
           (u32 (size s + u32 (keyLen k + Go.len v)))).
Proof.
  intros Hs Hb Hw Hhgt Hsp Hfit.
  set (h := nodes s) in *. set (b := length h) in *.
  pose proof (sound_length s Hs) as Hlen2. fold h b in Hlen2.
  pose proof (sound_neighbours s k lb rb Hs Hb) as Hnb. fold h in Hnb.
  pose proof (splice_sameFrame _ _ _ _ _ _ _ Hsp) as Hframe.
  destruct (splice_link b lb rb hgt 0 _ _ Hsp) as (Hlen & Hin & Hout).
  { intros j Hj [= E].
    destruct (Hnb j ltac:(lia)) as (a & r & Hl & _ & _ & Hlink).
    rewrite Hl in E. injection E as ->. apply link_lt in Hlink.
    unfold b in Hlink. lia. }
  rewrite length_app in Hlen. simpl in Hlen. fold b in Hlen.
  assert (Hold : forall a j, (a < b)%nat ->
            link (h ++ [newNode k v hgt]) a j = link h a j).
  { intros a j Ha. now apply link_app_l. }
  assert (Hnew : forall j, link (h ++ [newNode k v hgt]) b j
                           = replicate hgt None !! j).
  { intros j. unfold b. now rewrite link_app_new. }
  assert (Hkeep : forall a m, h !! a = Some m ->
            exists m', h' !! a = Some m' /\ key m' = key m
                       /\ val m' = val m
                       /\ length (nexts m') = length (nexts m)).
  { intros a m Hm. eapply sameFrame_lookup; [exact Hframe | ].
    now apply lookup_app_l_Some. }
  destruct (sound_size s Hs) as ((Hs0 & Hs1) & Hwt).
  pose proof (len_nonneg v) as Hv. pose proof (keyLen_nonneg k) as Hk.
  constructor; cbn [nodes head tail size].
  - apply Hs.
  - apply Hs.
  - destruct (sound_headFull s Hs) as (hd & Hhd & Hl).
    destruct (Hkeep _ _ Hhd) as (m' & Hm' & _ & _ & Hl'). exists m'.
    split; [assumption | congruence].
  - destruct (sound_tailKey s Hs) as (tl & Htl & Hkt).
    destruct (Hkeep _ _ Htl) as (m' & Hm' & Hk' & _). exists m'.
    split; [assumption | congruence].
  - (* links lead to nodes *)
    intros a j q Hne Hq. rewrite Hlen.
    assert (Hweak : forall a0 q0, a0 <> 1%nat -> link h a0 j = Some q0 ->
              exists c, q0 = Some c /\ (c < b + 1)%nat).
    { intros a0 q0 Ha0 Hq0.
      destruct (sound_linked s Hs a0 j q0 Ha0 Hq0) as (c & -> & Hc).
      exists c. fold h b in Hc. split; [reflexivity | lia]. }
    destruct (Nat.lt_ge_cases j hgt) as [Hj | Hj].
    + rewrite Hin in Hq by lia.
      destruct (Hnb j ltac:(lia)) as (al & r & Hl & Hr & Hal & Hlink).
      destruct (decide (a = b)) as [-> | Hab].
      * rewrite Hr in Hq. injection Hq as <-. now apply (Hweak al).
      * destruct (decide (lb !! j = Some (Some a))) as [_ | _].
        -- injection Hq as <-. exists b. split; [reflexivity | lia].
        -- pose proof (link_lt _ _ _ _ Hq) as Ha.
           rewrite length_app in Ha. simpl in Ha. fold b in Ha.
           rewrite Hold in Hq by lia. now apply (Hweak a).
    + rewrite Hout in Hq by lia.
      pose proof (link_lt _ _ _ _ Hq) as Ha.
      rewrite length_app in Ha. simpl in Ha. fold b in Ha.
      destruct (decide (a = b)) as [-> | Hab].
      * rewrite Hnew in Hq. apply lookup_replicate in Hq as [_ Hq]. lia.
      * rewrite Hold in Hq by lia. now apply (Hweak a).
  - (* the tail keeps its nil links *)
    intros j q Hq.
    assert (Hb1 : (1 <> b)%nat) by lia.
    assert (Hq' : link h 1 j = Some q);
      [ | exact (sound_tailNil s Hs j q Hq')].
    destruct (Nat.lt_ge_cases j hgt) as [Hj | Hj].
    + rewrite Hin in Hq by lia.
      rewrite decide_False in Hq by assumption.
      destruct (Hnb j ltac:(lia)) as (al & r & Hl & _ & Hal & _).
      rewrite decide_False in Hq by (rewrite Hl; congruence).
      rewrite Hold in Hq by lia. exact Hq.
    + rewrite Hout in Hq by lia. rewrite Hold in Hq by lia. exact Hq.
  - intros E. lia.
  - (* the first node has a key *)
    intros m Hm. destruct (decide (b = 2%nat)) as [Hb2 | Hb2].
    + assert (Hk0 : k <> "").
      { eapply sound_empty_miss; eauto. }
      assert (Hn0 : (h ++ [newNode k v hgt]) !! 2%nat
                    = Some (newNode k v hgt)).
      { rewrite lookup_app_r by (fold b; lia). fold b. rewrite Hb2.
        reflexivity. }
      destruct (sameFrame_lookup _ _ _ _ Hframe Hn0) as (m' & Hm' & Hk' & _).
      rewrite Hm in Hm'. injection Hm' as <-. now rewrite Hk'.
    + destruct (lookup_lt_is_Some_2 h 2 ltac:(fold b; lia)) as [m0 Hm0].
      destruct (Hkeep _ _ Hm0) as (m' & Hm' & Hk' & _).
      rewrite Hm in Hm'. injection Hm' as <-. rewrite Hk'.
      now apply (sound_first s Hs).
  - (* the byte count covers the nodes *)
    rewrite (u32_small (keyLen k + Go.len v)) by lia.
    rewrite u32_small by lia.
    rewrite <- (heapWeight_sameFrame _ _ Hframe), heapWeight_app.
    unfold weight. simpl. unfold weight. simpl. fold h in Hwt. lia.
  - (* the level-0 links still reach every node *)
    destruct (sound_chain s Hs) as (c & l & Hc0 & Hc & Hcover).
    fold h in Hc0, Hc, Hcover. fold b in Hcover.
    destruct (Hnb 0%nat ltac:(unfold maxHeight; lia))
      as (ca & r0 & Hl0 & Hr0 & Hca & Hlink0).
    pose proof (link_lt _ _ _ _ Hlink0) as Hcab. fold b in Hcab.
    assert (H0b : link h' b 0 = Some r0).
    { rewrite Hin by lia. now rewrite decide_True. }
    assert (H0ca : link h' ca 0 = Some (Some b)).
    { rewrite Hin by lia. rewrite decide_False by lia.
      now rewrite decide_True. }
    assert (H0other : forall a, (a < b)%nat -> a <> ca ->
              link h' a 0 = link h a 0).
    { intros a Ha Hne. rewrite Hin by lia. rewrite decide_False by lia.
      rewrite decide_False by (rewrite Hl0; congruence).
      now apply Hold. }
    assert (Hinb : forall a, In a (map fst l) -> (a < b)%nat).
    { intros a Ha. exact (chain_in_heap _ _ _ _ _ Hc Ha). }
    assert (Hbt : Some b <> Some 1%nat) by (intros [= E]; lia).
    destruct (decide (ca = 0%nat)) as [-> | Hca0].
    + (* in front of the first node *)
      rewrite Hc0 in Hlink0. injection Hlink0 as <-.
      assert (Hfresh : ~ In 0%nat (map fst l)).
      { apply (chain_start_fresh h (Some 1%nat) 0 c l Hc0); [ | exact Hc].
        discriminate. }
      destruct (chain_ext h h' _ _ _ Hc) as (l' & Hl' & Hfst).
      { intros a Ha. apply H0other; [now apply Hinb | ].
        intros ->. contradiction. }
      apply link_Some in H0b as (nb & Hnb' & Hqb).
      exists (Some b), ((b, nb) :: l'). split; [assumption | ]. split.
      * now apply chain_step with (q := c).
      * intros a Ha. simpl. rewrite Hfst.
        destruct (decide (a = b)) as [-> | Hab]; [now left | right].
        apply Hcover. lia.
    + (* behind a node of the list *)
      assert (Hcain : In ca (map fst l)) by (apply Hcover; lia).
      destruct (chain_insert_after h h' (Some 1%nat) ca b r0 c l Hc Hcain
                  Hlink0 H0ca H0b Hbt) as (l' & Hl' & Hmem).
      { intros a Ha Hne. apply H0other; [now apply Hinb | assumption]. }
      exists c, l'. split.
      { rewrite H0other by lia. assumption. }
      split; [assumption | ].
      intros a Ha. apply Hmem.
      destruct (decide (a = b)) as [-> | Hab]; [now left | right].
      apply Hcover. lia.
Qed.

(** Whatever branch it takes, an [Update] that returns leaves a sound
    list. *)
Lemma Update_sound (g g' : Rand.source) (s s' : Skiplist) (k : string)
  (v : bytes) (b : bool) :
  sound s ->
  (size s + keyLen k + Go.len v < 2 ^ 32)%Z ->
  Update g s k v = Ok (b, s', g') ->
  sound s'.
Proof.
  intros Hs Hfit HU. unfold Update in HU.
  pose proof (keyLen_nonneg k) as Hk. pose proof (len_nonneg v) as Hv.
  destruct (searchBounds s k) as [[lb rb] | f | ] eqn:Hb;
    cbn [bind] in HU; try discriminate.
  destruct (searchWithBounds s k lb rb) as [[a | ] | f | ] eqn:Hw;
    cbn [bind] in HU; try discriminate.
  - cbn [deref] in HU.
    destruct (nodes s !! a) as [n | ] eqn:Ha; cbn [bind] in HU;
      try discriminate.
    destruct (val n) as [old | ] eqn:Hold.
    + rewrite (setVal_Ok _ _ _ _ Ha) in HU. cbn [bind] in HU.
      injection HU as _ <- _.
      apply (sound_overwritten s a n old v Hs Ha Hold). lia.
    + injection HU as _ <- _. apply sound_counted; [assumption | lia].
  - pose proof (liftLayers_range g) as Hrange.
    destruct (liftLayers g) as [layerNum g1]. cbn [fst] in Hrange.
    unfold alloc in HU.
    destruct (splice layerNum 0 (nodes s ++ [newNode k v layerNum])
                (Some (length (nodes s))) lb rb) as [h' | f | ] eqn:Hsp;
      cbn [bind] in HU; try discriminate.
    injection HU as _ <- _.
    exact (sound_inserted s k v lb rb layerNum h' Hs Hb Hw Hrange Hsp Hfit).
Qed.

(** *** The memtables that calls build

    A memtable starts empty and is changed by [Update], [Delete] and
    [popSkiplist]. A pair is small when, added to a generation that the
    rotation test has left in place, it keeps the byte count of that
    generation within uint32. *)
Definition small (threshold : Z) (k : string) (v : bytes) : Prop :=
  (0 <= threshold)%Z /\ (threshold + keyLen k + Go.len v < 2 ^ 32)%Z.

Inductive reachable (threshold : Z) : memtable -> Prop :=
| reachable_new : reachable threshold NewMemtable
| reachable_update (g g' : Rand.source) (mt mt' : memtable) (k : string)
    (v : bytes) (b : bool) :
    reachable threshold mt ->
    small threshold k v ->
    memtableUpdateAt threshold g mt k v = Ok (b, mt', g') ->
    reachable threshold mt'
| reachable_delete (g g' : Rand.source) (mt mt' : memtable) (k : string)
    (b : bool) :
    reachable threshold mt ->
    small threshold k None ->
    memtableDeleteAt threshold g mt k = Ok (b, mt', g') ->
    reachable threshold mt'
| reachable_pop (mt : memtable) :
    reachable threshold mt ->
    reachable threshold (popSkiplist mt).

(** After the rotation test the newest generation is below the threshold
    or new. *)
Lemma rotate_sound (threshold : Z) (mt : memtable) :
  (0 <= threshold)%Z ->
  Forall sound (skiplists mt) ->
  exists s rest,
    skiplists (rotate threshold mt) = s :: rest
    /\ sound s /\ Forall sound rest /\ (size s <= threshold)%Z.
Proof.
  intros Ht Hall. unfold rotate.
  assert (Hnew : exists s rest,
             skiplists (newSkiplist mt) = s :: rest
             /\ sound s /\ Forall sound rest /\ (size s <= threshold)%Z).
  { exists NewSkipList, (skiplists mt).
    split; [reflexivity | ]. split; [apply sound_NewSkipList | ].
    split; [assumption | simpl; lia]. }
  destruct (skiplists mt) as [ | st rest] eqn:E; [exact Hnew | ].
  destruct (Z.leb_spec threshold (GetSize st)) as [_ | Hlt]; [exact Hnew | ].
  apply Forall_cons in Hall as [Hst Hrest].
  exists st, rest. rewrite E.
  split; [reflexivity | ]. split; [assumption | ]. split; [assumption | ].
  destruct (sound_size st Hst) as (Hrange & _).
  unfold GetSize in Hlt. rewrite u32_small in Hlt by assumption. lia.
Qed.

Lemma updateNewest_sound (threshold : Z) (g g' : Rand.source)
  (mt mt' : memtable) (k : string) (v : bytes) (b : bool) :
  small threshold k v ->
  Forall sound (skiplists mt) ->
  updateNewest g (rotate threshold mt) k v = Ok (b, mt', g') ->
  Forall sound (skiplists mt').
Proof.
  intros [Ht Hsmall] Hall HU.
  destruct (rotate_sound threshold mt Ht Hall)
    as (s & rest & E & Hs & Hrest & Hsz).
  unfold updateNewest in HU. rewrite E in HU. cbn [index bind] in HU.
  simpl in HU.
  destruct (Update g s k v) as [[[b1 s1] g1] | f | ] eqn:HUp;
    cbn [bind] in HU; try discriminate.
  injection HU as _ <- _. cbn [skiplists]. simpl.
  apply Forall_cons. split; [ | assumption].
  apply (Update_sound g g1 s s1 k v b1 Hs); [lia | assumption].
Qed.

(** Every generation of a memtable that calls have built is sound. *)
Lemma reachable_sound (threshold : Z) (mt : memtable) :
  reachable threshold mt -> Forall sound (skiplists mt).
Proof.
  induction 1 as [ | g g' mt mt' k v b _ IH Hsmall HU
                   | g g' mt mt' k b _ IH Hsmall HU
                   | mt _ IH].
  - constructor.
  - unfold memtableUpdateAt in HU. destruct v as [bs | ]; [ | discriminate].
    exact (updateNewest_sound threshold g g' mt mt' k (Some bs) b
             Hsmall IH HU).
  - exact (updateNewest_sound threshold g g' mt mt' k None b Hsmall IH HU).
  - unfold popSkiplist.
    destruct (length (skiplists mt) =? 0)%nat; [assumption | ].
    cbn [skiplists]. now apply Forall_take.
Qed.

Lemma rotate_keeps_sound (threshold : Z) (mt : memtable) :
  Forall sound (skiplists mt) ->
  Forall sound (skiplists (rotate threshold mt)).
Proof.
  intros Hall. unfold rotate.
  assert (Hnew : Forall sound (skiplists (newSkiplist mt))).
  { apply Forall_cons. split; [apply sound_NewSkipList | assumption]. }
  destruct (skiplists mt) as [ | st rest] eqn:E; [exact Hnew | ].
  destruct (threshold <=? GetSize st)%Z; [exact Hnew | ].
  now rewrite E.
Qed.

Lemma chain_lookup h tl c l (a : nat) (n : node (list byte)) :
  chain h tl c l -> In (a, n) l -> h !! a = Some n.
Proof.
  induction 1 as [ | b m q l Hne Hb Hq Hc IH]; simpl; intros Hin.
  - contradiction.
  - destruct Hin as [[= <- <-] | Hin]; [assumption | now apply IH].
Qed.

(** [frozenWithTombstone] is built by three calls. *)
Lemma reachable_frozenWithTombstone : reachable 3 frozenWithTombstone.
Proof.
  destruct frozenWithTombstone_history
    as (g1 & g2 & g3 & mt1 & mt2 & H1 & H2 & H3).
  apply (reachable_delete 3 g2 g3 mt2 frozenWithTombstone "zz" true);
    [ | split; [lia | vm_compute; reflexivity] | exact H3].
  apply (reachable_delete 3 g1 g2 mt1 mt2 "a" true);
    [ | split; [lia | vm_compute; reflexivity] | exact H2].
  apply (reachable_update 3 (Rand.ofList []) g1 NewMemtable mt1 "b" (B "2")
           true);
    [ | split; [lia | vm_compute; reflexivity] | exact H1].
  apply reachable_new.
Qed.

(** X25. For every memtable that calls of [Update], [Delete] and
    [popSkiplist] have built from small pairs: with at least two
    generations it hands out an iterator over the oldest one, the level-0
    links of that generation lead from the head through a list [l] of
    nodes to the tail sentinel, and the consumer's loop returns with one
    pair for every node of [l], in link order: the node's key with
    [string(val)]. Every node of the generation other than its two
    sentinels is in [l], once. No node is passed over for its value: a
    tombstone is emitted, with the empty string that the nil slice
    converts to. *)
Theorem oldest_iterator_emits_every_node (threshold : Z) (mt : memtable) :
  reachable threshold mt ->
  (2 <= length (skiplists mt))%nat ->
  exists s it hd c l,
    last (skiplists mt) = Some s
    /\ getLastIterator mt = Ok (Some it)
    /\ deref (nodes s) (head s) = Ok hd
    /\ nexts hd !! 0%nat = Some c
    /\ chain (nodes s) (tail s) c l
    /\ collect it = Ok (map (fun an => entry (snd an)) l)
    /\ (forall a n, nodes s !! a = Some n ->
          Some a <> head s -> Some a <> tail s -> In (a, n) l)
    /\ List.NoDup (map fst l)
    /\ (forall a n, In (a, n) l -> val n = None ->
        exists i : nat,
          l !! i = Some (a, n)
          /\ map (fun an => entry (snd an)) l !! i = Some (key n, "")).
Proof.
  intros Hreach Hlen.
  pose proof (reachable_sound threshold mt Hreach) as Hall.
  destruct (last (skiplists mt)) as [s | ] eqn:Hlast.
  2:{ apply last_None in Hlast. rewrite Hlast in Hlen. simpl in Hlen. lia. }
  assert (Hs : sound s).
  { rewrite Forall_forall in Hall. apply Hall.
    rewrite last_lookup in Hlast. now apply list_elem_of_lookup_2 in Hlast. }
  destruct (sound_chain s Hs) as (c & l & Hc0 & Hc & Hcover).
  apply link_Some in Hc0 as (hd & Hhd & Hq).
  assert (Hd : deref (nodes s) (head s) = Ok hd).
  { rewrite (sound_head s Hs). simpl. now rewrite Hhd. }
  rewrite <- (sound_tail s Hs) in Hc.
  destruct (iterator_follows_chain mt s hd c l Hlen Hlast Hd Hq Hc)
    as (it & Hit & Hcol & Htomb).
  exists s, it, hd, c, l.
  split; [reflexivity | ]. split; [assumption | ]. split; [assumption | ].
  split; [assumption | ]. split; [assumption | ]. split; [assumption | ].
  split; [ | split; [exact (chain_NoDup _ _ _ _ Hc) | assumption]].
  intros a n Ha Hh Ht.
  rewrite (sound_head s Hs) in Hh. rewrite (sound_tail s Hs) in Ht.
  assert (Hin : In a (map fst l)).
  { apply Hcover. apply lookup_lt_Some in Ha.
    destruct a as [ | [ | a]]; [congruence | congruence | lia]. }
  apply in_map_iff in Hin as ([a' n'] & E & Hin). simpl in E. subst a'.
  rewrite (chain_lookup _ _ _ _ _ _ Hc Hin) in Ha. now injection Ha as <-.
Qed.

Lemma oldest_iterator_emits_every_node_witness :
  exists s it hd c l,
    last (skiplists frozenWithTombstone) = Some s
    /\ getLastIterator frozenWithTombstone = Ok (Some it)
    /\ deref (nodes s) (head s) = Ok hd
    /\ nexts hd !! 0%nat = Some c
    /\ chain (nodes s) (tail s) c l
    /\ collect it = Ok (map (fun an => entry (snd an)) l)
    /\ (forall a n, nodes s !! a = Some n ->
          Some a <> head s -> Some a <> tail s -> In (a, n) l)
    /\ List.NoDup (map fst l)
    /\ (forall a n, In (a, n) l -> val n = None ->
        exists i : nat,
          l !! i = Some (a, n)
          /\ map (fun an => entry (snd an)) l !! i = Some (key n, "")).
Proof.
  apply (oldest_iterator_emits_every_node 3 frozenWithTombstone).
  - exact reachable_frozenWithTombstone.
  - simpl. lia.
Defined.

(** The order of the level-0 links is not always the order of the keys.
    A first tower of height 16 becomes the right bound of every later
    search ([searchBounds] seeds [rightBounds[15]] with [head.nexts[15]]),
    so the next key is linked in front of it whatever it is. *)
Definition tallFirst : Rand.source := Rand.ofList (repeat 1%Z 15).

Example tallFirst_heights :
  fst (liftLayers tallFirst) = 16%nat
  /\ fst (liftLayers (snd (liftLayers tallFirst))) = 1%nat.
Proof. split; vm_compute; reflexivity. Qed.

Definition unsortedGeneration : Skiplist :=
  mkSkiplist
    [ mkNode (Some 3%nat :: replicate 15 (Some 2%nat)) "" None;
      mkNode (replicate maxHeight None) "" None;
      mkNode (replicate maxHeight (Some 1%nat)) "a" (B "1");
      mkNode [Some 2%nat] "b" (B "2") ]
    (Some 0%nat) (Some 1%nat) 2 4.

Definition unsortedMemtable : memtable :=
  mkMemtable [freshWritten "c" (B "3") 1; unsortedGeneration].

(** It is what [Update("a","1")], [Update("b","2")], [Update("c","3")]
    build with a threshold of 4 bytes when the first tower gets height 16. *)
Example unsortedMemtable_history :
  exists g1 g2 g3 mt1 mt2,
    memtableUpdateAt 4 tallFirst NewMemtable "a" (B "1") = Ok (true, mt1, g1)
    /\ memtableUpdateAt 4 g1 mt1 "b" (B "2") = Ok (true, mt2, g2)
    /\ memtableUpdateAt 4 g2 mt2 "c" (B "3")
       = Ok (true, unsortedMemtable, g3).
Proof.
  do 5 eexists.
  split; [vm_compute; reflexivity | ].
  split; [vm_compute; reflexivity | ].
  vm_compute. reflexivity.
Qed.

Lemma reachable_unsortedMemtable : reachable 4 unsortedMemtable.
Proof.
  destruct unsortedMemtable_history
    as (g1 & g2 & g3 & mt1 & mt2 & H1 & H2 & H3).
  apply (reachable_update 4 g2 g3 mt2 unsortedMemtable "c" (B "3") true);
    [ | split; [lia | vm_compute; reflexivity] | exact H3].
  apply (reachable_update 4 g1 g2 mt1 mt2 "b" (B "2") true);
    [ | split; [lia | vm_compute; reflexivity] | exact H2].
  apply (reachable_update 4 tallFirst g1 NewMemtable mt1 "a" (B "1") true);
    [ | split; [lia | vm_compute; reflexivity] | exact H1].
  apply reachable_new.
Qed.

(** C9. The oldest-generation iterator does not always yield the keys in
    ascending order. With a threshold of 4 bytes, [Update("a","1")] with a
    tower of height 16, [Update("b","2")] and [Update("c","3")] build a
    memtable of two generations whose older one links "b" in front of
    "a" at level 0; its iterator yields "b" and then "a". *)
Theorem oldest_iterator_not_ascending :
  reachable 4 unsortedMemtable
  /\ length (skiplists unsortedMemtable) = 2%nat
  /\ (exists it,
        getLastIterator unsortedMemtable = Ok (Some it)
        /\ collect it = Ok [("b", "2"); ("a", "1")])
  /\ String.compare "b" "a" = Gt.
Proof.
  split; [exact reachable_unsortedMemtable | ].
  split; [reflexivity | ].
  split; [ | reflexivity].
  exists (mkIterator unsortedGeneration (Some 3%nat)).
  split; vm_compute; reflexivity.
Qed.

(** The newest generation after [Update("a","11")], [Delete("a")] and
    [Update("b","2")] with a threshold of 3 bytes, when the tower of the
    tombstone gets height 16: [Delete] has opened this generation and put
    the tombstone of "a" at address 2, and "b" is linked in front of it. *)
Definition hiddenTombstone : Skiplist :=
  mkSkiplist
    [ mkNode (Some 3%nat :: replicate 15 (Some 2%nat)) "" None;
      mkNode (replicate maxHeight None) "" None;
      mkNode (replicate maxHeight (Some 1%nat)) "a" None;
      mkNode [Some 2%nat] "b" (B "2") ]
    (Some 0%nat) (Some 1%nat) 2 3.

Definition staleMemtable : memtable :=
  mkMemtable [hiddenTombstone; freshWritten "a" (B "11") 1].

Example staleMemtable_history :
  exists g1 g2 g3 mt1 mt2,
    memtableUpdateAt 3 (Rand.ofList []) NewMemtable "a" (B "11")
    = Ok (true, mt1, g1)
    /\ memtableDeleteAt 3 tallFirst mt1 "a" = Ok (true, mt2, g2)
    /\ memtableGet mt2 "a" = Ok (None, true)
    /\ memtableUpdateAt 3 g2 mt2 "b" (B "2") = Ok (true, staleMemtable, g3).
Proof.
  do 5 eexists.
  split; [vm_compute; reflexivity | ].
  split; [vm_compute; reflexivity | ].
  split; vm_compute; reflexivity.
Qed.

Lemma reachable_staleMemtable : reachable 3 staleMemtable.
Proof.
  destruct staleMemtable_history
    as (g1 & g2 & g3 & mt1 & mt2 & H1 & H2 & _ & H3).
  apply (reachable_update 3 g2 g3 mt2 staleMemtable "b" (B "2") true);
    [ | split; [lia | vm_compute; reflexivity] | exact H3].
  apply (reachable_delete 3 tallFirst g2 mt1 mt2 "a" true);
    [ | split; [lia | vm_compute; reflexivity] | exact H2].
  apply (reachable_update 3 (Rand.ofList []) g1 NewMemtable mt1 "a" (B "11")
           true);
    [ | split; [lia | vm_compute; reflexivity] | exact H1].
  apply reachable_new.
Qed.

(** C5. A tombstone in the newest generation does not always hide the
    older value. With a threshold of 3 bytes, [Update("a","11")] fills the
    first generation and [Delete("a")] opens the second one for the
    tombstone of "a"; [Get("a")] then returns nil and found. When the
    tower of that tombstone has height 16, the next [Update("b","2")]
    links "b" in front of it ([searchBounds] seeds the top right bound
    with [head.nexts[15]]), after which [Skiplist.Get] no longer finds
    "a" in the newest generation although its node is there. The loop of
    [memtable.Get] goes on to the older generation and returns the
    deleted value "11" as found. *)
Theorem newer_tombstone_does_not_shadow :
  (exists g1 g2 g3 mt1 mt2,
      memtableUpdateAt 3 (Rand.ofList []) NewMemtable "a" (B "11")
      = Ok (true, mt1, g1)
      /\ memtableDeleteAt 3 tallFirst mt1 "a" = Ok (true, mt2, g2)
      /\ memtableGet mt2 "a" = Ok (None, true)
      /\ memtableUpdateAt 3 g2 mt2 "b" (B "2")
         = Ok (true, staleMemtable, g3))
  /\ reachable 3 staleMemtable
  /\ skiplists staleMemtable
     = [hiddenTombstone; freshWritten "a" (B "11") 1]
  /\ (exists n, nodes hiddenTombstone !! 2%nat = Some n
                /\ key n = "a" /\ val n = None)
  /\ Get hiddenTombstone "a" = Ok None
  /\ memtableGet staleMemtable "a" = Ok (B "11", true).
Proof.
  split; [exact staleMemtable_history | ].
  split; [exact reachable_staleMemtable | ].
  split; [reflexivity | ].
  split; [eexists; split; [reflexivity | split; reflexivity] | ].
  split; vm_compute; reflexivity.
Qed.

(** C10. [memtable.Delete] of a key that the newest generation does not
    hold does not always create a node. On an empty memtable, for every
    threshold and every random source, [Delete("")] returns true and
    counts one entry, but the generation it has opened holds the two
    sentinels and nothing else: the search takes the tail sentinel, whose
    key is the empty string, for the node of the key
    ([searchWithBounds] guards the right bound against the head, not the
    tail), so the branch of [Update] for a node marked as deleted runs
    and no height is drawn. *)
Theorem memtableDelete_empty_key_creates_no_node (threshold : Z)
  (g : Rand.source) :
  exists s',
    memtableDeleteAt threshold g NewMemtable "" = Ok (true, mkMemtable [s'], g)
    /\ nodes s' = nodes NewSkipList
    /\ length (nodes s') = 2%nat
    /\ (forall a n, nodes s' !! a = Some n ->
          Some a = head s' \/ Some a = tail s')
    /\ GetLen s' = 1%Z
    /\ GetSize s' = 0%Z.
Proof.
  exists (mkSkiplist (nodes NewSkipList) (Some 0%nat) (Some 1%nat) 1 0).
  split; [reflexivity | ]. split; [reflexivity | ]. split; [reflexivity | ].
  split; [ | split; reflexivity].
  intros a n Ha. cbn [head tail]. apply lookup_lt_Some in Ha. simpl in Ha.
  destruct a as [ | [ | a]]; [now left | now right | lia].
Qed.

(** With the package's threshold: the memtable after [Delete("zz")] holds
    one generation. *)
Lemma reachable_oneTombstone :
  reachable skipListThreshold (mkMemtable [freshWritten "zz" None 1]).
Proof.
  apply (reachable_delete skipListThreshold (Rand.ofList [])
           (snd (liftLayers (Rand.ofList []))) NewMemtable
           (mkMemtable [freshWritten "zz" None 1]) "zz" true).
  - apply reachable_new.
  - split; vm_compute; [discriminate | reflexivity].
  - vm_compute. reflexivity.
Qed.

(** *** More on the write path *)

(** A search looks at the byte count only to see whether it is zero. *)
Lemma Get_counters (h : heap (list byte)) (hd tl : ptr) (ln ln' sz sz' : Z)
  (k : string) :
  (sz =? 0)%Z = (sz' =? 0)%Z ->
  Get (mkSkiplist h hd tl ln sz) k = Get (mkSkiplist h hd tl ln' sz') k.
Proof.
  intros E. unfold Get, searchBounds, searchWithBounds. cbn [nodes head tail size].
  now rewrite E.
Qed.


Lemma Get_freshWritten (k : string) (v : bytes) (h : nat) :
  In h (seq 1 16) ->
  (0 < keyLen k + Go.len v < 2 ^ 32)%Z ->
  Get (freshWritten k v h) k = Ok (Some 2%nat).
Proof.
  intros Hh Hsz. unfold freshWritten.
  rewrite (Get_counters _ _ _ _ 1 _ 1).
  2:{ rewrite (u32_small (keyLen k + Go.len v)) by lia.
      rewrite u32_small by lia.
      destruct (Z.eqb_spec (0 + (keyLen k + Go.len v)) 0); [lia | reflexivity]. }
  each_height Hh; search_self.
Qed.


(** X5. The first write to an empty memtable, for every threshold, every
    outcome of the sampling, every key other than the empty string and
    every value with which the pair stays below 2^32 bytes: [Update]
    returns true, the memtable has one generation, [Get] of the key returns
    the value as found, and the generation counts one entry and the bytes
    of key and value. *)
Theorem first_write_round_trip (threshold : Z) (g : Rand.source)
  (k : string) (bs : list byte) :
  k <> "" ->
  (keyLen k + Z.of_nat (length bs) < 2 ^ 32)%Z ->
  exists mt,
    memtableUpdateAt threshold g NewMemtable k (Some bs)
    = Ok (true, mt, snd (liftLayers g))
    /\ memtableGet mt k = Ok (Some bs, true)
    /\ map GetLen (skiplists mt) = [1%Z]
    /\ map GetSize (skiplists mt) = [(keyLen k + Z.of_nat (length bs))%Z].
Proof.
  intros Hk Hfit.
  assert (Hpos : (0 < keyLen k)%Z).
  { unfold keyLen. destruct k; [congruence | simpl String.length; lia]. }
  exists (mkMemtable [freshWritten k (Some bs) (fst (liftLayers g))]).
  split; [ | split; [ | split]].
  - unfold memtableUpdateAt.
    change (rotate threshold NewMemtable) with (mkMemtable [NewSkipList]).
    now apply write_on_fresh.
  - unfold memtableGet. cbn [skiplists scan].
    rewrite Get_freshWritten by (try apply height_cases; cbn [Go.len]; lia).
    cbn [bind]. reflexivity.
  - reflexivity.
  - cbn [skiplists map]. unfold GetSize, freshWritten. cbn [size Go.len].
    rewrite u32_idem, u32_add_r, u32_small by lia. f_equal. 
Qed.


Lemma u32_sub_r (a b : Z) : u32 (a - u32 b) = u32 (a - b).
Proof. unfold u32, wrap. apply Zminus_mod_idemp_r. Qed.

(** X6. The first write to an empty memtable loses the empty key. The
    tail sentinel carries the key "", so [Update("", val)] on an empty
    memtable takes the sentinel for the node of the key, which reads as a
    tombstone: the call returns true and counts one entry and [len(val)]
    bytes, allocates no node and draws no height, and drops the value;
    [Get("")] then reports the key as found with a nil value. *)
Theorem empty_key_write_is_dropped (threshold : Z) (g : Rand.source)
  (bs : list byte) :
  exists st,
    memtableUpdateAt threshold g NewMemtable "" (Some bs)
    = Ok (true, mkMemtable [st], g)
    /\ nodes st = nodes NewSkipList
    /\ GetLen st = 1%Z
    /\ GetSize st = u32 (Z.of_nat (length bs))
    /\ memtableGet (mkMemtable [st]) "" = Ok (None, true).
Proof.
  exists (mkSkiplist (nodes NewSkipList) (Some 0%nat) (Some 1%nat)
            (u32 (0 + 1)) (u32 (0 + u32 (Go.len (Some bs))))).
  split; [reflexivity | ]. split; [reflexivity | ]. split; [reflexivity | ].
  split.
  - unfold GetSize. cbn [size Go.len]. now rewrite u32_idem, u32_add_r.
  - unfold memtableGet. cbn [skiplists scan].
    assert (E : Get (mkSkiplist (nodes NewSkipList) (Some 0%nat) (Some 1%nat)
                       (u32 (0 + 1)) (u32 (0 + u32 (Go.len (Some bs))))) ""
                = Ok (Some 1%nat)).
    { destruct (Z.eqb_spec (u32 (0 + u32 (Go.len (Some bs)))) 0) as [Ez | Ez].
      - rewrite (Get_counters _ _ _ _ 0 _ 0);
          [vm_compute; reflexivity | ].
        rewrite Ez. reflexivity.
      - rewrite (Get_counters _ _ _ _ 1 _ 1); [vm_compute; reflexivity | ].
        now apply Z.eqb_neq in Ez as ->. }
    rewrite E. reflexivity.
Qed.

(** X7. [Update] on a key whose node holds a value: the call returns true
    without drawing a height, writes the new value (nil for a deletion)
    into that node and touches no other, leaves the entry count as it is,
    also when the new value is nil, and moves the byte count by the
    difference of the value lengths (in uint32). As long as the byte count
    does not become or cease to be zero, [Get] finds the same node, and
    the memtable returns the new value for the key whatever the older
    generations hold. *)
Theorem Update_overwrites_live (g : Rand.source) (st : Skiplist) (k : string)
  (v : bytes) (a : nat) (n : node (list byte)) (old : list byte) :
  Get st k = Ok (Some a) ->
  nodes st !! a = Some n ->
  val n = Some old ->
  exists st',
    Update g st k v = Ok (true, st', g)
    /\ nodes st' = <[a := mkNode (nexts n) k v]> (nodes st)
    /\ GetLen st' = GetLen st
    /\ GetSize st'
       = u32 (GetSize st - Z.of_nat (length old) + Go.len v)
    /\ ((size st' =? 0)%Z = (size st =? 0)%Z ->
        Get st' k = Ok (Some a)
        /\ forall older,
             memtableGet (mkMemtable (st' :: older)) k = Ok (v, true)).
Proof.
  intros HG Ha Hold.
  destruct (Get_hit _ _ _ HG) as (n0 & Hn0 & Hk).
  rewrite Ha in Hn0. injection Hn0 as <-.
  exists (mkSkiplist (<[a := mkNode (nexts n) (key n) v]> (nodes st))
            (head st) (tail st) (len st)
            (u32 (u32 (size st - u32 (Go.len (Some old)))
                  + u32 (Go.len v)))).
  split; [ | split; [ | split; [ | split]]].
  - unfold Update. unfold Get in HG.
    destruct (searchBounds st k) as [[lb rb] | f | ]; cbn [bind] in *;
      try discriminate.
    rewrite HG. cbn [bind deref]. rewrite Ha. cbn [bind]. rewrite Hold.
    rewrite (setVal_Ok _ _ _ _ Ha). reflexivity.
  - cbn [nodes]. now rewrite Hk.
  - reflexivity.
  - unfold GetSize. cbn [size Go.len].
    rewrite u32_idem, u32_add_r, u32_add_l.
    replace (size st - u32 (Z.of_nat (length old)) + Go.len v)%Z
      with (size st + Go.len v - u32 (Z.of_nat (length old)))%Z by lia.
    rewrite u32_sub_r.
    replace (u32 (size st) - Z.of_nat (length old) + Go.len v)%Z
      with (u32 (size st) + (Go.len v - Z.of_nat (length old)))%Z by lia.
    rewrite u32_add_l. f_equal. lia.
  - intros Hz.
    assert (HG' : Get (mkSkiplist
                         (<[a := mkNode (nexts n) (key n) v]> (nodes st))
                         (head st) (tail st) (len st)
                         (u32 (u32 (size st - u32 (Go.len (Some old)))
                               + u32 (Go.len v)))) k = Ok (Some a)).
    { rewrite <- HG. unfold Get, searchBounds, searchWithBounds.
      cbn [nodes head tail size] in *. rewrite Hz.
      pose proof (sameShape_setVal (nodes st) a n v Ha) as Hs.
      rewrite <- (searchBoundsIn_shape _ _ _ _ _ _ Hs).
      destruct (searchBoundsIn (nodes st) (head st) (tail st) _ k)
        as [[lb rb] | f | ]; cbn [bind]; try reflexivity.
      symmetry. now apply searchWithBoundsIn_shape. }
    split; [exact HG' | ]. intros older.
    unfold memtableGet. cbn [skiplists scan]. rewrite HG'.
    cbn [bind deref nodes].
    rewrite list_lookup_insert_eq by (now apply lookup_lt_Some in Ha).
    reflexivity.
Qed.



(** What a write does to the list of generations. *)
Lemma updateNewest_generations (threshold : Z) (g g' : Rand.source)
  (mt mt' : memtable) (k : string) (v : bytes) (b : bool) :
  updateNewest g (rotate threshold mt) k v = Ok (b, mt', g') ->
  exists s s' rest,
    skiplists (rotate threshold mt) = s :: rest
    /\ Update g s k v = Ok (b, s', g')
    /\ skiplists mt' = s' :: rest
    /\ ((s = NewSkipList /\ rest = skiplists mt
         /\ forall s0 rest0, skiplists mt = s0 :: rest0 ->
                             (threshold <= GetSize s0)%Z)
        \/ (skiplists mt = s :: rest /\ (GetSize s < threshold)%Z)).
Proof.
  intros HU. unfold updateNewest in HU.
  apply bind_Ok in HU as (s & Hs & HU). apply index_Ok in Hs.
  destruct (Update g s k v) as [[[b1 s1] g1] | f | ] eqn:HUp;
    cbn [bind] in HU; try discriminate.
  injection HU as <- <- <-.
  destruct (skiplists (rotate threshold mt)) as [ | s0 rest] eqn:E;
    [discriminate | ].
  cbn in Hs. injection Hs as ->.
  exists s, s1, rest. split; [reflexivity | ]. split; [exact HUp | ].
  split; [reflexivity | ].
  unfold rotate, newSkiplist in E.
  destruct (skiplists mt) as [ | t ts] eqn:Emt.
  - cbn [skiplists app] in E. injection E as <- <-.
    left. repeat split. discriminate.
  - destruct (Z.leb_spec threshold (GetSize t)) as [Hle | Hlt].
    + cbn [skiplists app] in E. injection E as <- <-.
      left. repeat split. intros s0 rest0 [= <- <-]. exact Hle.
    + rewrite Emt in E. injection E as <- <-. right. auto.
Qed.

(** X10. In a memtable that calls have built, every generation behind
    the newest one has a byte size of at least the threshold: a generation
    is frozen only when it is full, and no later call changes it. *)
Theorem frozen_generations_are_full (threshold : Z) (mt : memtable) :
  reachable threshold mt ->
  forall (i : nat) (s : Skiplist),
    skiplists mt !! S i = Some s -> (threshold <= GetSize s)%Z.
Proof.
  induction 1 as [ | g g' mt mt' k v b _ IH _ HU
                   | g g' mt mt' k b _ IH _ HU
                   | mt _ IH]; intros i s Hi.
  - discriminate.
  - unfold memtableUpdateAt in HU. destruct v as [bs | ]; [ | discriminate].
    destruct (updateNewest_generations _ _ _ _ _ _ _ _ HU)
      as (s0 & s' & rest & _ & _ & Hmt' & [(_ & -> & Hfull) | (Hmt & _)]).
    + rewrite Hmt' in Hi. cbn in Hi. destruct i as [ | i].
      * destruct (skiplists mt) as [ | t ts] eqn:E; [discriminate | ].
        cbn in Hi. injection Hi as ->. now apply (Hfull s ts).
      * destruct (skiplists mt) as [ | t ts] eqn:E; [discriminate | ].
        apply (IH i). exact Hi.
    + rewrite Hmt' in Hi. apply (IH i). rewrite Hmt. exact Hi.
  - destruct (updateNewest_generations _ _ _ _ _ _ _ _ HU)
      as (s0 & s' & rest & _ & _ & Hmt' & [(_ & -> & Hfull) | (Hmt & _)]).
    + rewrite Hmt' in Hi. cbn in Hi. destruct i as [ | i].
      * destruct (skiplists mt) as [ | t ts] eqn:E; [discriminate | ].
        cbn in Hi. injection Hi as ->. now apply (Hfull s ts).
      * destruct (skiplists mt) as [ | t ts] eqn:E; [discriminate | ].
        apply (IH i). exact Hi.
    + rewrite Hmt' in Hi. apply (IH i). rewrite Hmt. exact Hi.
  - unfold popSkiplist in Hi.
    destruct (length (skiplists mt) =? 0)%nat; [now apply (IH i) | ].
    cbn [skiplists] in Hi. apply (IH i).
    apply lookup_take_Some in Hi. tauto.
Qed.


(** X11. In a memtable that calls have built from small pairs, the byte
    size of a generation is never below the bytes that its nodes hold
    (keys and values), and a generation that reports to be empty has no
    node but the two sentinels. *)
Theorem size_covers_stored_bytes (threshold : Z) (mt : memtable)
  (s : Skiplist) :
  reachable threshold mt ->
  In s (skiplists mt) ->
  (heapWeight (nodes s) <= GetSize s)%Z
  /\ (IsEmpty s = true -> length (nodes s) = 2%nat).
Proof.
  intros Hreach Hin.
  pose proof (reachable_sound threshold mt Hreach) as Hall.
  rewrite Forall_forall in Hall.
  assert (Hs : sound s) by (apply Hall; now apply list_elem_of_In).
  destruct (sound_size s Hs) as (Hrange & Hw). split.
  - unfold GetSize. now rewrite u32_small.
  - unfold IsEmpty. intros Hz. apply Z.eqb_eq in Hz.
    now apply sound_size_zero.
Qed.

Lemma scan_prefix (init rest : list Skiplist) (k : string) (v : bytes) :
  scan init k = Ok (v, true) -> scan (init ++ rest) k = Ok (v, true).
Proof.
  induction init as [ | s init IH]; cbn [scan app]; [discriminate | ].
  destruct (Get s k) as [[a | ] | f | ]; cbn [bind]; try discriminate;
    auto.
Qed.

(** X12. [popSkiplist] does nothing on a memtable without generations
    and takes the oldest generation off any other. What [Get] finds after
    the call it found before, with the same value; and the generation that
    [getLastIterator] walks is the one that [popSkiplist] takes off. *)
Theorem popSkiplist_drops_oldest (mt : memtable) :
  (skiplists mt = [] -> popSkiplist mt = mt)
  /\ (forall init last,
        skiplists mt = init ++ [last] -> skiplists (popSkiplist mt) = init)
  /\ (forall k v,
        memtableGet (popSkiplist mt) k = Ok (v, true) ->
        memtableGet mt k = Ok (v, true))
  /\ (forall it,
        getLastIterator mt = Ok (Some it) ->
        skiplists mt = skiplists (popSkiplist mt) ++ [st it]).
Proof.
  assert (Hpop : forall init last,
            skiplists mt = init ++ [last] ->
            skiplists (popSkiplist mt) = init).
  { intros init last E. unfold popSkiplist. rewrite E, length_app.
    cbn [length]. destruct (Nat.eqb_spec (length init + 1) 0); [lia | ].
    cbn [skiplists]. replace (length init + 1 - 1)%nat with (length init) by lia.
    now rewrite take_app_length. }
  split; [ | split; [exact Hpop | split]].
  - intros E. unfold popSkiplist. rewrite E. reflexivity.
  - intros k v. unfold memtableGet.
    assert (Hcases : skiplists mt = []
                     \/ exists init last, skiplists mt = init ++ [last]).
    { destruct (skiplists mt) as [ | s l _] using rev_ind; eauto. }
    destruct Hcases as [E | (init & last & E)].
    + unfold popSkiplist. rewrite E. cbn [length Nat.eqb]. now rewrite E.
    + rewrite (Hpop init last E), E. apply scan_prefix.
  - intros it H. unfold getLastIterator in H.
    destruct (Nat.leb_spec (length (skiplists mt)) 1) as [ | Hlen];
      [discriminate | ].
    apply bind_Ok in H as (lastSkiplist & Hl & H). apply index_Ok in Hl.
    apply bind_Ok in H as (hd & _ & H).
    apply bind_Ok in H as (c & _ & H). injection H as <-. cbn [st].
    unfold popSkiplist.
    destruct (Nat.eqb_spec (length (skiplists mt)) 0); [lia | ].
    cbn [skiplists]. rewrite <- (take_S_r _ _ _ Hl).
    rewrite take_ge by lia. reflexivity.
Qed.


Lemma first_write_round_trip_witness :
  exists mt,
    memtableUpdateAt 10 (Rand.ofList []) NewMemtable "k1" (B "value1")
    = Ok (true, mt, snd (liftLayers (Rand.ofList [])))
    /\ memtableGet mt "k1" = Ok (B "value1", true)
    /\ map GetLen (skiplists mt) = [1%Z]
    /\ map GetSize (skiplists mt) = [8%Z].
Proof.
  apply (first_write_round_trip 10 (Rand.ofList []) "k1"
           (list_byte_of_string "value1")).
  - discriminate.
  - vm_compute. reflexivity.
Defined.

(** "a" is live in the generation that [Update("a","1")] builds;
    [Update("a","22")] overwrites it, and [Update("a",nil)] would make it
    a tombstone. *)
Lemma Update_overwrites_live_witness :
  exists st',
    Update (Rand.ofList []) (freshWritten "a" (B "1") 1) "a" (B "22")
    = Ok (true, st', Rand.ofList [])
    /\ nodes st'
       = <[2%nat := mkNode [Some 1%nat] "a" (B "22")]>
           (nodes (freshWritten "a" (B "1") 1))
    /\ GetLen st' = GetLen (freshWritten "a" (B "1") 1)
    /\ GetSize st' = 3%Z
    /\ ((size st' =? 0)%Z = (size (freshWritten "a" (B "1") 1) =? 0)%Z ->
        Get st' "a" = Ok (Some 2%nat)
        /\ forall older,
             memtableGet (mkMemtable (st' :: older)) "a" = Ok (B "22", true)).
Proof.
  apply (Update_overwrites_live (Rand.ofList []) (freshWritten "a" (B "1") 1)
           "a" (B "22") 2 (mkNode [Some 1%nat] "a" (B "1"))
           (list_byte_of_string "1"));
    vm_compute; reflexivity.
Defined.


Lemma frozen_generations_are_full_witness :
  (3 <= GetSize frozenGeneration)%Z.
Proof.
  apply (frozen_generations_are_full 3 frozenWithTombstone
           reachable_frozenWithTombstone 0 frozenGeneration).
  reflexivity.
Defined.

Lemma size_covers_stored_bytes_witness :
  (heapWeight (nodes frozenGeneration) <= GetSize frozenGeneration)%Z
  /\ (IsEmpty frozenGeneration = true ->
      length (nodes frozenGeneration) = 2%nat).
Proof.
  apply (size_covers_stored_bytes 3 frozenWithTombstone frozenGeneration
           reachable_frozenWithTombstone).
  simpl. auto.
Defined.

(** *** Reads and writes return

    The generations of a reachable memtable keep their layers nested, so
    no search of them dereferences nil, indexes out of range or walks in
    a circle. *)

(** [layered s]: the layers of [s] are nested and run forward. *)
Definition layered (s : Skiplist) : Prop :=
  exists rank, levels (nodes s) rank.

Lemma layered_NewSkipList : layered NewSkipList.
Proof.
  exists (fun a => if decide (a = 0%nat) then 0%nat else 1%nat).
  assert (Hhead : forall a j c,
            link (nodes NewSkipList) a j = Some (Some c) ->
            a = 0%nat /\ c = 1%nat /\ (j < maxHeight)%nat).
  { intros a j c Hl. destruct a as [ | [ | a]].
    - rewrite link_new_head in Hl.
      apply lookup_replicate in Hl as [E Hj]. injection E as <-. auto.
    - rewrite link_new_tail in Hl.
      apply lookup_replicate in Hl as [E _]. discriminate.
    - discriminate. }
  constructor.
  - intros a j c Hl. apply Hhead in Hl as (-> & -> & _). simpl. lia.
  - intros a. simpl. destruct (decide (a = 0%nat)); lia.
  - intros a j c Hl. apply Hhead in Hl as (-> & -> & Hj).
    rewrite link_new_tail. exists None.
    apply lookup_replicate. auto.
  - intros a j c Hl. apply Hhead in Hl as (-> & -> & Hj).
    exists 1%nat. split; [ | constructor].
    rewrite link_new_head. apply lookup_replicate. split; [reflexivity | lia].
Qed.

(** On a sound, layered list every search returns, with bounds that are
    neighbours at every layer. *)
Lemma searchBounds_returns (s : Skiplist) (k : string) :
  sound s -> layered s ->
  exists lb rb L R,
    searchBounds s k = Ok (lb, rb)
    /\ length lb = maxHeight /\ length rb = maxHeight
    /\ ladder (nodes s) 1 (maxHeight - 1) lb rb L R.
Proof.
  intros Hs [rank Hlv]. unfold searchBounds.
  rewrite (sound_head s Hs), (sound_tail s Hs).
  apply (searchBoundsIn_returns (nodes s) rank 0 1 _ k Hlv).
  - apply Hs.
  - apply Hs.
  - discriminate.
  - apply Hs.
  - intros Hz. apply Z.eqb_eq in Hz.
    apply (sound_empty s Hs). now apply sound_size_zero.
Qed.

Lemma ladder_nodes (s : Skiplist) rank (lb rb : list ptr)
  (L R : nat -> nat) :
  levels (nodes s) rank ->
  ladder (nodes s) 1 (maxHeight - 1) lb rb L R ->
  lb !! 0%nat = Some (Some (L 0%nat)) /\ rb !! 0%nat = Some (Some (R 0%nat))
  /\ is_Some (nodes s !! L 0%nat) /\ is_Some (nodes s !! R 0%nat).
Proof.
  intros Hlv (Hrung & _).
  destruct (Hrung 0%nat ltac:(lia)) as (Hl & Hr & Hlink & _).
  split; [assumption | ]. split; [assumption | ].
  split.
  - apply lookup_lt_is_Some. exact (link_lt _ _ _ _ Hlink).
  - destruct (lv_tall _ _ Hlv _ _ _ Hlink) as [q Hq].
    apply lookup_lt_is_Some. exact (link_lt _ _ _ _ Hq).
Qed.

(** The bounds of a search point to nodes, so the key comparisons of
    [searchWithBounds] read nodes of the list. *)
Lemma searchWithBounds_returns (s : Skiplist) rank (k : string)
  (lb rb : list ptr) (L R : nat -> nat) :
  levels (nodes s) rank ->
  ladder (nodes s) 1 (maxHeight - 1) lb rb L R ->
  exists p,
    searchWithBounds s k lb rb = Ok p
    /\ (p = None \/ exists a n, p = Some a /\ nodes s !! a = Some n).
Proof.
  intros Hlv Hlad.
  destruct (ladder_nodes s rank lb rb L R Hlv Hlad)
    as (Hl & Hr & [nl Hnl] & [nr Hnr]).
  unfold searchWithBounds, searchWithBoundsIn.
  unfold index. rewrite Hl, Hr. cbn [bind].
  assert (HhitL : exists c,
            (if negb (ptr_eqb (Some (L 0%nat)) (head s))
             then n <- deref (nodes s) (Some (L 0%nat)) ;;
                  Ok (String.eqb (key n) k)
             else Ok false) = Ok c).
  { destruct (negb (ptr_eqb (Some (L 0%nat)) (head s))); [ | eauto].
    cbn [deref]. rewrite Hnl. cbn [bind]. eauto. }
  assert (HhitR : exists c,
            (if negb (ptr_eqb (Some (R 0%nat)) (head s))
             then n <- deref (nodes s) (Some (R 0%nat)) ;;
                  Ok (String.eqb (key n) k)
             else Ok false) = Ok c).
  { destruct (negb (ptr_eqb (Some (R 0%nat)) (head s))); [ | eauto].
    cbn [deref]. rewrite Hnr. cbn [bind]. eauto. }
  destruct HhitL as [cl ->]. destruct HhitR as [cr ->]. cbn [bind].
  destruct cl.
  - exists (Some (L 0%nat)). split; [reflexivity | ]. right. eauto.
  - cbn [bind]. destruct cr.
    + exists (Some (R 0%nat)). split; [reflexivity | ]. right. eauto.
    + exists None. auto.
Qed.

Lemma Get_returns (s : Skiplist) (k : string) :
  sound s -> layered s ->
  exists p,
    Get s k = Ok p
    /\ (p = None \/ exists a n, p = Some a /\ nodes s !! a = Some n).
Proof.
  intros Hs Hl. pose proof Hl as [rank Hlv].
  destruct (searchBounds_returns s k Hs Hl)
    as (lb & rb & L & R & Hb & _ & _ & Hlad).
  unfold Get. rewrite Hb. cbn [bind].
  exact (searchWithBounds_returns s rank k lb rb L R Hlv Hlad).
Qed.

(** A write to a sound, layered list returns and leaves a layered
    list. *)
Lemma Update_returns (g : Rand.source) (s : Skiplist) (k : string)
  (v : bytes) :
  sound s -> layered s ->
  exists s' g', Update g s k v = Ok (true, s', g') /\ layered s'.
Proof.
  intros Hs Hl. pose proof Hl as [rank Hlv].
  destruct (searchBounds_returns s k Hs Hl)
    as (lb & rb & L & R & Hb & Hlenl & Hlenr & Hlad).
  destruct (searchWithBounds_returns s rank k lb rb L R Hlv Hlad)
    as (p & Hw & Hp).
  unfold Update. rewrite Hb. cbn [bind]. rewrite Hw. cbn [bind].
  destruct Hp as [-> | (a & n & -> & Ha)].
  - pose proof (liftLayers_range g) as Hrange.
    destruct (liftLayers g) as [layerNum g1]. cbn [fst] in Hrange.
    unfold alloc.
    destruct (insert_succeeds (nodes s) lb rb k v layerNum)
      as (h' & n' & Hsp & _); [lia | assumption | | ].
    { intros j Hj. destruct Hlad as (Hrung & _).
      destruct (Hrung j ltac:(unfold maxHeight in *; lia))
        as (HLj & _ & Hlink & _).
      exists (Some (L j)). split; [assumption | ].
      unfold link in Hlink.
      destruct (nodes s !! L j) as [m | ] eqn:Hm; [ | discriminate].
      exists (L j), m. split; [reflexivity | ]. split; [assumption | ].
      now apply lookup_lt_Some in Hlink. }
    rewrite Hsp. cbn [bind]. eexists _, _. split; [reflexivity | ].
    exact (levels_inserted (nodes s) rank 1 lb rb L R k v layerNum h'
             Hlv Hlad Hrange Hsp).
  - cbn [deref]. rewrite Ha. cbn [bind].
    destruct (val n) as [old | ] eqn:Hold.
    + rewrite (setVal_Ok _ _ _ _ Ha). cbn [bind].
      eexists _, _. split; [reflexivity | ].
      exists rank. cbn [nodes].
      apply (levels_ext (nodes s)); [apply length_insert | | assumption].
      intros a' j. now apply link_setVal.
    + eexists _, _. split; [reflexivity | ]. exists rank. exact Hlv.
Qed.

(** After the rotation test the newest generation is there, sound and
    layered, and so are the older ones. *)
Lemma rotate_layered (threshold : Z) (mt : memtable) :
  Forall sound (skiplists mt) ->
  Forall layered (skiplists mt) ->
  exists s rest,
    skiplists (rotate threshold mt) = s :: rest
    /\ sound s /\ layered s /\ Forall layered rest.
Proof.
  intros Hsound Hall. unfold rotate.
  assert (Hnew : exists s rest,
             skiplists (newSkiplist mt) = s :: rest
             /\ sound s /\ layered s /\ Forall layered rest).
  { exists NewSkipList, (skiplists mt).
    split; [reflexivity | ]. split; [apply sound_NewSkipList | ].
    split; [apply layered_NewSkipList | assumption]. }
  destruct (skiplists mt) as [ | st rest] eqn:E; [exact Hnew | ].
  destruct (threshold <=? GetSize st)%Z; [exact Hnew | ].
  apply Forall_cons in Hall as [Hst Hrest].
  apply Forall_cons in Hsound as [Hs _].
  exists st, rest. rewrite E. auto.
Qed.

Lemma updateNewest_returns (threshold : Z) (g : Rand.source) (mt : memtable)
  (k : string) (v : bytes) :
  Forall sound (skiplists mt) ->
  Forall layered (skiplists mt) ->
  exists mt' g',
    updateNewest g (rotate threshold mt) k v = Ok (true, mt', g')
    /\ Forall layered (skiplists mt').
Proof.
  intros Hsound Hall.
  destruct (rotate_layered threshold mt Hsound Hall)
    as (s & rest & E & Hs & Hl & Hrest).
  destruct (Update_returns g s k v Hs Hl) as (s' & g' & HU & Hl').
  unfold updateNewest. rewrite E. cbn [index bind]. simpl.
  rewrite HU. cbn [bind]. eexists _, _. split; [reflexivity | ].
  cbn [skiplists]. simpl. apply Forall_cons. auto.
Qed.

(** Every generation of a memtable that calls have built is layered. *)
Lemma reachable_layered (threshold : Z) (mt : memtable) :
  reachable threshold mt -> Forall layered (skiplists mt).
Proof.
  intros Hreach.
  induction Hreach as [ | g g' mt mt' k v b Hr IH Hsmall HU
                   | g g' mt mt' k b Hr IH Hsmall HU
                   | mt Hr IH].
  - constructor.
  - unfold memtableUpdateAt in HU. destruct v as [bs | ]; [ | discriminate].
    destruct (updateNewest_returns threshold g mt k (Some bs)
                (reachable_sound threshold mt Hr) IH)
      as (mt1 & g1 & HU1 & Hl).
    rewrite HU1 in HU. now injection HU as _ <- _.
  - unfold memtableDeleteAt in HU.
    destruct (updateNewest_returns threshold g mt k None
                (reachable_sound threshold mt Hr) IH)
      as (mt1 & g1 & HU1 & Hl).
    rewrite HU1 in HU. now injection HU as _ <- _.
  - unfold popSkiplist.
    destruct (length (skiplists mt) =? 0)%nat; [assumption | ].
    cbn [skiplists]. now apply Forall_take.
Qed.

Lemma scan_returns (sts : list Skiplist) (k : string) :
  Forall sound sts -> Forall layered sts ->
  exists v found, scan sts k = Ok (v, found).
Proof.
  induction sts as [ | s sts IH]; intros Hsound Hall; [simpl; eauto | ].
  apply Forall_cons in Hsound as [Hs Hsound].
  apply Forall_cons in Hall as [Hl Hall].
  cbn [scan].
  destruct (Get_returns s k Hs Hl) as (p & -> & Hp). cbn [bind].
  destruct Hp as [-> | (a & n & -> & Ha)]; [now apply IH | ].
  cbn [deref]. rewrite Ha. cbn [bind]. eauto.
Qed.

(** X13. On a memtable that calls have built, reads and writes return:
    [Get] returns a value and a flag, [Update] with a non-nil value and
    [Delete] return true, whatever the key, the value and the draws of the
    random source. None of them panics, and no search runs forever. *)
Theorem calls_on_reachable_memtable_return (threshold : Z) (mt : memtable) :
  reachable threshold mt ->
  (forall k, exists v found, memtableGet mt k = Ok (v, found))
  /\ (forall g k bs, exists mt' g',
        memtableUpdateAt threshold g mt k (Some bs) = Ok (true, mt', g'))
  /\ (forall g k, exists mt' g',
        memtableDeleteAt threshold g mt k = Ok (true, mt', g')).
Proof.
  intros Hr.
  pose proof (reachable_sound threshold mt Hr) as Hsound.
  pose proof (reachable_layered threshold mt Hr) as Hall.
  split; [ | split].
  - intros k. now apply scan_returns.
  - intros g k bs.
    destruct (updateNewest_returns threshold g mt k (Some bs) Hsound Hall)
      as (mt' & g' & HU & _).
    unfold memtableUpdateAt. eauto.
  - intros g k.
    destruct (updateNewest_returns threshold g mt k None Hsound Hall)
      as (mt' & g' & HU & _).
    unfold memtableDeleteAt. eauto.
Qed.

Lemma calls_on_reachable_memtable_return_witness :
  (forall k, exists v found, memtableGet frozenWithTombstone k = Ok (v, found))
  /\ (forall g k bs, exists mt' g',
        memtableUpdateAt 3 g frozenWithTombstone k (Some bs)
        = Ok (true, mt', g'))
  /\ (forall g k, exists mt' g',
        memtableDeleteAt 3 g frozenWithTombstone k = Ok (true, mt', g')).
Proof.
  exact (calls_on_reachable_memtable_return 3 frozenWithTombstone
           reachable_frozenWithTombstone).
Defined.

(** *** Deleting a key that no node carries *)

(** X26. For every memtable that calls have built and every key that no
    node of the generation at index 0, as the rotation test leaves it,
    carries (the two sentinels carry the empty key): [Skiplist.Get] finds
    no node for the key, and [memtable.Delete(key)] returns true and
    appends one node, at a fresh address, with this key and the nil
    value; the nodes the generation had keep their keys and values. The
    entry count goes up by one and the byte size by the length of the
    key, both in uint32, although no live value was written. *)
Theorem memtableDelete_unknown_key_adds_tombstone (threshold : Z)
  (g : Rand.source) (mt : memtable) (k : string) (s : Skiplist)
  (rest : list Skiplist) :
  reachable threshold mt ->
  skiplists (rotate threshold mt) = s :: rest ->
  (forall a n, nodes s !! a = Some n -> key n <> k) ->
  Get s k = Ok None
  /\ exists s' n',
      memtableDeleteAt threshold g mt k
      = Ok (true, mkMemtable (s' :: rest), snd (liftLayers g))
      /\ length (nodes s') = S (length (nodes s))
      /\ nodes s' !! length (nodes s) = Some n'
      /\ key n' = k /\ val n' = None
      /\ (forall a n, nodes s !! a = Some n ->
            exists m, nodes s' !! a = Some m /\ key m = key n
                      /\ val m = val n)
      /\ GetLen s' = u32 (GetLen s + 1)
      /\ GetSize s' = u32 (GetSize s + keyLen k)
      /\ ((GetLen s + 1 < 2 ^ 32)%Z -> GetLen s' = (GetLen s + 1)%Z)
      /\ ((GetSize s + keyLen k < 2 ^ 32)%Z ->
          GetSize s' = (GetSize s + keyLen k)%Z).
Proof.
  intros Hreach Hrot Hnone.
  destruct (rotate_layered threshold mt (reachable_sound threshold mt Hreach)
              (reachable_layered threshold mt Hreach))
    as (s0 & rest0 & E & Hs & Hl & _).
  rewrite Hrot in E. injection E as <- <-.
  assert (HG : Get s k = Ok None).
  { destruct (Get_returns s k Hs Hl) as (p & Hp & [-> | (a & n & -> & Ha)]);
      [assumption | ].
    destruct (Get_hit s k a Hp) as (n' & Hn' & Hk).
    exfalso. exact (Hnone a n' Hn' Hk). }
  split; [exact HG | ].
  apply memtableDeleteAt_absent; try assumption.
  intros _. now apply sound_fullHead.
Qed.

Lemma memtableDelete_unknown_key_adds_tombstone_witness :
  Get (freshWritten "zz" None 1) "k" = Ok None
  /\ exists s' n',
      memtableDelete (Rand.ofList []) (mkMemtable [freshWritten "zz" None 1])
        "k"
      = Ok (true, mkMemtable [s'], snd (liftLayers (Rand.ofList [])))
      /\ length (nodes s') = S (length (nodes (freshWritten "zz" None 1)))
      /\ nodes s' !! length (nodes (freshWritten "zz" None 1)) = Some n'
      /\ key n' = "k" /\ val n' = None
      /\ (forall a n, nodes (freshWritten "zz" None 1) !! a = Some n ->
            exists m, nodes s' !! a = Some m /\ key m = key n
                      /\ val m = val n)
      /\ GetLen s' = u32 (GetLen (freshWritten "zz" None 1) + 1)
      /\ GetSize s' = u32 (GetSize (freshWritten "zz" None 1) + keyLen "k")
      /\ ((GetLen (freshWritten "zz" None 1) + 1 < 2 ^ 32)%Z ->
          GetLen s' = (GetLen (freshWritten "zz" None 1) + 1)%Z)
      /\ ((GetSize (freshWritten "zz" None 1) + keyLen "k" < 2 ^ 32)%Z ->
          GetSize s' = (GetSize (freshWritten "zz" None 1) + keyLen "k")%Z).
Proof.
  apply (memtableDelete_unknown_key_adds_tombstone skipListThreshold
           (Rand.ofList []) (mkMemtable [freshWritten "zz" None 1]) "k"
           (freshWritten "zz" None 1) []).
  - exact reachable_oneTombstone.
  - reflexivity.
  - intros a n Ha.
    destruct a as [ | [ | [ | a]]]; simpl in Ha;
      [injection Ha as <-; discriminate ..| discriminate].
Defined.

End MemtableFacts.

(** ** The lock-guarded skip list *)

Module SkipListFacts.

Import SkipList.
Local Open Scope string_scope.
Local Open Scope list_scope.

(** The insert branch of [update], with the bounds and the sampled height
    named. *)
Lemma update_absent {V : Type} (g : Rand.source) (st : skipList V)
  (k : string) (v : option V) (lb rb : list ptr) :
  searchBounds st k = Ok (lb, rb) ->
  searchWithBounds st k lb rb = Ok None ->
  update g st k v
  = (h <- splice (fst (liftLayers g)) 0
            (nodes st ++ [newNode k v (fst (liftLayers g))])
            (Some (length (nodes st))) lb rb ;;
     Ok (mkSkipList h (head st) (tail st) (u64 (size st + 1)),
         snd (liftLayers g))).
Proof.
  intros Hb Hw. unfold update. rewrite Hb. simpl. rewrite Hw. simpl.
  destruct (liftLayers g) as [layerNum g']. reflexivity.
Qed.

(** A generator that lifts the first tower to [maxHeight] and leaves the
    second at one layer. *)
Definition tallThenShort : Rand.source :=
  Rand.ofList (repeat 1%Z 15 ++ [0%Z]).

Example tallThenShort_heights :
  fst (liftLayers tallThenShort) = 16%nat
  /\ fst (liftLayers (snd (liftLayers tallThenShort))) = 1%nat.
Proof. split; vm_compute; reflexivity. Qed.

(** The list after [Insert("", "1")] on a new list: the write lands in
    the tail sentinel, whose key is the empty string. *)
Definition emptyKeyWritten : skipList string :=
  mkSkipList
    [ mkNode (replicate maxHeight (Some 1%nat)) "" None;
      mkNode (replicate maxHeight None) "" (Some "1") ]
    (Some 0%nat) (Some 1%nat) 1.

Lemma Insert_empty_key (g : Rand.source) :
  Insert g (Some NewSkipList) "" (Some "1") = Ok (Some emptyKeyWritten, g).
Proof. vm_compute. reflexivity. Qed.

(** C1. Two ways in which a written key is lost to [Search]. A first
    tower of full height becomes the right bound of every later search
    ([searchBounds] seeds the top right bound with [head.nexts[15]]), so
    after [Insert("a","1")] at height 16 and [Insert("b","2")] the key "a"
    is not found. And for every outcome of the sampling, the empty key
    written to a new list is lost as soon as another key is inserted, as
    [searchWithBounds] guards its right bound against the head and not
    against the tail. *)
Theorem Search_misses_written_key :
  (exists st g',
      run tallThenShort (Some NewSkipList)
        [CallInsert "a" "1"; CallInsert "b" "2"] = Ok (st, g')
      /\ Search st "a" = Ok None
      /\ Search st "b" = Ok (Some "2"))
  /\ (forall g : Rand.source,
        exists st g',
          run g (Some NewSkipList)
            [CallInsert "" "1"; CallInsert "a" "2"] = Ok (st, g')
          /\ Search st "" = Ok None
          /\ Search st "a" = Ok (Some "2")).
Proof.
  split.
  - eexists. eexists. split; [vm_compute; reflexivity | ].
    split; vm_compute; reflexivity.
  - intros g. cbn [run step]. rewrite Insert_empty_key. cbn [bind].
    unfold Insert.
    erewrite update_absent; [ | vm_compute; reflexivity ..].
    pose proof (height_cases g) as Hh.
    destruct (liftLayers g) as [layerNum g']. cbn [fst snd] in *.
    cbn [seq In] in Hh.
    repeat (destruct Hh as [<- | Hh];
            [ eexists; eexists; split; [vm_compute; reflexivity | ];
              split; vm_compute; reflexivity | ]).
    contradiction.
Qed.

(** *** Values do not steer the search *)

Lemma search_after_setVal {V : Type} (st : skipList V) (k : string)
  (a : nat) (n : node V) (v : option V) (size' : Z) :
  nodes st !! a = Some n ->
  (size' =? 0)%Z = (size st =? 0)%Z ->
  search (mkSkipList (<[a := mkNode (nexts n) (key n) v]> (nodes st))
            (head st) (tail st) size') k
  = search st k.
Proof.
  intros Ha Hz. unfold search, searchBounds, searchWithBounds. simpl.
  rewrite Hz.
  pose proof (sameShape_setVal (nodes st) a n v Ha) as Hs.
  rewrite <- (searchBoundsIn_shape _ _ _ _ _ _ Hs).
  destruct (searchBoundsIn (nodes st) (head st) (tail st) _ k)
    as [[lb rb] | f | ]; simpl; try reflexivity.
  symmetry. now apply searchWithBoundsIn_shape.
Qed.

Lemma search_hit {V : Type} (st : skipList V) (k : string) (a : nat) :
  search st k = Ok (Some a) ->
  exists n, nodes st !! a = Some n /\ key n = k.
Proof.
  unfold search. intros H. apply bind_Ok in H as ([lb rb] & _ & H).
  unfold searchWithBounds in H. eapply searchWithBoundsIn_hit; eauto.
Qed.

(** What [Delete] does to a key whose node the search finds: the value
    becomes nil and the counter goes down, whatever the value was. *)
Lemma Delete_found {V : Type} (st : skipList V) (k : string) (a : nat)
  (n : node V) :
  search st k = Ok (Some a) ->
  nodes st !! a = Some n ->
  Delete (Some st) k
  = Ok (Some (mkSkipList (<[a := mkNode (nexts n) (key n) None]> (nodes st))
                (head st) (tail st) (u64 (size st - 1)))).
Proof.
  unfold search, Delete. intros H Ha.
  destruct (searchBounds st k) as [[lb rb] | f | ]; simpl in *;
    try discriminate.
  rewrite H. simpl. rewrite (setVal_Ok _ _ _ _ Ha). reflexivity.
Qed.

Lemma Delete_absent {V : Type} (st : skipList V) (k : string) :
  search st k = Ok None -> Delete (Some st) k = Ok (Some st).
Proof.
  unfold search, Delete. intros H.
  destruct (searchBounds st k) as [[lb rb] | f | ]; simpl in *;
    try discriminate.
  rewrite H. reflexivity.
Qed.

(** [Search] in terms of [search]. *)
Lemma Search_found {V : Type} (st : skipList V) (k : string) (a : nat)
  (n : node V) :
  search st k = Ok (Some a) -> nodes st !! a = Some n ->
  Search (Some st) k = Ok (val n).
Proof. intros H Ha. unfold Search. rewrite H. simpl. now rewrite Ha. Qed.

Lemma Search_absent {V : Type} (st : skipList V) (k : string) :
  search st k = Ok None -> Search (Some st) k = Ok None.
Proof. intros H. unfold Search. now rewrite H. Qed.

(** [Delete(key)] followed by [Search(key)] returns not-found, as long as
    the counter is not zero before or after the call (a zero counter
    makes the search skip the list). *)
Lemma Delete_then_Search {V : Type} (st st' : skipList V) (k : string) :
  size st <> 0%Z -> u64 (size st - 1) <> 0%Z ->
  Delete (Some st) k = Ok (Some st') ->
  Search (Some st') k = Ok None.
Proof.
  intros Hz Hz' HD.
  destruct (search st k) as [[a | ] | f | ] eqn:Hs.
  - destruct (search_hit _ _ _ Hs) as (n & Ha & Hk).
    rewrite (Delete_found _ _ _ _ Hs Ha) in HD. injection HD as <-.
    eapply (Search_found _ _ a (mkNode (nexts n) (key n) None)).
    + rewrite search_after_setVal; [assumption | assumption | ].
      apply Z.eqb_neq in Hz, Hz'. now rewrite Hz, Hz'.
    + simpl. apply list_lookup_insert_eq. apply lookup_lt_is_Some; eauto.
  - rewrite (Delete_absent _ _ Hs) in HD. injection HD as <-.
    now apply Search_absent.
  - unfold search, Delete in *.
    destruct (searchBounds st k) as [[lb rb] | f' | ]; simpl in *;
      try discriminate.
    rewrite Hs in HD. discriminate.
  - unfold search, Delete in *.
    destruct (searchBounds st k) as [[lb rb] | f' | ]; simpl in *;
      try discriminate.
    rewrite Hs in HD. discriminate.
Qed.

(** The list after [Insert("a","1")], [Insert("b","2")], [Delete("a")],
    every tower of height one. *)
Definition oneDeleted : skipList string :=
  mkSkipList
    [ mkNode (Some 2%nat :: replicate 15 (Some 1%nat)) "" None;
      mkNode (replicate maxHeight None) "" None;
      mkNode [Some 3%nat] "a" None;
      mkNode [Some 1%nat] "b" (Some "2") ]
    (Some 0%nat) (Some 1%nat) 1.

Example oneDeleted_history :
  exists g',
    run (Rand.ofList []) (Some NewSkipList)
      [CallInsert "a" "1"; CallInsert "b" "2"; CallDelete "a"]
    = Ok (Some oneDeleted, g').
Proof. eexists. vm_compute. reflexivity. Qed.

(** The update branch of [update] on a tombstone: the value is written
    and the counter goes up. *)
Lemma update_revives {V : Type} (g : Rand.source) (st : skipList V)
  (k : string) (v : V) (a : nat) (n : node V) :
  search st k = Ok (Some a) ->
  nodes st !! a = Some n ->
  val n = None ->
  exists st',
    Update g (Some st) k (Some v) = Ok (Some st', g)
    /\ size st' = u64 (size st + 1)
    /\ nodes st' !! a = Some (mkNode (nexts n) (key n) (Some v))
    /\ ((size st' =? 0)%Z = (size st =? 0)%Z ->
        Search (Some st') k = Ok (Some v)).
Proof.
  intros Hs Ha Hv.
  exists (mkSkipList (<[a := mkNode (nexts n) (key n) (Some v)]> (nodes st))
            (head st) (tail st) (u64 (size st + 1))).
  assert (Hin : nodes st !! a = Some n) by assumption.
  apply lookup_lt_Some in Hin.
  repeat split.
  - unfold Update, update. unfold search in Hs.
    destruct (searchBounds st k) as [[lb rb] | f | ]; simpl in *;
      try discriminate.
    rewrite Hs. simpl. rewrite Ha. simpl. rewrite Hv.
    rewrite (setVal_Ok _ _ _ _ Ha). reflexivity.
  - simpl. now apply list_lookup_insert_eq.
  - intros Hz.
    apply (Search_found _ _ a (mkNode (nexts n) (key n) (Some v))).
    + rewrite search_after_setVal; assumption.
    + simpl. now apply list_lookup_insert_eq.
Qed.

(** C3. [Delete] has no test for a node that is already a tombstone:
    whenever the search finds the key's node, the counter is decremented
    (in uint64), also when the value was nil before the call. *)
Theorem Delete_decrements_for_tombstone {V : Type} (st : skipList V)
  (k : string) (a : nat) (n : node V) :
  search st k = Ok (Some a) ->
  nodes st !! a = Some n ->
  val n = None ->
  exists st',
    Delete (Some st) k = Ok (Some st')
    /\ GetSize (Some st') = Ok (u64 (size st - 1))
    /\ nodes st' !! a = Some n.
Proof.
  intros Hs Ha Hv. eexists. split; [exact (Delete_found st k a n Hs Ha) | ].
  split; [reflexivity | ]. simpl.
  rewrite list_lookup_insert_eq by (apply lookup_lt_is_Some; eauto).
  destruct n as [nx kk vv]. simpl in *. now subst.
Qed.

(** On [oneDeleted], where "a" is a tombstone and "b" a live key, a
    second [Delete("a")] brings the counter from 1 to 0, after which the
    live key "b" is no longer found. *)
Lemma Delete_decrements_for_tombstone_witness :
  exists st',
    Delete (Some oneDeleted) "a" = Ok (Some st')
    /\ GetSize (Some st') = Ok (u64 (size oneDeleted - 1))
    /\ nodes st' !! 2%nat = Some (mkNode [Some 3%nat] "a" None).
Proof.
  apply (Delete_decrements_for_tombstone oneDeleted "a" 2
           (mkNode [Some 3%nat] "a" None));
    vm_compute; reflexivity.
Defined.

Example second_Delete_hides_live_key :
  exists st',
    Delete (Some oneDeleted) "a" = Ok (Some st')
    /\ GetSize (Some oneDeleted) = Ok 1%Z
    /\ Search (Some oneDeleted) "b" = Ok (Some "2")
    /\ GetSize (Some st') = Ok 0%Z
    /\ Search (Some st') "b" = Ok None.
Proof.
  eexists. split; [vm_compute; reflexivity | ].
  repeat split; vm_compute; reflexivity.
Qed.

(** [Delete("")] on a new list finds the tail sentinel and takes the
    counter below zero. *)
Example Delete_empty_key_on_new_list :
  exists st' : skipList string,
    Delete (Some NewSkipList) "" = Ok (Some st')
    /\ GetSize (Some st') = Ok 18446744073709551615%Z.
Proof.
  eexists. split; [vm_compute; reflexivity | ]. vm_compute. reflexivity.
Qed.

(** On [oneDeleted] the key "a" has a node, which is a tombstone, the
    key "zz" has none, and [Search] returns the same nil for both. *)
Lemma tombstone_not_distinguishable :
  search oneDeleted "a" = Ok (Some 2%nat)
  /\ search oneDeleted "zz" = Ok None
  /\ ~ (Search (Some oneDeleted) "a" <> Search (Some oneDeleted) "zz").
Proof.
  split; [vm_compute; reflexivity | ].
  split; [vm_compute; reflexivity | ].
  intros H. apply H. vm_compute. reflexivity.
Qed.

(** The list after [Insert("a","1")] with a tower of height 16,
    [Insert("b","2")] with a tower of height one, and [Delete("b")]. *)
Definition liveHidden : skipList string :=
  mkSkipList
    [ mkNode (Some 3%nat :: replicate 15 (Some 2%nat)) "" None;
      mkNode (replicate maxHeight None) "" None;
      mkNode (replicate maxHeight (Some 1%nat)) "a" (Some "1");
      mkNode [Some 2%nat] "b" None ]
    (Some 0%nat) (Some 1%nat) 1.

(** C4. [Search] does not always return the key's current value, and its
    result for a tombstone is its result for a key never written. After
    [Insert("a","1")] with a tower of height 16, [Insert("b","2")] and
    [Delete("b")], the node of "a" holds "1", the key's current value,
    and the node of "b" is a tombstone; no node carries "zz". [Search]
    returns nil for all three: "a" is hidden behind "b" ([searchBounds]
    seeds the top right bound with [head.nexts[15]], so "b" was linked in
    front of "a"), and nil is what [Search] returns both for a node whose
    value is nil and for no node. *)
Theorem Search_loses_current_value :
  (exists g',
      run tallThenShort (Some NewSkipList)
        [CallInsert "a" "1"; CallInsert "b" "2"; CallDelete "b"]
      = Ok (Some liveHidden, g'))
  /\ (exists a n, nodes liveHidden !! a = Some n
                  /\ key n = "a" /\ val n = Some "1")
  /\ (exists a n, nodes liveHidden !! a = Some n
                  /\ key n = "b" /\ val n = None)
  /\ (forall a n, nodes liveHidden !! a = Some n -> key n <> "zz")
  /\ Search (Some liveHidden) "a" = Ok None
  /\ Search (Some liveHidden) "b" = Ok None
  /\ Search (Some liveHidden) "zz" = Ok None.
Proof.
  split; [eexists; vm_compute; reflexivity | ].
  split; [exists 2%nat; eexists; split; [reflexivity | split; reflexivity] | ].
  split; [exists 3%nat; eexists; split; [reflexivity | split; reflexivity] | ].
  split.
  - intros a n Ha.
    destruct a as [ | [ | [ | [ | a]]]]; simpl in Ha;
      [injection Ha as <-; discriminate ..| discriminate].
  - split; [ | split]; vm_compute; reflexivity.
Qed.

(** *** First insert, overwrite, and the keys a call leaves alone *)

(** X2. The first insert into a new list, for every key (the empty one
    too), every value and every outcome of the sampling: [Insert] returns,
    [Search] of the key then returns the value, the size is 1 and the list
    is not empty ([TestInsert] for one key). *)
Theorem Insert_then_Search_on_new_list {V : Type} (g : Rand.source)
  (k : string) (v : V) :
  exists st g',
    Insert g (Some NewSkipList) k (Some v) = Ok (Some st, g')
    /\ Search (Some st) k = Ok (Some v)
    /\ GetSize (Some st) = Ok 1%Z
    /\ IsEmpty (Some st) = Ok false.
Proof.
  destruct k as [ | c k].
  - do 2 eexists. split; [vm_compute; reflexivity | ].
    split; [vm_compute; reflexivity | ]. split; reflexivity.
  - unfold Insert.
    erewrite update_absent; [ | reflexivity | reflexivity].
    pose proof (height_cases g) as Hh.
    destruct (liftLayers g) as [h g']. cbn [fst snd] in *.
    change (nodes NewSkipList) with (@emptyHeap V).
    each_height Hh;
      (match goal with
       | |- context [bind ?sp _] =>
           match sp with
           | splice _ _ _ _ _ _ =>
               let r := eval vm_compute in sp in change sp with r
           end
       end);
      cbn [bind]; do 2 eexists;
      (split; [reflexivity | ]); (split; [search_self | split; reflexivity]).
Qed.


(** Writing the value of the node of one key leaves what [Search] returns
    for the other keys. *)
Lemma Search_after_setVal {V : Type} (st : skipList V) (a : nat)
  (n : node V) (v : option V) (size' : Z) (k' : string) :
  nodes st !! a = Some n ->
  key n <> k' ->
  (size' =? 0)%Z = (size st =? 0)%Z ->
  Search (Some (mkSkipList (<[a := mkNode (nexts n) (key n) v]> (nodes st))
                  (head st) (tail st) size')) k'
  = Search (Some st) k'.
Proof.
  intros Ha Hk Hz. unfold Search.
  rewrite (search_after_setVal st k' a n v size' Ha Hz).
  destruct (search st k') as [[a' | ] | f | ] eqn:Hs; cbn [bind];
    try reflexivity.
  destruct (search_hit _ _ _ Hs) as (n' & Ha' & Hk').
  cbn [deref nodes]. rewrite list_lookup_insert_ne by congruence.
  reflexivity.
Qed.

(** X3. [Update] and [Insert] on a key that the search finds do the
    same: no height is drawn and no node is added, the value of the key's
    node is replaced, and the size goes up by one exactly when that node
    was a tombstone. As long as the size does not become or cease to be
    zero, [Search] then returns the new value for the key and what it
    returned before for every other key. *)
Theorem Update_overwrites {V : Type} (g : Rand.source) (st : skipList V)
  (k : string) (v : V) (a : nat) (n : node V) :
  search st k = Ok (Some a) ->
  nodes st !! a = Some n ->
  exists st',
    Update g (Some st) k (Some v) = Ok (Some st', g)
    /\ Insert g (Some st) k (Some v) = Ok (Some st', g)
    /\ nodes st' = <[a := mkNode (nexts n) k (Some v)]> (nodes st)
    /\ size st' = match val n with
                  | Some _ => size st
                  | None => u64 (size st + 1)
                  end
    /\ ((size st' =? 0)%Z = (size st =? 0)%Z ->
        Search (Some st') k = Ok (Some v)
        /\ forall k', k' <> k ->
             Search (Some st') k' = Search (Some st) k').
Proof.
  intros Hs Ha.
  destruct (search_hit _ _ _ Hs) as (n0 & Hn0 & Hk).
  rewrite Ha in Hn0. injection Hn0 as <-.
  set (size' := match val n with
                | Some _ => size st
                | None => u64 (size st + 1)
                end).
  exists (mkSkipList (<[a := mkNode (nexts n) (key n) (Some v)]> (nodes st))
            (head st) (tail st) size').
  assert (HU : Update g (Some st) k (Some v)
               = Ok (Some (mkSkipList
                             (<[a := mkNode (nexts n) (key n) (Some v)]>
                                (nodes st))
                             (head st) (tail st) size'), g)).
  { unfold Update, update. unfold search in Hs.
    destruct (searchBounds st k) as [[lb rb] | f | ]; cbn [bind] in *;
      try discriminate.
    rewrite Hs. cbn [bind deref]. rewrite Ha. cbn [bind].
    rewrite (setVal_Ok _ _ _ _ Ha). reflexivity. }
  split; [exact HU | ]. split; [exact HU | ].
  split; [cbn [nodes]; now rewrite Hk | ]. split; [reflexivity | ].
  cbn [size]. intros Hz. split.
  - apply (Search_found _ _ a (mkNode (nexts n) (key n) (Some v))).
    + now rewrite search_after_setVal.
    + cbn [nodes]. apply list_lookup_insert_eq.
      now apply lookup_lt_Some in Ha.
  - intros k' Hne. apply Search_after_setVal; congruence.
Qed.

(** X4. A [Delete] that returns has removed no node and changed no key
    and no link; the values of the nodes of other keys are as before. As
    long as the size does not become or cease to be zero, [Search] returns
    for every other key what it returned before. *)
Theorem Delete_keeps_other_keys {V : Type} (st st' : skipList V)
  (k : string) :
  Delete (Some st) k = Ok (Some st') ->
  length (nodes st') = length (nodes st)
  /\ (forall a n, nodes st !! a = Some n ->
        exists n', nodes st' !! a = Some n' /\ key n' = key n
                   /\ nexts n' = nexts n
                   /\ (key n <> k -> val n' = val n))
  /\ ((size st' =? 0)%Z = (size st =? 0)%Z ->
      forall k', k' <> k -> Search (Some st') k' = Search (Some st) k').
Proof.
  intros HD.
  destruct (search st k) as [[a | ] | f | ] eqn:Hs.
  - destruct (search_hit _ _ _ Hs) as (n & Ha & Hk).
    rewrite (Delete_found _ _ _ _ Hs Ha) in HD. injection HD as <-.
    cbn [nodes size]. rewrite length_insert. split; [reflexivity | ]. split.
    + intros a' n' Ha'. destruct (decide (a' = a)) as [-> | Hne].
      * rewrite list_lookup_insert_eq by (now apply lookup_lt_Some in Ha).
        rewrite Ha in Ha'. injection Ha' as <-. eexists.
        split; [reflexivity | ]. cbn [key nexts val].
        split; [reflexivity | ]. split; [reflexivity | ]. congruence.
      * rewrite list_lookup_insert_ne by congruence. eauto.
    + intros Hz k' Hne. apply Search_after_setVal; congruence.
  - rewrite (Delete_absent _ _ Hs) in HD. injection HD as <-.
    split; [reflexivity | ]. split; [eauto | reflexivity].
  - unfold search, Delete in *.
    destruct (searchBounds st k) as [[lb rb] | f' | ]; cbn [bind] in *;
      try discriminate.
    rewrite Hs in HD. discriminate.
  - unfold search, Delete in *.
    destruct (searchBounds st k) as [[lb rb] | f' | ]; cbn [bind] in *;
      try discriminate.
    rewrite Hs in HD. discriminate.
Qed.


(** The list after [Insert("a","1")] and [Insert("b","2")], every tower of
    height one; [Delete("a")] makes it [oneDeleted]. *)
Definition twoLive : skipList string :=
  mkSkipList
    [ mkNode (Some 2%nat :: replicate 15 (Some 1%nat)) "" None;
      mkNode (replicate maxHeight None) "" None;
      mkNode [Some 3%nat] "a" (Some "1");
      mkNode [Some 1%nat] "b" (Some "2") ]
    (Some 0%nat) (Some 1%nat) 2.

Example twoLive_history :
  exists g',
    run (Rand.ofList []) (Some NewSkipList)
      [CallInsert "a" "1"; CallInsert "b" "2"]
    = Ok (Some twoLive, g').
Proof. eexists. vm_compute. reflexivity. Qed.

Lemma Update_overwrites_witness :
  exists st',
    Update (Rand.ofList []) (Some twoLive) "b" (Some "3")
    = Ok (Some st', Rand.ofList [])
    /\ Insert (Rand.ofList []) (Some twoLive) "b" (Some "3")
       = Ok (Some st', Rand.ofList [])
    /\ nodes st'
       = <[3%nat := mkNode [Some 1%nat] "b" (Some "3")]> (nodes twoLive)
    /\ size st' = 2%Z
    /\ ((size st' =? 0)%Z = (size twoLive =? 0)%Z ->
        Search (Some st') "b" = Ok (Some "3")
        /\ forall k', k' <> "b" ->
             Search (Some st') k' = Search (Some twoLive) k').
Proof.
  apply (Update_overwrites (Rand.ofList []) twoLive "b" "3" 3
           (mkNode [Some 1%nat] "b" (Some "2")));
    vm_compute; reflexivity.
Defined.

Lemma Delete_keeps_other_keys_witness :
  length (nodes oneDeleted) = length (nodes twoLive)
  /\ (forall a n, nodes twoLive !! a = Some n ->
        exists n', nodes oneDeleted !! a = Some n' /\ key n' = key n
                   /\ nexts n' = nexts n
                   /\ (key n <> "a" -> val n' = val n))
  /\ ((size oneDeleted =? 0)%Z = (size twoLive =? 0)%Z ->
      forall k', k' <> "a" ->
        Search (Some oneDeleted) k' = Search (Some twoLive) k').
Proof.
  apply (Delete_keeps_other_keys twoLive oneDeleted "a").
  vm_compute. reflexivity.
Defined.

End SkipListFacts.

(** ** Little-endian fields and slices *)

Module BytesFacts.

Import Bytes.
Local Open Scope Z_scope.

Lemma byteToZ_byteOfZ (v : Z) : byteToZ (byteOfZ v) = v mod 256.
Proof.
  unfold byteToZ, byteOfZ.
  pose proof (Z.mod_pos_bound v 256 ltac:(lia)) as Hb.
  destruct (Byte.of_N (Z.to_N (v mod 256))) as [b | ] eqn:E.
  - apply Byte.to_of_N in E. rewrite E. lia.
  - apply Byte.of_N_None_iff in E. lia.
Qed.

(** A value is its low byte joined with the rest, eight bits up. *)
Lemma lor_low_byte (v : Z) :
  Z.lor (v mod 256) (Z.shiftl (Z.shiftr v 8) 8) = v.
Proof.
  apply Z.bits_inj'. intros n Hn. rewrite Z.lor_spec.
  change 256 with (2 ^ 8).
  destruct (Z.ltb_spec n 8) as [Hlt | Hge].
  - rewrite Z.mod_pow2_bits_low by lia.
    rewrite Z.shiftl_spec_low by lia. apply orb_false_r.
  - rewrite Z.mod_pow2_bits_high by lia.
    rewrite Z.shiftl_spec by lia. rewrite Z.shiftr_spec by lia.
    simpl. f_equal. lia.
Qed.

Lemma leValue_leBytes (n : nat) :
  forall v : Z, 0 <= v < 2 ^ (8 * Z.of_nat n) -> leValue (leBytes n v) = v.
Proof.
  induction n as [ | n IH]; intros v Hv.
  - simpl in *. lia.
  - cbn [leBytes leValue]. rewrite byteToZ_byteOfZ.
    rewrite IH; [apply lor_low_byte | ].
    rewrite Z.shiftr_div_pow2 by lia.
    replace (8 * Z.of_nat (S n)) with (8 + 8 * Z.of_nat n) in Hv by lia.
    rewrite Z.pow_add_r in Hv by lia.
    split; [apply Z.div_pos; lia | ].
    apply Z.div_lt_upper_bound; lia.
Qed.

Lemma length_leBytes (n : nat) (v : Z) : length (leBytes n v) = n.
Proof. revert v. induction n as [ | n IH]; intros v; simpl; auto. Qed.

(** The bytes of a slice that starts where [pre] ends. *)
Lemma view_at (m pre x post : memory) (s : slice) :
  m = pre ++ x ++ post ->
  base s = Z.of_nat (length pre) ->
  len s = Z.of_nat (length x) ->
  view m s = x.
Proof.
  intros -> Hb Hl. unfold view. rewrite Hb, Hl, !Nat2Z.id.
  rewrite drop_app_length. now rewrite take_app_length.
Qed.

(** Reading a field that is stored where the slice starts. *)
Lemma UintLE_at (w : nat) (m pre post : memory) (v : Z) (s : slice) :
  m = pre ++ leBytes w v ++ post ->
  base s = Z.of_nat (length pre) ->
  Z.of_nat w <= len s <= Z.of_nat (w + length post) ->
  0 <= v < 2 ^ (8 * Z.of_nat w) ->
  UintLE w m s = Ok v.
Proof.
  intros -> Hb Hl Hv. unfold UintLE, view. rewrite Hb, Nat2Z.id.
  rewrite drop_app_length.
  rewrite length_take, length_app, length_leBytes.
  destruct (Z.leb_spec (Z.of_nat w)
              (Z.of_nat (Z.to_nat (len s) `min` (w + length post))))
    as [_ | Hlt]; [ | lia].
  rewrite take_take.
  replace (w `min` Z.to_nat (len s))%nat with w by lia.
  rewrite <- (length_leBytes w v) at 1. rewrite take_app_length.
  now rewrite leValue_leBytes.
Qed.

Lemma sub_Ok (s : slice) (lo hi : Z) :
  0 <= lo <= hi -> hi <= cap s ->
  sub s lo hi = Ok (mkSlice (base s + lo) (hi - lo) (cap s - lo)).
Proof.
  intros [H0 H1] H2. unfold sub.
  destruct (Z.leb_spec 0 lo); [ | lia].
  destruct (Z.leb_spec lo hi); [ | lia].
  destruct (Z.leb_spec hi (cap s)); [ | lia]. reflexivity.
Qed.

Lemma u16_small (z : Z) : 0 <= z < 65536 -> u16 z = z.
Proof. intros H. unfold u16, wrap. now apply Z.mod_small. Qed.

Lemma u8_small (z : Z) : 0 <= z < 256 -> u8 z = z.
Proof. intros H. unfold u8, wrap. now apply Z.mod_small. Qed.

(** *** Slices of one array, and writes through them *)

Lemma inArray_whole (m : memory) : inArray m (whole m).
Proof. unfold inArray, whole. cbn [base len cap]. lia. Qed.

Lemma sub_cases (s : slice) (lo hi : Z) :
  (0 <= lo <= hi /\ hi <= cap s
   /\ sub s lo hi = Ok (mkSlice (base s + lo) (hi - lo) (cap s - lo)))
  \/ (~ (0 <= lo <= hi /\ hi <= cap s)
      /\ sub s lo hi = Panic SliceOutOfRange).
Proof.
  unfold sub.
  destruct (Z.leb_spec 0 lo); destruct (Z.leb_spec lo hi);
    destruct (Z.leb_spec hi (cap s)); cbn [andb];
    first [left; repeat split; (lia || reflexivity) | right; split; [lia | reflexivity]].
Qed.

Lemma sub_inv (s s' : slice) (lo hi : Z) :
  sub s lo hi = Ok s' ->
  0 <= lo <= hi /\ hi <= cap s
  /\ s' = mkSlice (base s + lo) (hi - lo) (cap s - lo).
Proof.
  intros H. destruct (sub_cases s lo hi) as [(H1 & H2 & E) | (_ & E)];
    rewrite E in H; [ | discriminate].
  injection H as <-. auto.
Qed.

Lemma sub_inArray (m : memory) (s s' : slice) (lo hi : Z) :
  inArray m s -> sub s lo hi = Ok s' -> inArray m s'.
Proof.
  intros (Hb & Hl & Hc) H. apply sub_inv in H as (H1 & H2 & ->).
  unfold inArray. cbn [base len cap]. lia.
Qed.

Lemma length_view (m : memory) (s : slice) :
  inArray m s -> length (view m s) = Z.to_nat (len s).
Proof.
  intros (Hb & Hl & Hc). unfold view. rewrite length_take, length_drop. lia.
Qed.

Lemma view_lookup (m : memory) (s : slice) (i : nat) :
  0 <= base s ->
  view m s !! i
  = if decide (i < Z.to_nat (len s))%nat then m !! (Z.to_nat (base s) + i)%nat
    else None.
Proof.
  intros Hb. unfold view. destruct (decide (i < Z.to_nat (len s))%nat).
  - rewrite lookup_take_lt by assumption. now rewrite lookup_drop.
  - apply lookup_take_ge. lia.
Qed.

Lemma writeAt_cons (m : list byte) (a : nat) (b : byte) (bs : list byte) :
  writeAt m a (b :: bs) = writeAt (<[a := b]> m) (S a) bs.
Proof. reflexivity. Qed.

Lemma length_writeAt (bs : list byte) :
  forall (m : memory) (a : nat), length (writeAt m a bs) = length m.
Proof.
  induction bs as [ | b bs IH]; intros m a; [reflexivity | ].
  now rewrite writeAt_cons, IH, length_insert.
Qed.

Lemma writeAt_lookup (bs : list byte) :
  forall (m : memory) (a i : nat),
    (a + length bs <= length m)%nat ->
    writeAt m a bs !! i
    = if decide (a <= i < a + length bs)%nat then bs !! (i - a)%nat
      else m !! i.
Proof.
  induction bs as [ | b bs IH]; intros m a i Hfit; cbn [length] in Hfit.
  - cbn [writeAt length].
    destruct (decide (a <= i < a + 0)%nat); [lia | reflexivity].
  - rewrite writeAt_cons. cbn [length].
    rewrite IH by (rewrite length_insert; lia).
    destruct (decide (S a <= i < S a + length bs)%nat) as [H1 | H1].
    + rewrite decide_True by lia.
      replace (i - a)%nat with (S (i - S a)) by lia. reflexivity.
    + destruct (decide (i = a)) as [-> | Hne].
      * rewrite decide_True by lia. rewrite Nat.sub_diag. simpl.
        apply list_lookup_insert_eq. lia.
      * rewrite decide_False by lia. now apply list_lookup_insert_ne.
Qed.

(** Two arrays of one length that agree on the first [n] bytes of a
    slice show the same there. *)
Lemma view_ext (m m' : memory) (t : slice) (n : nat) :
  length m' = length m ->
  0 <= base t ->
  (forall i : nat,
     (Z.to_nat (base t) <= i < Z.to_nat (base t) + n)%nat -> m' !! i = m !! i) ->
  length (view m' t) = length (view m t)
  /\ take n (view m' t) = take n (view m t).
Proof.
  intros Hlen Hb Hsame. split.
  - unfold view. now rewrite !length_take, !length_drop, Hlen.
  - apply list_eq. intros i.
    destruct (decide (i < n)%nat) as [Hi | Hi].
    + rewrite !lookup_take_lt by assumption. rewrite !view_lookup by assumption.
      destruct (decide (i < Z.to_nat (len t))%nat); [ | reflexivity].
      apply Hsame. lia.
    + now rewrite !lookup_take_ge by lia.
Qed.

Lemma UintLE_ext (w : nat) (m m' : memory) (t : slice) :
  length m' = length m ->
  0 <= base t ->
  (forall i : nat,
     (Z.to_nat (base t) <= i < Z.to_nat (base t) + w)%nat -> m' !! i = m !! i) ->
  UintLE w m' t = UintLE w m t.
Proof.
  intros Hlen Hb Hsame.
  destruct (view_ext m m' t w Hlen Hb Hsame) as (E1 & E2).
  unfold UintLE. now rewrite E1, E2.
Qed.

Lemma PutUintLE_inv (w : nat) (m m' : memory) (s : slice) (v : Z) :
  PutUintLE w m s v = Ok m' ->
  (w <= length (view m s))%nat
  /\ m' = writeAt m (Z.to_nat (base s)) (leBytes w v).
Proof.
  unfold PutUintLE.
  destruct (Z.leb_spec (Z.of_nat w) (Z.of_nat (length (view m s))));
    [ | discriminate].
  intros [= <-]. split; [lia | reflexivity].
Qed.

Lemma PutUintLE_Ok (w : nat) (m : memory) (s : slice) (v : Z) :
  inArray m s -> Z.of_nat w <= len s ->
  PutUintLE w m s v = Ok (writeAt m (Z.to_nat (base s)) (leBytes w v)).
Proof.
  intros Hin Hw. unfold PutUintLE. rewrite (length_view m s Hin).
  destruct (Z.leb_spec (Z.of_nat w) (Z.of_nat (Z.to_nat (len s))));
    [reflexivity | lia].
Qed.

(** What a write leaves of the array: its length, and every byte outside
    the [w] bytes at the start of the slice. *)
Lemma PutUintLE_frame (w : nat) (m m' : memory) (s : slice) (v : Z) :
  inArray m s ->
  PutUintLE w m s v = Ok m' ->
  length m' = length m
  /\ forall i : nat,
       ~ (Z.to_nat (base s) <= i < Z.to_nat (base s) + w)%nat ->
       m' !! i = m !! i.
Proof.
  intros Hin H. pose proof (length_view m s Hin) as Hlv.
  destruct Hin as (Hb & Hl & Hc).
  apply PutUintLE_inv in H as (Hw & ->).
  split; [apply length_writeAt | ]. intros i Hi.
  rewrite writeAt_lookup by (rewrite length_leBytes; lia).
  rewrite length_leBytes. now rewrite decide_False.
Qed.

(** Reading back what was written. *)
Lemma UintLE_PutUintLE (w : nat) (m m' : memory) (s : slice) (v : Z) :
  inArray m s ->
  0 <= v < 2 ^ (8 * Z.of_nat w) ->
  PutUintLE w m s v = Ok m' ->
  UintLE w m' s = Ok v.
Proof.
  intros Hin Hv H. pose proof (length_view m s Hin) as Hlv.
  pose proof Hin as (Hb & Hl & Hc).
  apply PutUintLE_inv in H as (Hw & ->).
  assert (Hin' : inArray (writeAt m (Z.to_nat (base s)) (leBytes w v)) s).
  { unfold inArray. rewrite length_writeAt. exact Hin. }
  unfold UintLE. rewrite (length_view _ s Hin'), <- Hlv.
  destruct (Z.leb_spec (Z.of_nat w) (Z.of_nat (length (view m s))));
    [ | lia].
  f_equal. rewrite <- (leValue_leBytes w v Hv) at 2. f_equal.
  apply list_eq. intros i.
  destruct (decide (i < w)%nat) as [Hi | Hi].
  - rewrite lookup_take_lt by assumption. rewrite view_lookup by assumption.
    rewrite decide_True by lia.
    rewrite writeAt_lookup by (rewrite length_leBytes; lia).
    rewrite length_leBytes, decide_True by lia. f_equal. lia.
  - rewrite lookup_take_ge by lia. symmetry. apply lookup_ge_None.
    rewrite length_leBytes. lia.
Qed.

Lemma UintLE_range (w : nat) (m : memory) (s : slice) (v : Z) :
  UintLE w m s = Ok v -> 0 <= v < 2 ^ (8 * Z.of_nat w).
Proof.
  unfold UintLE.
  destruct (Z.of_nat w <=? Z.of_nat (length (view m s))); [ | discriminate].
  intros [= <-].
  assert (H : forall bs : list byte,
             0 <= leValue bs < 2 ^ (8 * Z.of_nat (length bs))).
  { induction bs as [ | b bs IH]; [simpl; lia | ].
    cbn [leValue length]. rewrite Nat2Z.inj_succ.
    replace (8 * Z.succ (Z.of_nat (length bs)))
      with (8 + 8 * Z.of_nat (length bs)) by lia.
    assert (Hb : 0 <= byteToZ b < 2 ^ 8).
    { unfold byteToZ. pose proof (Byte.to_N_bounded b). simpl. lia. }
    split.
    - apply Z.lor_nonneg. split; [lia | ]. apply Z.shiftl_nonneg. lia.
    - apply Z.log2_lt_cancel. rewrite Z.log2_pow2 by lia.
      destruct (Z.eq_dec (Z.lor (byteToZ b) (Z.shiftl (leValue bs) 8)) 0)
        as [-> | Hnz]; [simpl; lia | ].
      rewrite Z.log2_lor by (try apply Z.shiftl_nonneg; lia).
      apply Z.max_lub_lt.
      + destruct (Z.eq_dec (byteToZ b) 0) as [-> | Hb0]; [simpl; lia | ].
        assert (Z.log2 (byteToZ b) < 8) by (apply Z.log2_lt_pow2; lia).
        lia.
      + destruct (Z.eq_dec (leValue bs) 0) as [-> | Hl0].
        * rewrite Z.shiftl_0_l. simpl. lia.
        * rewrite Z.log2_shiftl by lia.
          assert (Z.log2 (leValue bs) < 8 * Z.of_nat (length bs))
            by (apply Z.log2_lt_pow2; lia).
          lia. }
  pose proof (H (take w (view m s))) as Hr.
  assert (Hle : (length (take w (view m s)) <= w)%nat)
    by (rewrite length_take; lia).
  split; [lia | ].
  eapply Z.lt_le_trans; [apply Hr | ].
  apply Z.pow_le_mono_r; lia.
Qed.

End BytesFacts.

(** ** The node page codec *)

Module BTreeFacts.

Import Bytes BTree BTreeTest BytesFacts.
Local Open Scope Z_scope.

(** *** Failures of the typed and indexed accessors *)

Lemma checkType_mismatch (m : memory) (node : BTreeNode)
  (type_ actual : BTreeNodeType) :
  getType m node = Ok actual -> actual <> type_ ->
  checkType m node type_ = panicTypeMismatch type_ actual.
Proof.
  intros Ht Hne. unfold checkType. rewrite Ht. cbn [bind].
  destruct (Z.eqb_spec actual type_); [contradiction | reflexivity].
Qed.

Lemma checkType_pass (m : memory) (node : BTreeNode) (type_ : BTreeNodeType) :
  getType m node = Ok type_ -> checkType m node type_ = Ok tt.
Proof.
  intros Ht. unfold checkType. rewrite Ht. cbn [bind].
  now rewrite Z.eqb_refl.
Qed.

Lemma checkIdx_out (m : memory) (node : BTreeNode) (idx count : Z) :
  getCount m node = Ok count -> count <= idx ->
  checkIdx m node idx = panicOutOfBound idx count.
Proof.
  intros Hc Hle. unfold checkIdx. rewrite Hc. cbn [bind].
  destruct (Z.leb_spec count idx); [reflexivity | lia].
Qed.

Lemma checkIdx_pass (m : memory) (node : BTreeNode) (idx count : Z) :
  getCount m node = Ok count -> idx < count ->
  checkIdx m node idx = Ok tt.
Proof.
  intros Hc Hlt. unfold checkIdx. rewrite Hc. cbn [bind].
  destruct (Z.leb_spec count idx); [lia | reflexivity].
Qed.

(** Wrong-type calls of btree.go: child pointers on a node that is not
    internal, key-value pairs on a node that is not a leaf. *)
Lemma wrong_type_panics (m : memory) (node : BTreeNode) (actual : BTreeNodeType)
  (idx ptr : Z) :
  getType m node = Ok actual ->
  (actual <> internal ->
   getChildPtr m node idx = panicTypeMismatch internal actual
   /\ setChildPtr m node idx ptr = panicTypeMismatch internal actual)
  /\ (actual <> leaf ->
      getKV m node idx = panicTypeMismatch leaf actual).
Proof.
  intros Ht. split.
  - intros Hne. unfold getChildPtr, setChildPtr.
    rewrite (checkType_mismatch _ _ _ _ Ht Hne). split; reflexivity.
  - intros Hne. unfold getKV.
    rewrite (checkType_mismatch _ _ _ _ Ht Hne). reflexivity.
Qed.

(** Out-of-range calls of btree.go on a node of the right type: the
    message carries the index and the count. *)
Lemma out_of_range_panics (m : memory) (node : BTreeNode) (count idx ptr : Z) :
  getCount m node = Ok count -> count <= idx ->
  (getType m node = Ok internal ->
   getChildPtr m node idx = Panic (Message (outOfBoundMsg idx count))
   /\ setChildPtr m node idx ptr = Panic (Message (outOfBoundMsg idx count)))
  /\ (getType m node = Ok leaf ->
      getKV m node idx = Panic (Message (outOfBoundMsg idx count))).
Proof.
  intros Hc Hle. split.
  - intros Ht. unfold getChildPtr, setChildPtr.
    rewrite (checkType_pass _ _ _ Ht). cbn [bind].
    rewrite (checkIdx_out _ _ _ _ Hc Hle). split; reflexivity.
  - intros Ht. unfold getKV.
    rewrite (checkType_pass _ _ _ Ht). cbn [bind].
    rewrite (checkIdx_out _ _ _ _ Hc Hle). reflexivity.
Qed.

(** Scenario 4 of the specification: an internal page with count 2. *)
Example getChildPtr_5_of_2 :
  let m := leBytes 2 internal ++ leBytes 2 2 ++ leBytes 2 24
           ++ repeat x00 4090 in
  getChildPtr m (whole m) 5 = Panic (Message "index 5 out of bound 2").
Proof. vm_compute. reflexivity. Qed.

(** *** The layout of an encoded leaf *)

Lemma pairLen_pos (p : kv) : 4 <= pairLen p.
Proof. unfold pairLen, keyLenLen, valueLenLen. lia. Qed.

Lemma pairsLen_nonneg (kvs : list kv) : 0 <= pairsLen kvs.
Proof.
  induction kvs as [ | p kvs IH]; simpl; [lia | ].
  pose proof (pairLen_pos p). lia.
Qed.

Lemma pairsLen_app (l1 l2 : list kv) :
  pairsLen (l1 ++ l2) = pairsLen l1 + pairsLen l2.
Proof. induction l1 as [ | p l1 IH]; simpl; lia. Qed.

Lemma pairsLen_middle (kvs : list kv) (i : nat) (p : kv) :
  kvs !! i = Some p ->
  pairsLen kvs
  = pairsLen (take i kvs) + pairLen p + pairsLen (drop (S i) kvs).
Proof.
  intros Hi. rewrite <- (take_drop_middle kvs i p Hi) at 1.
  rewrite pairsLen_app. simpl. lia.
Qed.

Lemma pairOffsets_lookup (kvs : list kv) :
  forall (start : Z) (i : nat) (p : kv),
    kvs !! i = Some p ->
    pairOffsets start kvs !! i = Some (start + pairsLen (take i kvs)).
Proof.
  induction kvs as [ | q kvs IH]; intros start i p Hi; [discriminate | ].
  destruct i as [ | i]; simpl.
  - f_equal. lia.
  - simpl in Hi. rewrite (IH _ _ _ Hi). f_equal. lia.
Qed.

Lemma length_pairOffsets (kvs : list kv) (start : Z) :
  length (pairOffsets start kvs) = length kvs.
Proof. revert start. induction kvs; intros start; simpl; auto. Qed.

Lemma concat_map_middle {A : Type} (f : A -> list byte) (l : list A)
  (i : nat) (x : A) :
  l !! i = Some x ->
  concat (map f l)
  = concat (map f (take i l)) ++ f x ++ concat (map f (drop (S i) l)).
Proof.
  intros Hi. rewrite <- (take_drop_middle l i x Hi) at 1.
  rewrite map_app, concat_app. reflexivity.
Qed.

Lemma length_offsets_table (l : list Z) :
  length (concat (map (leBytes 2) l)) = (2 * length l)%nat.
Proof.
  induction l as [ | z l IH]; [reflexivity | ].
  cbn [map concat]. rewrite length_app, length_leBytes, IH.
  cbn [length]. lia.
Qed.

Lemma length_encodePair (p : kv) :
  Z.of_nat (length (encodePair p)) = pairLen p.
Proof.
  unfold encodePair, pairLen, keyLenLen, valueLenLen.
  rewrite !length_app, !length_leBytes. lia.
Qed.

Lemma length_pairs (kvs : list kv) :
  Z.of_nat (length (concat (map encodePair kvs))) = pairsLen kvs.
Proof.
  induction kvs as [ | p kvs IH]; [reflexivity | ].
  cbn [map concat pairsLen fold_right].
  rewrite length_app, Nat2Z.inj_add, length_encodePair.
  unfold pairsLen in IH. now rewrite IH.
Qed.

Lemma length_encodeLeaf (kvs : list kv) (unused : list byte) :
  Z.of_nat (length (encodeLeaf kvs unused))
  = leafSize kvs + Z.of_nat (length unused).
Proof.
  unfold encodeLeaf, leafSize, headerLen, kvOffsetLen.
  rewrite !length_app, !length_leBytes, length_offsets_table,
    length_pairOffsets.
  rewrite !Nat2Z.inj_add, length_pairs. simpl length. lia.
Qed.

Section Leaf.

Variable kvs : list kv.
Variable unused : list byte.
Hypothesis fits : leafSize kvs < 65536.

Let m : memory := encodeLeaf kvs unused.
Let node : BTreeNode := whole m.
Let count : Z := Z.of_nat (length kvs).

Lemma leaf_bounds :
  0 <= count /\ 8 + 2 * count + pairsLen kvs = leafSize kvs
  /\ cap node = leafSize kvs + Z.of_nat (length unused)
  /\ len node = cap node /\ base node = 0.
Proof using All.
  unfold node, whole, m. cbn [cap len base]. rewrite length_encodeLeaf.
  unfold leafSize, headerLen, kvOffsetLen, count. lia.
Qed.

Lemma leaf_getType : getType m node = Ok leaf.
Proof using All.
  destruct leaf_bounds as (Hc & Hs & Hcap & Hlen & Hbase).
  pose proof (pairsLen_nonneg kvs) as Hp.
  unfold getType, getSlice, typeOffset, typeLen.
  rewrite u16_small by lia. rewrite sub_Ok by lia. cbn [bind].
  unfold Uint16.
  erewrite (UintLE_at 2 m [] _ leaf); cbn [bind].
  - reflexivity.
  - reflexivity.
  - simpl. lia.
  - cbn [len]. lia.
  - unfold leaf. simpl. lia.
Qed.

Lemma leaf_getCount : getCount m node = Ok count.
Proof using All.
  destruct leaf_bounds as (Hc & Hs & Hcap & Hlen & Hbase).
  pose proof (pairsLen_nonneg kvs) as Hp.
  unfold getCount, getSlice, countOffset, countLen.
  rewrite u16_small by lia. rewrite sub_Ok by lia. cbn [bind].
  unfold Uint16.
  eapply UintLE_at with (pre := leBytes 2 leaf) (v := count).
  - reflexivity.
  - simpl. lia.
  - cbn [len]. lia.
  - simpl. lia.
Qed.

Lemma leaf_getSize : getSize m node = Ok (leafSize kvs).
Proof using All.
  destruct leaf_bounds as (Hc & Hs & Hcap & Hlen & Hbase).
  pose proof (pairsLen_nonneg kvs) as Hp.
  unfold getSize, getSlice, sizeOffset, sizeLen.
  rewrite u16_small by lia. rewrite sub_Ok by lia. cbn [bind].
  unfold Uint16.
  eapply UintLE_at with (pre := leBytes 2 leaf ++ leBytes 2 count)
                        (v := leafSize kvs).
  - unfold m, encodeLeaf. rewrite <- !app_assoc. reflexivity.
  - simpl. lia.
  - cbn [len]. lia.
  - simpl. lia.
Qed.

Lemma leaf_getData :
  getData m node
  = Ok (mkSlice 8 (leafSize kvs - 8) (cap node - 8)).
Proof using All.
  destruct leaf_bounds as (Hc & Hs & Hcap & Hlen & Hbase).
  pose proof (pairsLen_nonneg kvs) as Hp.
  unfold getData. rewrite leaf_getSize. cbn [bind].
  unfold getSlice, dataOffset.
  rewrite (u16_small (leafSize kvs - 8)) by lia.
  replace (8 + (leafSize kvs - 8)) with (leafSize kvs) by lia.
  rewrite u16_small by lia. rewrite sub_Ok by lia.
  rewrite Hbase. reflexivity.
Qed.

(** The bytes in front of the offset table, and in front of the pairs. *)
Let header : list byte :=
  leBytes 2 leaf ++ leBytes 2 count ++ leBytes 2 (leafSize kvs) ++ [x00; x00].
Let table : list byte := concat (map (leBytes 2) (pairOffsets 0 kvs)).

Lemma leaf_offset_at (i : nat) (p : kv) :
  kvs !! i = Some p ->
  exists post,
    m = (header ++ concat (map (leBytes 2) (take i (pairOffsets 0 kvs))))
        ++ leBytes 2 (pairsLen (take i kvs)) ++ post.
Proof using All.
  intros Hi. pose proof (pairOffsets_lookup kvs 0 i p Hi) as Ho.
  rewrite Z.add_0_l in Ho.
  eexists. unfold m, encodeLeaf, header.
  rewrite (concat_map_middle _ _ _ _ Ho).
  repeat rewrite <- app_assoc. reflexivity.
Qed.

Lemma leaf_pair_at (i : nat) (p : kv) :
  kvs !! i = Some p ->
  exists post,
    m = (header ++ table ++ concat (map encodePair (take i kvs)))
        ++ (leBytes 2 (Z.of_nat (length (fst p)))
            ++ leBytes 2 (Z.of_nat (length (snd p)))
            ++ fst p ++ snd p) ++ post.
Proof using All.
  intros Hi. eexists. unfold m, encodeLeaf, header, table.
  rewrite (concat_map_middle encodePair _ _ _ Hi). unfold encodePair at 2.
  repeat rewrite <- app_assoc. reflexivity.
Qed.

Lemma length_header : length header = 8%nat.
Proof using All. reflexivity. Qed.

Lemma length_table : length table = (2 * length kvs)%nat.
Proof using All.
  unfold table. now rewrite length_offsets_table, length_pairOffsets.
Qed.

(** Decoding index [i] of the encoded leaf gives back pair [i]. *)
Lemma leaf_getKV (i : nat) (p : kv) :
  kvs !! i = Some p ->
  exists ks vs,
    getKV m node (Z.of_nat i) = Ok (ks, vs)
    /\ view m ks = fst p /\ view m vs = snd p.
Proof using All.
  intros Hi.
  destruct leaf_bounds as (Hc & Hs & Hcap & Hlen & Hbase).
  pose proof (pairsLen_nonneg (take i kvs)) as Ho.
  pose proof (pairsLen_nonneg (drop (S i) kvs)) as Hrest.
  pose proof (pairsLen_middle kvs i p Hi) as Hmid.
  pose proof (lookup_lt_Some _ _ _ Hi) as Hlt.
  set (o := pairsLen (take i kvs)) in *.
  set (kl := Z.of_nat (length (fst p))).
  set (vl := Z.of_nat (length (snd p))).
  assert (Hpl : pairLen p = 4 + kl + vl)
    by (unfold pairLen, keyLenLen, valueLenLen, kl, vl; lia).
  assert (Hkl : 0 <= kl) by (unfold kl; lia).
  assert (Hvl : 0 <= vl) by (unfold vl; lia).
  destruct (leaf_offset_at i p Hi) as (post1 & Hm1).
  destruct (leaf_pair_at i p Hi) as (post2 & Hm2).
  assert (Hpre1 : Z.of_nat (length (header ++ concat (map (leBytes 2)
                     (take i (pairOffsets 0 kvs))))) = 8 + 2 * Z.of_nat i).
  { rewrite length_app, length_header, length_offsets_table, length_take,
      length_pairOffsets. lia. }
  assert (Hpre2 : Z.of_nat (length (header ++ table
                     ++ concat (map encodePair (take i kvs))))
                  = 8 + 2 * count + o).
  { rewrite !length_app, length_header, length_table.
    rewrite !Nat2Z.inj_add, length_pairs. unfold count, o. lia. }
  unfold getKV.
  rewrite (checkType_pass _ _ _ leaf_getType). cbn [bind].
  rewrite (checkIdx_pass _ _ _ _ leaf_getCount) by (unfold count; lia).
  cbn [bind]. rewrite leaf_getCount. cbn [bind].
  rewrite leaf_getData. cbn [bind].
  unfold upto, from, getSlice, kvOffsetLen, keyLenOffset, keyLenLen,
    valueLenOffset, valueLenLen, keyOffset.
  rewrite (u16_small (count * 2)) by lia.
  rewrite (sub_Ok _ 0 (count * 2)) by (cbn [cap]; lia). cbn [bind base cap len].
  rewrite (u16_small (Z.of_nat i * 2)) by lia.
  rewrite (u16_small (Z.of_nat i * 2 + 2)) by lia.
  rewrite sub_Ok by (cbn [cap]; lia). cbn [bind base cap len].
  unfold Uint16.
  rewrite (UintLE_at 2 m _ post1 o _ Hm1);
    [ | cbn [base]; lia | cbn [len]; lia | simpl; lia].
  cbn [bind].
  rewrite (sub_Ok _ (count * 2)) by (cbn [cap]; lia).
  cbn [bind base cap len].
  rewrite (sub_Ok _ o) by (cbn [cap]; lia). cbn [bind base cap len].
  rewrite (u16_small (0 + 2)) by lia.
  rewrite (sub_Ok _ 0 (0 + 2)) by (cbn [cap]; lia). cbn [bind base cap len].
  assert (Hm2k : m = (header ++ table ++ concat (map encodePair (take i kvs)))
                     ++ leBytes 2 kl
                     ++ (leBytes 2 vl ++ fst p ++ snd p ++ post2)).
  { rewrite Hm2 at 1. now repeat rewrite <- app_assoc. }
  rewrite (UintLE_at 2 m _ _ kl _ Hm2k);
    [ | cbn [base]; lia | cbn [len]; lia | simpl; lia].
  cbn [bind].
  rewrite (u16_small (2 + 2)) by lia.
  rewrite (sub_Ok _ 2 (2 + 2)) by (cbn [cap]; lia). cbn [bind base cap len].
  assert (Hm2v : m = ((header ++ table
                       ++ concat (map encodePair (take i kvs)))
                      ++ leBytes 2 kl)
                     ++ leBytes 2 vl ++ (fst p ++ snd p ++ post2)).
  { rewrite Hm2 at 1. now repeat rewrite <- app_assoc. }
  rewrite (UintLE_at 2 m _ _ vl _ Hm2v);
    [ | cbn [base]; rewrite length_app, Nat2Z.inj_add, Hpre2,
            length_leBytes; lia
      | cbn [len]; lia | simpl; lia].
  cbn [bind].
  rewrite (u16_small (2 + 2 + kl + vl)) by lia.
  rewrite (u16_small (0 + (2 + 2 + kl + vl))) by lia.
  rewrite (sub_Ok _ 0) by (cbn [cap]; lia). cbn [bind base cap len].
  rewrite (u16_small (4 + kl)) by lia.
  rewrite (sub_Ok _ 4) by (cbn [cap]; lia). cbn [bind base cap len].
  rewrite (u16_small (4 + kl + vl)) by lia.
  rewrite (sub_Ok _ (4 + kl)) by (cbn [cap]; lia). cbn [bind base cap len].
  do 2 eexists. split; [reflexivity | ]. split.
  - apply (view_at m ((header ++ table
                        ++ concat (map encodePair (take i kvs)))
                       ++ leBytes 2 kl ++ leBytes 2 vl)
             (fst p) (snd p ++ post2)).
    + rewrite Hm2 at 1. now repeat rewrite <- app_assoc.
    + cbn [base]. rewrite length_app, Nat2Z.inj_add, Hpre2.
      rewrite !length_app, !length_leBytes. lia.
    + cbn [len]. unfold kl. lia.
  - apply (view_at m ((header ++ table
                        ++ concat (map encodePair (take i kvs)))
                       ++ leBytes 2 kl ++ leBytes 2 vl ++ fst p)
             (snd p) post2).
    + rewrite Hm2 at 1. now repeat rewrite <- app_assoc.
    + cbn [base]. rewrite length_app, Nat2Z.inj_add, Hpre2.
      rewrite !length_app, !length_leBytes. unfold kl. lia.
    + cbn [len]. unfold vl. lia.
Qed.

End Leaf.

Lemma pairsLen_take_le (kvs : list kv) (i j : nat) :
  (i <= j)%nat -> pairsLen (take i kvs) <= pairsLen (take j kvs).
Proof.
  intros Hij. replace j with (i + (j - i))%nat by lia.
  rewrite <- take_take_drop, pairsLen_app.
  pose proof (pairsLen_nonneg (take (j - i) (drop i kvs))). lia.
Qed.

(** The offset table of an encoded leaf is non-decreasing. *)
Lemma pairOffsets_monotone (kvs : list kv) (i j : nat) (a b : Z) :
  (i <= j)%nat ->
  pairOffsets 0 kvs !! i = Some a ->
  pairOffsets 0 kvs !! j = Some b ->
  a <= b.
Proof.
  intros Hij Ha Hb.
  pose proof (lookup_lt_Some _ _ _ Ha) as Hi.
  pose proof (lookup_lt_Some _ _ _ Hb) as Hj.
  rewrite length_pairOffsets in Hi, Hj.
  destruct (lookup_lt_is_Some_2 kvs i Hi) as [p Hp].
  destruct (lookup_lt_is_Some_2 kvs j Hj) as [q Hq].
  rewrite (pairOffsets_lookup _ _ _ _ Hp) in Ha.
  rewrite (pairOffsets_lookup _ _ _ _ Hq) in Hb.
  injection Ha as <-. injection Hb as <-.
  pose proof (pairsLen_take_le kvs i j Hij). lia.
Qed.

(** [[]byte(s)] for the keys and values of the examples. *)
Definition bytesOf (s : string) : list byte := list_byte_of_string s.

Definition alphaBeta : list kv :=
  [ (bytesOf "alpha", bytesOf "1"); (bytesOf "beta", bytesOf "22") ].

(** The example page, filled up to the 4096 bytes of a node. *)
Definition alphaBetaPage : memory :=
  encodeLeaf alphaBeta (repeat x00 (4096 - 32)).

(** C7, as stated, fails in its example: the page that holds
    [("alpha","1"), ("beta","22")] uses 8 + 2*2 + (4+5+1) + (4+4+2) = 32
    bytes, and that is its [size] field, not 31. *)
Lemma alphaBeta_size_is_not_31 :
  length alphaBetaPage = 4096%nat
  /\ getSize alphaBetaPage (whole alphaBetaPage) <> Ok 31.
Proof. split; [reflexivity | ]. vm_compute. discriminate. Qed.

(** C7, amended. A leaf page that encodes pairs in the layout of btree.go
    (8-byte header, offset table, packed pairs, then unused bytes), its
    used size fitting the uint16 [size] field, has the number of pairs as
    its [count], the used bytes as its [size] and a non-decreasing offset
    table, and [getKV(i)] for every [i] below the count returns two slices
    of the page that show the bytes of the key and of the value of pair
    [i]. In particular the page of [("alpha","1"), ("beta","22")] has
    count 2 and size 32, and [getKV(0)], [getKV(1)] return these pairs. *)
Theorem leaf_round_trip (kvs : list kv) (unused : list byte) :
  leafSize kvs < 65536 ->
  let m := encodeLeaf kvs unused in
  getCount m (whole m) = Ok (Z.of_nat (length kvs))
  /\ getSize m (whole m) = Ok (leafSize kvs)
  /\ (forall (i : nat) (p : kv),
        kvs !! i = Some p ->
        exists ks vs,
          getKV m (whole m) (Z.of_nat i) = Ok (ks, vs)
          /\ view m ks = fst p /\ view m vs = snd p)
  /\ (forall (i j : nat) (a b : Z),
        (i <= j)%nat ->
        pairOffsets 0 kvs !! i = Some a ->
        pairOffsets 0 kvs !! j = Some b ->
        a <= b)
  /\ (getCount alphaBetaPage (whole alphaBetaPage) = Ok 2
      /\ getSize alphaBetaPage (whole alphaBetaPage) = Ok 32
      /\ (exists ks vs,
            getKV alphaBetaPage (whole alphaBetaPage) 0 = Ok (ks, vs)
            /\ view alphaBetaPage ks = bytesOf "alpha"
            /\ view alphaBetaPage vs = bytesOf "1")
      /\ (exists ks vs,
            getKV alphaBetaPage (whole alphaBetaPage) 1 = Ok (ks, vs)
            /\ view alphaBetaPage ks = bytesOf "beta"
            /\ view alphaBetaPage vs = bytesOf "22")).
Proof.
  intros Hfits m. split; [now apply leaf_getCount | ].
  split; [now apply leaf_getSize | ].
  split; [intros i p Hi; now apply leaf_getKV | ].
  split; [apply pairOffsets_monotone | ].
  split; [vm_compute; reflexivity | ].
  split; [vm_compute; reflexivity | ].
  split.
  - eexists. eexists. split; [vm_compute; reflexivity | ].
    split; vm_compute; reflexivity.
  - eexists. eexists. split; [vm_compute; reflexivity | ].
    split; vm_compute; reflexivity.
Qed.

(** Three pairs of other sizes, the second with an empty value. *)
Definition threePairs : list kv :=
  [ (bytesOf "k", bytesOf "value"); (bytesOf "kk", []);
    (bytesOf "kkk", bytesOf "v") ].

Lemma leaf_round_trip_witness :
  leafSize threePairs < 65536
  /\ exists ks vs,
       getKV (encodeLeaf threePairs []) (whole (encodeLeaf threePairs []))
         (Z.of_nat 2) = Ok (ks, vs)
       /\ view (encodeLeaf threePairs []) ks = bytesOf "kkk"
       /\ view (encodeLeaf threePairs []) vs = bytesOf "v".
Proof.
  assert (Hfits : leafSize threePairs < 65536) by (vm_compute; reflexivity).
  split; [exact Hfits | ].
  exact (proj1 (proj2 (proj2 (leaf_round_trip threePairs [] Hfits)))
           2%nat (bytesOf "kkk", bytesOf "v") eq_refl).
Defined.

(** *** Header fields, the data part and child pointers *)

Lemma getSlice_small (s : slice) (offset len_ : Z) :
  0 <= offset -> 0 <= len_ -> offset + len_ < 65536 -> offset + len_ <= cap s ->
  getSlice s offset len_ = Ok (mkSlice (base s + offset) len_ (cap s - offset)).
Proof.
  intros Ho Hl Hw Hc. unfold getSlice. rewrite u16_small by lia.
  rewrite sub_Ok by lia. do 2 f_equal. lia.
Qed.

Lemma u16_wrapped (z : Z) : 65536 <= z < 131072 -> u16 z = z - 65536.
Proof.
  intros H. unfold u16, wrap. symmetry.
  apply Z.mod_unique with (q := 1); lia.
Qed.

(** X14. [getSlice(slice, offset, len)] with a window that fits (the sum
    [offset+len] below 2^16 and within the capacity) returns a slice that
    shows the [len] bytes behind [offset]; it panics with slice bounds out
    of range when the sum wraps in uint16 or passes the capacity. As in Go
    the window may reach behind [len(slice)], up to the capacity. *)
Theorem getSlice_window (m : memory) (s : slice) (offset len_ : Z) :
  inArray m s ->
  0 <= offset < 65536 -> 0 <= len_ < 65536 ->
  (offset + len_ < 65536 /\ offset + len_ <= cap s ->
   exists s',
     getSlice s offset len_ = Ok s'
     /\ inArray m s'
     /\ length (view m s') = Z.to_nat len_
     /\ (offset + len_ <= len s ->
         view m s' = take (Z.to_nat len_) (drop (Z.to_nat offset) (view m s))))
  /\ (65536 <= offset + len_ \/ cap s < offset + len_ ->
      getSlice s offset len_ = Panic SliceOutOfRange).
Proof.
  intros Hin Ho Hl. pose proof Hin as (Hb & Hlen & Hc). split.
  - intros (Hw & Hcap). eexists. split; [now apply getSlice_small | ].
    assert (Hin' : inArray m (mkSlice (base s + offset) len_ (cap s - offset))).
    { unfold inArray. cbn [base len cap]. lia. }
    split; [exact Hin' | ]. split; [now rewrite length_view | ].
    intros Hfit. apply list_eq. intros i.
    rewrite view_lookup by (cbn [base]; lia). cbn [base len].
    destruct (decide (i < Z.to_nat len_)%nat) as [Hi | Hi].
    + rewrite lookup_take_lt by assumption. rewrite lookup_drop.
      rewrite view_lookup by assumption. rewrite decide_True by lia.
      f_equal. lia.
    + now rewrite lookup_take_ge by lia.
  - intros Hout. unfold getSlice.
    destruct (sub_cases s offset (u16 (offset + len_)))
      as [(H1 & H2 & _) | (_ & E)]; [ | exact E].
    exfalso.
    destruct (Z.lt_ge_cases (offset + len_) 65536) as [Hlt | Hge].
    + rewrite u16_small in * by lia. lia.
    + rewrite u16_wrapped in * by lia. lia.
Qed.

(** The slice of a two-byte header field. *)
Definition field (node : BTreeNode) (off : Z) : slice :=
  mkSlice (base node + off) 2 (cap node - off).

Lemma getSlice_field (node : BTreeNode) (off : Z) :
  0 <= off -> off + 2 < 65536 -> off + 2 <= cap node ->
  getSlice node off 2 = Ok (field node off).
Proof. intros. now apply getSlice_small. Qed.

Lemma inArray_field (m : memory) (node : BTreeNode) (off : Z) :
  inArray m node -> 0 <= off -> off + 2 <= cap node ->
  inArray m (field node off).
Proof.
  intros (Hb & Hl & Hc) Ho Hcap. unfold inArray, field. cbn [base len cap].
  lia.
Qed.

Lemma getType_field (m : memory) (node : BTreeNode) :
  2 <= cap node ->
  getType m node = (v <- Uint16 m (field node 0) ;; Ok (u8 v)).
Proof.
  intros H. unfold getType, typeOffset, typeLen.
  now rewrite getSlice_field by lia.
Qed.

Lemma getCount_field (m : memory) (node : BTreeNode) :
  4 <= cap node -> getCount m node = Uint16 m (field node 2).
Proof.
  intros H. unfold getCount, countOffset, countLen.
  now rewrite getSlice_field by lia.
Qed.

Lemma getSize_field (m : memory) (node : BTreeNode) :
  6 <= cap node -> getSize m node = Uint16 m (field node 4).
Proof.
  intros H. unfold getSize, sizeOffset, sizeLen.
  now rewrite getSlice_field by lia.
Qed.

Lemma setType_field (m : memory) (node : BTreeNode) (v : Z) :
  2 <= cap node -> setType m node v = PutUint16 m (field node 0) v.
Proof.
  intros H. unfold setType, typeOffset, typeLen.
  now rewrite getSlice_field by lia.
Qed.

Lemma setCount_field (m : memory) (node : BTreeNode) (v : Z) :
  4 <= cap node -> setCount m node v = PutUint16 m (field node 2) v.
Proof.
  intros H. unfold setCount, countOffset, countLen.
  now rewrite getSlice_field by lia.
Qed.

Lemma setSize_field (m : memory) (node : BTreeNode) (v : Z) :
  6 <= cap node -> setSize m node v = PutUint16 m (field node 4) v.
Proof.
  intros H. unfold setSize, sizeOffset, sizeLen.
  now rewrite getSlice_field by lia.
Qed.

(** Writing one field and reading a field: the same one gives the value
    back, another one is as before. *)
Lemma field_put (m : memory) (node : BTreeNode) (off v : Z) :
  inArray m node -> 0 <= off -> off + 2 <= cap node -> 0 <= v < 65536 ->
  exists m',
    PutUint16 m (field node off) v = Ok m'
    /\ length m' = length m
    /\ Uint16 m' (field node off) = Ok v
    /\ (forall i : nat,
          ~ (Z.to_nat (base node + off) <= i < Z.to_nat (base node + off) + 2)%nat ->
          m' !! i = m !! i)
    /\ (forall off' : Z,
          0 <= off' -> (off' + 2 <= off \/ off + 2 <= off') ->
          Uint16 m' (field node off') = Uint16 m (field node off')).
Proof.
  intros Hin Ho Hcap Hv.
  pose proof (inArray_field m node off Hin Ho Hcap) as Hf.
  pose proof Hin as (Hb & Hl & Hc).
  unfold PutUint16, Uint16.
  assert (Hw : Z.of_nat 2 <= len (field node off)) by (cbn [field len]; lia).
  rewrite PutUintLE_Ok by assumption.
  eexists. split; [reflexivity | ].
  destruct (PutUintLE_frame 2 m _ (field node off) v Hf
              (PutUintLE_Ok 2 m _ v Hf Hw))
    as (Hlen & Hout).
  cbn [field base] in Hout.
  split; [exact Hlen | ]. split.
  - apply (UintLE_PutUintLE 2 m); [assumption | simpl; lia | ].
    now apply PutUintLE_Ok.
  - split; [exact Hout | ].
    intros off' Ho' Hdis.
    apply UintLE_ext; [assumption | cbn [field base]; lia | ].
    intros i Hi. cbn [field base] in Hi. apply Hout. lia.
Qed.


(** X16. On a node that has room for its header, each of [setType],
    [setCount] and [setSize] returns, and the getter of the same field then
    reads the value that was stored ([TestSetGetType], [TestSetGetCount],
    [TestSetGetSize], for every page and value). *)
Theorem header_round_trip (m : memory) (node : BTreeNode)
  (type_ : BTreeNodeType) (count size : Z) :
  inArray m node -> headerLen <= cap node ->
  0 <= type_ < 256 -> 0 <= count < 65536 -> 0 <= size < 65536 ->
  (exists m', setType m node type_ = Ok m' /\ getType m' node = Ok type_)
  /\ (exists m', setCount m node count = Ok m'
                 /\ getCount m' node = Ok count)
  /\ (exists m', setSize m node size = Ok m' /\ getSize m' node = Ok size).
Proof.
  unfold headerLen. intros Hin Hcap Ht Hc Hs.
  split; [ | split].
  - destruct (field_put m node 0 type_ Hin) as (m' & HP & _ & HU & _);
      [lia .. | ].
    exists m'. rewrite setType_field, getType_field by lia.
    split; [exact HP | ]. rewrite HU. cbn [bind]. now rewrite u8_small.
  - destruct (field_put m node 2 count Hin) as (m' & HP & _ & HU & _);
      [lia .. | ].
    exists m'. rewrite setCount_field, getCount_field by lia. auto.
  - destruct (field_put m node 4 size Hin) as (m' & HP & _ & HU & _);
      [lia .. | ].
    exists m'. rewrite setSize_field, getSize_field by lia. auto.
Qed.

(** X17. A header setter changes the two bytes of its own field and no
    other byte of the array, which keeps its length; the other two header
    fields read as before. *)
Theorem header_setters_frame (m m' : memory) (node : BTreeNode) (v : Z) :
  inArray m node -> headerLen <= cap node -> 0 <= v < 65536 ->
  (setType m node v = Ok m' ->
   length m' = length m
   /\ getCount m' node = getCount m node /\ getSize m' node = getSize m node
   /\ forall i : nat,
        ~ (Z.to_nat (base node) <= i < Z.to_nat (base node) + 2)%nat ->
        m' !! i = m !! i)
  /\ (setCount m node v = Ok m' ->
      length m' = length m
      /\ getType m' node = getType m node /\ getSize m' node = getSize m node
      /\ forall i : nat,
           ~ (Z.to_nat (base node) + 2 <= i < Z.to_nat (base node) + 4)%nat ->
           m' !! i = m !! i)
  /\ (setSize m node v = Ok m' ->
      length m' = length m
      /\ getType m' node = getType m node
      /\ getCount m' node = getCount m node
      /\ forall i : nat,
           ~ (Z.to_nat (base node) + 4 <= i < Z.to_nat (base node) + 6)%nat ->
           m' !! i = m !! i).
Proof.
  unfold headerLen. intros Hin Hcap Hv. pose proof Hin as (Hb & _ & _).
  rewrite setType_field, setCount_field, setSize_field by lia.
  rewrite !getType_field, !getCount_field, !getSize_field by lia.
  split; [ | split]; intros HP.
  - destruct (field_put m node 0 v Hin) as (m1 & HP1 & Hlen & _ & Hout & Hoth);
      [lia .. | ].
    rewrite HP in HP1. injection HP1 as <-.
    split; [exact Hlen | ]. rewrite !Hoth by lia.
    split; [reflexivity | ]. split; [reflexivity | ].
    intros i Hi. apply Hout. rewrite Z.add_0_r. lia.
  - destruct (field_put m node 2 v Hin) as (m1 & HP1 & Hlen & _ & Hout & Hoth);
      [lia .. | ].
    rewrite HP in HP1. injection HP1 as <-.
    split; [exact Hlen | ]. rewrite !Hoth by lia.
    split; [reflexivity | ]. split; [reflexivity | ].
    intros i Hi. apply Hout. lia.
  - destruct (field_put m node 4 v Hin) as (m1 & HP1 & Hlen & _ & Hout & Hoth);
      [lia .. | ].
    rewrite HP in HP1. injection HP1 as <-.
    split; [exact Hlen | ]. rewrite !Hoth by lia.
    split; [reflexivity | ]. split; [reflexivity | ].
    intros i Hi. apply Hout. lia.
Qed.

Lemma low_byte (a c : Z) : 0 <= a < 256 -> u8 (Z.lor a (Z.shiftl c 8)) = a.
Proof.
  intros Ha. unfold u8, wrap. rewrite <- (Z.mod_small a (2 ^ 8)) at 2 by lia.
  apply Z.bits_inj'. intros n Hn.
  destruct (Z.ltb_spec n 8) as [Hlt | Hge].
  - rewrite !Z.mod_pow2_bits_low by lia. rewrite Z.lor_spec.
    rewrite Z.shiftl_spec_low by lia. apply orb_false_r.
  - now rewrite !Z.mod_pow2_bits_high by lia.
Qed.

Lemma byteToZ_range (b : byte) : 0 <= byteToZ b < 256.
Proof. unfold byteToZ. pose proof (Byte.to_N_bounded b). lia. Qed.

(** X15. [getType] converts the uint16 it reads to a byte: the type of a
    node is the first byte of its type field, whatever the second byte
    holds. *)
Theorem getType_reads_low_byte (m : memory) (node : BTreeNode)
  (b0 b1 : byte) (rest : list byte) :
  inArray m node ->
  view m node = b0 :: b1 :: rest ->
  getType m node = Ok (byteToZ b0).
Proof.
  intros Hin Hview. pose proof (length_view m node Hin) as Hlen.
  rewrite Hview in Hlen. cbn [length] in Hlen.
  pose proof Hin as (Hb & Hl & Hc).
  rewrite getType_field by lia. unfold Uint16, UintLE.
  assert (Hf : view m (field node 0) = [b0; b1]).
  { apply list_eq. intros i. rewrite view_lookup by (cbn [field base]; lia).
    cbn [field base len]. rewrite Z.add_0_r.
    pose proof (view_lookup m node i Hb) as Hi. rewrite Hview in Hi.
    destruct i as [ | [ | i]].
    - rewrite decide_True by lia. rewrite decide_True in Hi by lia.
      now rewrite <- Hi.
    - rewrite decide_True by lia. rewrite decide_True in Hi by lia.
      now rewrite <- Hi.
    - rewrite decide_False by lia. reflexivity. }
  rewrite Hf. cbn [length take leValue].
  change (Z.of_nat 2 <=? Z.of_nat 2) with true. cbn [bind].
  f_equal. apply low_byte. apply byteToZ_range.
Qed.

(** X19. [getData] returns the window from byte 8 up to the [size] field
    when that field lies between 8 and the capacity of the node
    ([TestGetData]); with a size below 8 (the subtraction wraps in uint16)
    or above the capacity it panics with slice bounds out of range. *)
Theorem getData_window (m : memory) (node : BTreeNode) (size : Z) :
  inArray m node ->
  getSize m node = Ok size ->
  (dataOffset <= size <= cap node ->
   exists data,
     getData m node = Ok data
     /\ base data = base node + dataOffset /\ len data = size - dataOffset
     /\ cap data = cap node - dataOffset
     /\ (size <= len node ->
         view m data
         = take (Z.to_nat (size - dataOffset))
             (drop (Z.to_nat dataOffset) (view m node))))
  /\ (size < dataOffset \/ cap node < size ->
      getData m node = Panic SliceOutOfRange).
Proof.
  unfold dataOffset. intros Hin Hsz.
  assert (Hr : 0 <= size < 65536).
  { unfold getSize in Hsz. apply bind_Ok in Hsz as (s & _ & Hsz).
    apply UintLE_range in Hsz. simpl in Hsz. lia. }
  unfold getData. rewrite Hsz. cbn [bind]. unfold dataOffset. split.
  - intros Hfit. rewrite (u16_small (size - 8)) by lia.
    destruct (getSlice_window m node 8 (size - 8) Hin) as [Hok _];
      [lia .. | ].
    destruct Hok as (data & E & _ & _ & Hview); [lia | ].
    exists data. split; [exact E | ].
    rewrite getSlice_small in E by lia. injection E as <-.
    cbn [base len cap]. repeat split. intros Hlen. apply Hview. lia.
  - intros Hout. destruct (Z.lt_ge_cases size 8) as [Hlt | Hge].
    + unfold getSlice.
      replace (u16 (size - 8)) with (size - 8 + 65536).
      2:{ unfold u16, wrap. apply Z.mod_unique with (q := -1); lia. }
      rewrite u16_wrapped by lia.
      destruct (sub_cases node 8 (8 + (size - 8 + 65536) - 65536))
        as [(H1 & _) | (_ & E)]; [lia | exact E].
    + rewrite (u16_small (size - 8)) by lia.
      destruct (getSlice_window m node 8 (size - 8) Hin) as [_ Hp];
        [lia .. | ].
      apply Hp. lia.
Qed.


(** Two arrays that agree on the six bytes of the header fields give the
    same type, count and size. *)
Lemma header_ext (m m' : memory) (node : BTreeNode) :
  length m' = length m -> 0 <= base node ->
  (forall i : nat,
     (Z.to_nat (base node) <= i < Z.to_nat (base node) + 6)%nat ->
     m' !! i = m !! i) ->
  getType m' node = getType m node
  /\ getCount m' node = getCount m node
  /\ getSize m' node = getSize m node.
Proof.
  intros Hlen Hb Hsame.
  assert (H : forall off : Z, 0 <= off <= 4 ->
            forall s, getSlice node off 2 = Ok s ->
                      Uint16 m' s = Uint16 m s).
  { intros off Ho s Hs. unfold getSlice in Hs.
    apply sub_inv in Hs as (_ & _ & ->).
    apply UintLE_ext; [assumption | cbn [base]; lia | ].
    intros i Hi. cbn [base] in Hi. apply Hsame. lia. }
  unfold getType, getCount, getSize, typeOffset, typeLen, countOffset,
    countLen, sizeOffset, sizeLen.
  split; [ | split].
  - destruct (getSlice node 0 2) as [s | f | ] eqn:E; cbn [bind];
      try reflexivity.
    now rewrite (H 0 ltac:(lia) s E).
  - destruct (getSlice node 2 2) as [s | f | ] eqn:E; cbn [bind];
      try reflexivity.
    now rewrite (H 2 ltac:(lia) s E).
  - destruct (getSlice node 4 2) as [s | f | ] eqn:E; cbn [bind];
      try reflexivity.
    now rewrite (H 4 ltac:(lia) s E).
Qed.

Lemma getData_inv (m : memory) (node : BTreeNode) (data : slice) :
  inArray m node -> getData m node = Ok data ->
  inArray m data /\ base data = base node + 8 /\ cap data = cap node - 8.
Proof.
  intros Hin H. unfold getData in H. apply bind_Ok in H as (size & _ & H).
  unfold getSlice, dataOffset in H. split; [exact (sub_inArray _ _ _ _ _ Hin H) | ].
  apply sub_inv in H as (_ & _ & ->). cbn [base cap]. lia.
Qed.

(** The child pointer at [idx] depends on the header fields and on the
    eight bytes of its slot. *)
Lemma getChildPtr_ext (m m' : memory) (node : BTreeNode) (idx : Z) :
  inArray m node ->
  length m' = length m ->
  (forall i : nat,
     (Z.to_nat (base node) <= i < Z.to_nat (base node) + 6)%nat ->
     m' !! i = m !! i) ->
  (forall i : nat,
     (Z.to_nat (base node + 8 + u16 (idx * 8)) <= i
      < Z.to_nat (base node + 8 + u16 (idx * 8)) + 8)%nat ->
     m' !! i = m !! i) ->
  getChildPtr m' node idx = getChildPtr m node idx.
Proof.
  intros Hin Hlen Hhead Hslot. pose proof Hin as (Hb & _ & _).
  destruct (header_ext m m' node Hlen Hb Hhead) as (Ht & Hc & Hs).
  assert (Hin' : inArray m' node) by (unfold inArray; now rewrite Hlen).
  unfold getChildPtr, checkType, checkIdx. rewrite Ht, Hc.
  destruct (getType m node) as [t | f | ]; cbn [bind]; try reflexivity.
  destruct (negb (t =? internal)); cbn [bind]; [reflexivity | ].
  destruct (getCount m node) as [c | f | ]; cbn [bind]; try reflexivity.
  destruct (c <=? idx); cbn [bind]; [reflexivity | ].
  unfold getData. rewrite Hs.
  fold (getData m node).
  destruct (getData m node) as [data | f | ] eqn:Hd; cbn [bind];
    try reflexivity.
  destruct (getData_inv m node data Hin Hd) as (_ & Hbd & _).
  unfold childPtrLen.
  destruct (getSlice data (u16 (idx * 8)) 8) as [s | f | ] eqn:E;
    cbn [bind]; try reflexivity.
  unfold getSlice in E. apply sub_inv in E as ((H0 & _) & _ & ->).
  apply UintLE_ext; [assumption | cbn [base]; lia | ].
  intros i Hi. cbn [base] in Hi. apply Hslot. rewrite Hbd in Hi.
  lia.
Qed.

(** X20. When [setChildPtr(idx, ptr)] returns, [getChildPtr(idx)] on the
    written page returns [ptr]; every other child pointer reads as before,
    and so do type, count and size ([TestChildPtr]). Indices are below
    8192, where [idx*8] does not wrap in uint16. *)
Theorem setChildPtr_getChildPtr (m m' : memory) (node : BTreeNode)
  (idx ptr : Z) :
  inArray m node ->
  0 <= idx < 8192 -> 0 <= ptr < 2 ^ 64 ->
  setChildPtr m node idx ptr = Ok m' ->
  getChildPtr m' node idx = Ok ptr
  /\ (forall j : Z, 0 <= j < 8192 -> j <> idx ->
        getChildPtr m' node j = getChildPtr m node j)
  /\ getType m' node = getType m node
  /\ getCount m' node = getCount m node
  /\ getSize m' node = getSize m node
  /\ length m' = length m.
Proof.
  intros Hin Hidx Hptr HS. pose proof Hin as (Hb & Hl & Hc).
  unfold setChildPtr in HS.
  apply bind_Ok in HS as ([] & HcT & HS).
  apply bind_Ok in HS as ([] & HcI & HS).
  apply bind_Ok in HS as (data & Hd & HS).
  apply bind_Ok in HS as (s & Hs & HS).
  destruct (getData_inv m node data Hin Hd) as (Hind & Hbd & Hcd).
  unfold getSlice, childPtrLen in Hs.
  rewrite (u16_small (idx * 8)) in Hs by lia.
  pose proof (sub_inArray m _ _ _ _ Hind Hs) as Hins.
  apply sub_inv in Hs as (Hlo & Hfit & Es).
  assert (Hnowrap : idx * 8 + 8 < 65536).
  { destruct (Z.lt_ge_cases (idx * 8 + 8) 65536) as [ | Hge]; [assumption | ].
    rewrite u16_wrapped in Hlo by lia. lia. }
  rewrite u16_small in Hfit, Es by lia.
  assert (Ebase : base s = base node + 8 + idx * 8) by (subst s; cbn [base]; lia).
  assert (Elen : len s = 8) by (subst s; cbn [len]; lia).
  unfold PutUint64 in HS.
  destruct (PutUintLE_frame 8 m m' s ptr Hins HS) as (Hlen & Hout).
  assert (Hhead : forall i : nat,
            (Z.to_nat (base node) <= i < Z.to_nat (base node) + 6)%nat ->
            m' !! i = m !! i).
  { intros i Hi. apply Hout. lia. }
  destruct (header_ext m m' node Hlen Hb Hhead) as (Ht & Hcn & Hsz).
  assert (Hin' : inArray m' node) by (unfold inArray; now rewrite Hlen).
  split; [ | split; [ | repeat split; assumption]].
  - unfold getChildPtr.
    assert (HcT' : checkType m' node internal = Ok tt)
      by (unfold checkType in *; now rewrite Ht).
    assert (HcI' : checkIdx m' node idx = Ok tt)
      by (unfold checkIdx in *; now rewrite Hcn).
    assert (Hd' : getData m' node = Ok data)
      by (unfold getData in *; now rewrite Hsz).
    rewrite HcT', HcI', Hd'. cbn [bind].
    unfold getSlice, childPtrLen. rewrite (u16_small (idx * 8)) by lia.
    rewrite u16_small by lia. rewrite sub_Ok by lia. cbn [bind].
    rewrite <- Es. unfold Uint64.
    apply (UintLE_PutUintLE 8 m); [assumption | simpl; lia | assumption].
  - intros j Hj Hne. apply getChildPtr_ext; try assumption.
    intros i Hi. apply Hout. rewrite (u16_small (j * 8)) in Hi by lia. lia.
Qed.



Lemma within_refl (s : slice) : 0 <= len s <= cap s -> within s s.
Proof. unfold within. lia. Qed.

Lemma sub_within (s t t' : slice) (lo hi : Z) :
  within s t -> sub t lo hi = Ok t' -> within s t'.
Proof.
  intros (H1 & H2 & H3) H. apply sub_inv in H as (Hlo & Hhi & ->).
  unfold within. cbn [base len cap]. lia.
Qed.

(** X22. Whatever offsets and lengths a leaf page holds, when [getKV]
    returns, the key and the value are windows inside the capacity of the
    node, behind the header and the two length fields, and the value
    starts where the key ends. *)
Theorem getKV_stays_in_page (m : memory) (node : BTreeNode) (idx : Z)
  (k v : slice) :
  inArray m node ->
  getKV m node idx = Ok (k, v) ->
  within node k /\ within node v
  /\ base node + headerLen + keyOffset <= base k
  /\ base v = base k + len k.
Proof.
  intros Hin H. pose proof Hin as (Hb & Hl & Hc).
  unfold getKV in H.
  apply bind_Ok in H as ([] & _ & H).
  apply bind_Ok in H as ([] & _ & H).
  apply bind_Ok in H as (count & _ & H).
  apply bind_Ok in H as (data & Hd & H).
  apply bind_Ok in H as (kvOffsets & H1 & H).
  apply bind_Ok in H as (s1 & _ & H).
  apply bind_Ok in H as (kvOffset & _ & H).
  apply bind_Ok in H as (kvPairs & H2 & H).
  apply bind_Ok in H as (kvPair & H3 & H).
  apply bind_Ok in H as (s2 & _ & H).
  apply bind_Ok in H as (keyLen & _ & H).
  apply bind_Ok in H as (s3 & _ & H).
  apply bind_Ok in H as (valueLen & _ & H).
  apply bind_Ok in H as (kvPair' & H4 & H).
  apply bind_Ok in H as (k0 & H5 & H).
  apply bind_Ok in H as (v0 & H6 & H).
  injection H as <- <-.
  assert (Wd : within node data /\ base node + 8 <= base data).
  { unfold getData in Hd. apply bind_Ok in Hd as (size & _ & Hd).
    unfold getSlice, dataOffset in Hd. split.
    - exact (sub_within node node _ _ _ (within_refl _ Hl) Hd).
    - apply sub_inv in Hd as (_ & _ & ->). cbn [base]. lia. }
  destruct Wd as (Wd & Bd).
  unfold from, upto, getSlice, keyLenOffset, keyLenLen, keyOffset in *.
  pose proof (sub_within _ _ _ _ _ Wd H2) as W2.
  apply sub_inv in H2 as ((L2 & _) & _ & E2).
  pose proof (sub_within _ _ _ _ _ W2 H3) as W3.
  apply sub_inv in H3 as ((L3 & _) & _ & E3).
  pose proof (sub_within _ _ _ _ _ W3 H4) as W4.
  apply sub_inv in H4 as (_ & _ & E4).
  pose proof (sub_within _ _ _ _ _ W4 H5) as W5.
  pose proof (sub_within _ _ _ _ _ W4 H6) as W6.
  apply sub_inv in H5 as (L5 & _ & E5).
  apply sub_inv in H6 as (L6 & _ & E6).
  split; [exact W5 | ]. split; [exact W6 | ].
  unfold headerLen. subst k0 v0. cbn [base len].
  subst kvPair' kvPair kvPairs. cbn [base] in *. lia.
Qed.


Lemma inArray_length (m m' : memory) (s : slice) :
  length m' = length m -> inArray m s -> inArray m' s.
Proof. unfold inArray. intros ->. auto. Qed.

(** X18. The helper [getNode] of btree_test.go: on any 4096 bytes the
    three setters return one after the other, the page then reads the type,
    count and size asked for, and every byte from the sixth on is as it
    was. *)
Theorem getNode_header (page : memory) (type_ : BTreeNodeType)
  (count size : Z) :
  length page = 4096%nat ->
  0 <= type_ < 256 -> 0 <= count < 65536 -> 0 <= size < 65536 ->
  exists m node,
    getNode page type_ count size = Ok (m, node)
    /\ length m = 4096%nat /\ len node = 4096
    /\ getType m node = Ok type_
    /\ getCount m node = Ok count
    /\ getSize m node = Ok size
    /\ forall i : nat, (6 <= i)%nat -> m !! i = page !! i.
Proof.
  intros Hlen Ht Hc Hs. set (node := whole page).
  assert (Hin : inArray page node) by apply inArray_whole.
  assert (Hcap : cap node = 4096) by (unfold node, whole; cbn [cap]; lia).
  assert (Hbase : base node = 0) by reflexivity.
  destruct (field_put page node 0 type_ Hin)
    as (m1 & HP1 & Hl1 & HU1 & Hout1 & Hoth1); [lia .. | ].
  pose proof (inArray_length _ _ _ Hl1 Hin) as Hin1.
  destruct (field_put m1 node 2 count Hin1)
    as (m2 & HP2 & Hl2 & HU2 & Hout2 & Hoth2); [lia .. | ].
  pose proof (inArray_length _ _ _ Hl2 Hin1) as Hin2.
  destruct (field_put m2 node 4 size Hin2)
    as (m3 & HP3 & Hl3 & HU3 & Hout3 & Hoth3); [lia .. | ].
  exists m3, node. unfold getNode. fold node.
  rewrite setType_field, HP1 by lia. cbn [bind].
  rewrite setCount_field, HP2 by lia. cbn [bind].
  rewrite setSize_field, HP3 by lia. cbn [bind].
  split; [reflexivity | ]. split; [congruence | ].
  split; [unfold node, whole; cbn [len]; lia | ].
  rewrite getType_field, getCount_field, getSize_field by lia.
  split; [ | split; [ | split]].
  - rewrite Hoth3 by lia. rewrite Hoth2 by lia. rewrite HU1. cbn [bind].
    now rewrite u8_small.
  - rewrite Hoth3 by lia. exact HU2.
  - exact HU3.
  - intros i Hi. rewrite Hout3 by (rewrite Hbase; lia).
    rewrite Hout2 by (rewrite Hbase; lia). apply Hout1. rewrite Hbase. lia.
Qed.

(** X21. The byte offset of a child pointer is [idx*8] in uint16, so it
    wraps at 8192: on a node whose count admits [idx+8192], that index
    reads the same slot as [idx]. *)
Theorem getChildPtr_index_wraps (m : memory) (node : BTreeNode)
  (idx count : Z) :
  0 <= idx ->
  getCount m node = Ok count ->
  idx + 8192 < count ->
  getChildPtr m node (idx + 8192) = getChildPtr m node idx.
Proof.
  intros Hidx Hc Hlt. unfold getChildPtr.
  destruct (checkType m node internal) as [[] | f | ]; cbn [bind];
    try reflexivity.
  rewrite !(checkIdx_pass _ _ _ _ Hc) by lia. cbn [bind].
  destruct (getData m node) as [data | f | ]; cbn [bind]; try reflexivity.
  unfold childPtrLen.
  replace (u16 ((idx + 8192) * 8)) with (u16 (idx * 8)); [reflexivity | ].
  unfold u16, wrap. replace ((idx + 8192) * 8) with (idx * 8 + 1 * 2 ^ 16) by lia.
  now rewrite Z.mod_add by lia.
Qed.


Definition tenBytes : memory := [x00; x01; x02; x03; x04; x05; x06; x07; x08; x09].

Lemma getSlice_window_witness :
  exists s',
    getSlice (whole tenBytes) 2 4 = Ok s'
    /\ view tenBytes s' = [x02; x03; x04; x05].
Proof.
  destruct (getSlice_window tenBytes (whole tenBytes) 2 4
              (inArray_whole tenBytes) ltac:(lia) ltac:(lia)) as [Hok _].
  destruct Hok as (s' & E & _ & _ & Hv); [simpl; lia | ].
  exists s'. split; [exact E | ]. rewrite Hv by (simpl; lia). reflexivity.
Defined.

Definition randomPage : memory := repeat xa5 4096.

Lemma header_round_trip_witness :
  (exists m', setType randomPage (whole randomPage) leaf = Ok m'
              /\ getType m' (whole randomPage) = Ok leaf)
  /\ (exists m', setCount randomPage (whole randomPage) 10 = Ok m'
                 /\ getCount m' (whole randomPage) = Ok 10)
  /\ (exists m', setSize randomPage (whole randomPage) 10 = Ok m'
                 /\ getSize m' (whole randomPage) = Ok 10).
Proof.
  apply (header_round_trip randomPage (whole randomPage) leaf 10 10).
  - apply inArray_whole.
  - vm_compute. discriminate.
  - unfold leaf. lia.
  - lia.
  - lia.
Defined.

(** A page whose type field holds 513, before and after [setCount(10)]. *)
Definition typedPage : memory := leBytes 2 513 ++ repeat xa5 4094.

Definition countSet : memory :=
  leBytes 2 513 ++ leBytes 2 10 ++ repeat xa5 4092.

Lemma header_setters_frame_witness :
  setCount typedPage (whole typedPage) 10 = Ok countSet
  /\ length countSet = length typedPage
  /\ getType countSet (whole typedPage) = getType typedPage (whole typedPage)
  /\ getSize countSet (whole typedPage) = getSize typedPage (whole typedPage)
  /\ forall i : nat, ~ (2 <= i < 4)%nat -> countSet !! i = typedPage !! i.
Proof.
  assert (E : setCount typedPage (whole typedPage) 10 = Ok countSet)
    by (vm_compute; reflexivity).
  split; [exact E | ].
  destruct (header_setters_frame typedPage countSet (whole typedPage) 10)
    as (_ & H & _).
  - apply inArray_whole.
  - vm_compute. discriminate.
  - lia.
  - exact (H E).
Defined.

(** The type field 0x0100 reads as type 0. *)
Lemma getType_reads_low_byte_witness :
  getType (x00 :: x01 :: repeat xa5 4094)
    (whole (x00 :: x01 :: repeat xa5 4094)) = Ok internal.
Proof.
  apply (getType_reads_low_byte (x00 :: x01 :: repeat xa5 4094)
           (whole (x00 :: x01 :: repeat xa5 4094)) x00 x01 (repeat xa5 4094)).
  - apply inArray_whole.
  - reflexivity.
Defined.

(** TestGetData: an internal node of size 20. *)
Definition size20 : memory :=
  leBytes 2 internal ++ leBytes 2 0 ++ leBytes 2 20 ++ repeat xa5 4090.

Lemma getData_window_witness :
  exists data,
    getData size20 (whole size20) = Ok data
    /\ view size20 data = take 12 (drop 8 size20).
Proof.
  destruct (getData_window size20 (whole size20) 20 (inArray_whole size20))
    as [Hok _]; [vm_compute; reflexivity | ].
  destruct Hok as (data & E & _ & _ & _ & Hv);
    [unfold dataOffset; simpl; lia | ].
  exists data. split; [exact E | ]. rewrite Hv by (simpl; lia). reflexivity.
Defined.

(** TestChildPtr: an internal node with two children. *)
Definition twoChildren : memory :=
  leBytes 2 internal ++ leBytes 2 2 ++ leBytes 2 100 ++ repeat xa5 4090.

Definition secondChildSet : memory :=
  leBytes 2 internal ++ leBytes 2 2 ++ leBytes 2 100 ++ repeat xa5 10
  ++ leBytes 8 81985529216486895 ++ repeat xa5 4072.

Lemma setChildPtr_getChildPtr_witness :
  setChildPtr twoChildren (whole twoChildren) 1 81985529216486895
  = Ok secondChildSet
  /\ getChildPtr secondChildSet (whole twoChildren) 1 = Ok 81985529216486895
  /\ getChildPtr secondChildSet (whole twoChildren) 0
     = getChildPtr twoChildren (whole twoChildren) 0.
Proof.
  assert (E : setChildPtr twoChildren (whole twoChildren) 1 81985529216486895
              = Ok secondChildSet) by (vm_compute; reflexivity).
  split; [exact E | ].
  destruct (setChildPtr_getChildPtr twoChildren secondChildSet
              (whole twoChildren) 1 81985529216486895
              (inArray_whole twoChildren) ltac:(lia) ltac:(lia) E)
    as (H1 & H2 & _).
  split; [exact H1 | ]. apply H2; lia.
Defined.

Lemma getKV_stays_in_page_witness :
  exists k v,
    getKV alphaBetaPage (whole alphaBetaPage) 1 = Ok (k, v)
    /\ within (whole alphaBetaPage) k /\ within (whole alphaBetaPage) v
    /\ base v = base k + len k.
Proof.
  exists (mkSlice 26 4 4070), (mkSlice 30 2 4066).
  assert (E : getKV alphaBetaPage (whole alphaBetaPage) 1
              = Ok (mkSlice 26 4 4070, mkSlice 30 2 4066))
    by (vm_compute; reflexivity).
  split; [exact E | ].
  destruct (getKV_stays_in_page alphaBetaPage (whole alphaBetaPage) 1 _ _
              (inArray_whole alphaBetaPage) E) as (H1 & H2 & _ & H3).
  auto.
Defined.

Lemma getNode_header_witness :
  exists m node,
    getNode randomPage leaf 10 20 = Ok (m, node)
    /\ length m = 4096%nat /\ len node = 4096
    /\ getType m node = Ok leaf
    /\ getCount m node = Ok 10
    /\ getSize m node = Ok 20
    /\ forall i : nat, (6 <= i)%nat -> m !! i = randomPage !! i.
Proof.
  apply (getNode_header randomPage leaf 10 20).
  - reflexivity.
  - unfold leaf. lia.
  - lia.
  - lia.
Defined.

(** A page whose count field holds 8193: index 8192 reads child 0. *)
Definition overCounted : memory :=
  leBytes 2 internal ++ leBytes 2 8193 ++ leBytes 2 24 ++ [x00; x00]
  ++ leBytes 8 7 ++ leBytes 8 9 ++ repeat xa5 4072.

Lemma getChildPtr_index_wraps_witness :
  getChildPtr overCounted (whole overCounted) (0 + 8192)
  = getChildPtr overCounted (whole overCounted) 0
  /\ getChildPtr overCounted (whole overCounted) 0 = Ok 7.
Proof.
  split; [ | vm_compute; reflexivity].
  apply (getChildPtr_index_wraps overCounted (whole overCounted) 0 8193).
  - lia.
  - vm_compute. reflexivity.
  - lia.
Defined.

End BTreeFacts.

(** ** The second copy of the codec *)

Module BTreeDraftFacts.

Import Bytes BTreeDraft.
Local Open Scope Z_scope.

(** An outcome that is not a [panic(msg)] of the program's own. *)
Definition runtimeOnly {A : Type} (r : res A) : Prop :=
  forall msg, r <> Panic (Message msg).

Lemma sub_runtimeOnly (s : slice) (lo hi : Z) : runtimeOnly (sub s lo hi).
Proof.
  intros msg. unfold sub.
  destruct ((0 <=? lo) && (lo <=? hi) && (hi <=? cap s))%bool; discriminate.
Qed.

Lemma UintLE_runtimeOnly (w : nat) (m : memory) (s : slice) :
  runtimeOnly (UintLE w m s).
Proof.
  intros msg. unfold UintLE.
  destruct (Z.of_nat w <=? Z.of_nat (length (view m s))); discriminate.
Qed.

Lemma bind_avoids {A B : Type} (r : res A) (k : A -> res B) (msg : string) :
  r <> Panic (Message msg) ->
  (forall a, k a <> Panic (Message msg)) ->
  bind r k <> Panic (Message msg).
Proof.
  intros Hr Hk. destruct r as [a | f | ]; cbn [bind].
  - apply Hk.
  - intros [= E]. apply Hr. now rewrite E.
  - discriminate.
Qed.

(** Goes through a chain of slicings and reads. *)
Ltac avoid_message :=
  match goal with
  | |- bind _ _ <> _ =>
      apply bind_avoids; [avoid_message | intros ?; avoid_message]
  | |- sub _ _ _ <> _ => exact (sub_runtimeOnly _ _ _ _)
  | |- UintLE _ _ _ <> _ => exact (UintLE_runtimeOnly _ _ _ _)
  | |- Uint16 _ _ <> _ => exact (UintLE_runtimeOnly _ _ _ _)
  | |- Ok _ <> _ => discriminate
  | _ => idtac
  end.

Lemma getCount_runtimeOnly (m : memory) (node : BTreeNode) :
  runtimeOnly (getCount m node).
Proof.
  intros msg. unfold getCount, getCountSlice, from, upto. avoid_message.
Qed.

Lemma outOfBound_is_no_mismatch (idx bound : Z) (a b : string) :
  outOfBoundMsg idx bound <> typeMistMatchMsg a b.
Proof. unfold outOfBoundMsg, typeMistMatchMsg. simpl. discriminate. Qed.

(** C8. In this copy of the codec [getKV] tests the node against
    [internal], the type that has no key-value pairs. So [getKV] on an
    internal node passes the type test, and whatever it then returns or
    dies of, it is never the type mismatch; on a leaf, the node type it is
    meant for, it fails with the mismatch. *)
Theorem draft_getKV_accepts_internal (m : memory) (node : BTreeNode)
  (idx : Z) :
  getType m node = Ok internal ->
  checkType m node internal = Ok tt
  /\ forall a b : string,
       getKV m node idx <> Panic (Message (typeMistMatchMsg a b)).
Proof.
  intros Ht.
  assert (Hc : checkType m node internal = Ok tt).
  { unfold checkType. rewrite Ht. reflexivity. }
  split; [exact Hc | ]. intros a b. unfold getKV. rewrite Hc. cbn [bind].
  apply bind_avoids.
  { unfold checkIdx. apply bind_avoids; [apply getCount_runtimeOnly | ].
    intros count. destruct (count <=? idx); [ | discriminate].
    intros E. apply (outOfBound_is_no_mismatch idx count a b). congruence. }
  intros _. apply bind_avoids; [apply getCount_runtimeOnly | intros count].
  unfold from, upto. avoid_message.
Qed.

(** An internal page of 4096 bytes with one child. *)
Definition internalPage : memory :=
  leBytes 2 internal ++ leBytes 2 1 ++ repeat x00 4092.

Lemma draft_getKV_accepts_internal_witness :
  checkType internalPage (whole internalPage) internal = Ok tt
  /\ forall a b : string,
       getKV internalPage (whole internalPage) 0
       <> Panic (Message (typeMistMatchMsg a b)).
Proof.
  apply (draft_getKV_accepts_internal internalPage (whole internalPage) 0).
  vm_compute. reflexivity.
Defined.

(** What the call returns on that page: two empty slices, no failure. *)
Example draft_getKV_on_internalPage :
  length internalPage = 4096%nat
  /\ getKV internalPage (whole internalPage) 0
     = Ok (mkSlice 10 0 4086, mkSlice 6 0 4090).
Proof. split; [reflexivity | vm_compute; reflexivity]. Qed.

(** And on a leaf page, where pairs live, the same call is refused. *)
Example draft_getKV_on_leaf :
  let m := leBytes 2 leaf ++ leBytes 2 1 ++ repeat x00 4092 in
  getKV m (whole m) 0
  = Panic (Message "mismatch between type LEAF and type INTERNAL").
Proof. vm_compute. reflexivity. Qed.

(** ** The header and the child pointers of this copy *)

Import BytesFacts.

(** The window of the count field. *)
Lemma getCountSlice_cases (node : BTreeNode) :
  len node <= cap node ->
  (2 <= len node /\ 6 <= cap node
   /\ getCountSlice node = Ok (mkSlice (base node + 2) 4 (cap node - 2)))
  \/ (~ (2 <= len node /\ 6 <= cap node)
      /\ getCountSlice node = Panic SliceOutOfRange).
Proof.
  intros Hle. unfold getCountSlice, from, upto, countOffset, countLen.
  destruct (sub_cases node 2 (len node)) as [(H1 & H2 & ->) | (Hno & ->)];
    cbn [bind].
  - destruct (sub_cases (mkSlice (base node + 2) (len node - 2) (cap node - 2))
                0 4) as [(H3 & H4 & ->) | (Hno & ->)]; cbn [cap base] in *.
    + left. split; [lia | ]. split; [lia | ]. f_equal. f_equal; lia.
    + right. split; [lia | reflexivity].
  - right. split; [lia | reflexivity].
Qed.

(** X23. The count of this copy of the codec is two bytes, but the window
    taken for it is [node[2:][:4]]. So reading or writing the count panics
    on every node of fewer than six bytes of capacity, a header of four
    bytes included. On a larger node [setCount] changes the bytes 2 and 3
    of the node and nothing else, and [getCount] reads the count back. *)
Theorem draft_count_needs_six_bytes (m : memory) (node : BTreeNode)
  (count : Z) :
  inArray m node ->
  0 <= count < 65536 ->
  (~ (2 <= len node /\ 6 <= cap node) ->
   getCount m node = Panic SliceOutOfRange
   /\ setCount m node count = Panic SliceOutOfRange)
  /\ (2 <= len node -> 6 <= cap node ->
      exists m',
        setCount m node count = Ok m'
        /\ getCount m' node = Ok count
        /\ length m' = length m
        /\ forall i : nat,
             i <> Z.to_nat (base node + 2) ->
             i <> Z.to_nat (base node + 3) ->
             m' !! i = m !! i).
Proof.
  intros Hin Hc. pose proof Hin as (Hb & Hl & Hcap).
  split.
  - intros Hno. unfold getCount, setCount.
    destruct (getCountSlice_cases node ltac:(lia))
      as [(H1 & H2 & _) | (_ & ->)]; [tauto | ]. auto.
  - intros H2 H6. unfold getCount, setCount.
    destruct (getCountSlice_cases node ltac:(lia))
      as [(_ & _ & ->) | (Hno & _)]; [ | tauto]. cbn [bind].
    set (s := mkSlice (base node + 2) 4 (cap node - 2)).
    assert (Hs : inArray m s).
    { unfold inArray, s. cbn [base len cap]. lia. }
    unfold PutUint16, Uint16.
    rewrite (PutUintLE_Ok 2 m s count Hs) by (cbn [len s]; simpl; lia).
    eexists. split; [reflexivity | ].
    pose proof (PutUintLE_Ok 2 m s count Hs ltac:(cbn [len s]; simpl; lia))
      as Hput.
    split; [ | split].
    + apply (UintLE_PutUintLE 2 m _ s count Hs); [simpl; lia | exact Hput].
    + apply (PutUintLE_frame 2 m _ s count Hs Hput).
    + intros i H2' H3'.
      apply (PutUintLE_frame 2 m _ s count Hs Hput).
      unfold s. cbn [base]. lia.
Qed.

(** A header and nothing else, as the layout of this copy draws it. *)
Definition bareHeader : memory := leBytes 2 leaf ++ leBytes 2 0.

Lemma draft_count_needs_six_bytes_witness :
  (~ (2 <= len (whole bareHeader) /\ 6 <= cap (whole bareHeader)) ->
   getCount bareHeader (whole bareHeader) = Panic SliceOutOfRange
   /\ setCount bareHeader (whole bareHeader) 3 = Panic SliceOutOfRange)
  /\ (2 <= len (whole bareHeader) -> 6 <= cap (whole bareHeader) ->
      exists m',
        setCount bareHeader (whole bareHeader) 3 = Ok m'
        /\ getCount m' (whole bareHeader) = Ok 3
        /\ length m' = length bareHeader
        /\ forall i : nat,
             i <> Z.to_nat (base (whole bareHeader) + 2) ->
             i <> Z.to_nat (base (whole bareHeader) + 3) ->
             m' !! i = bareHeader !! i).
Proof.
  apply (draft_count_needs_six_bytes bareHeader (whole bareHeader) 3).
  - apply inArray_whole.
  - lia.
Defined.

(** X24. On an internal node, for an index below the count,
    [getChildPointer] reads the eight bytes that start [4 + 8 * idx] bytes
    into the node, the product taken in uint16. It panics when the node
    ends before them: slicing fails when the node ends before the first of
    them, the read fails when it ends among them. *)
Theorem draft_getChildPointer_reads_slot (m : memory) (node : BTreeNode)
  (idx count : Z) :
  inArray m node ->
  getType m node = Ok internal ->
  getCount m node = Ok count ->
  idx < count ->
  let off := 4 + u16 (idx * 8) in
  (off + 8 <= len node ->
   getChildPointer m node idx
   = Ok (leValue (view m (mkSlice (base node + off) 8 8))))
  /\ (off <= len node < off + 8 ->
      getChildPointer m node idx = Panic IndexOutOfRange)
  /\ (len node < off ->
      getChildPointer m node idx = Panic SliceOutOfRange).
Proof.
  intros Hin Ht Hcnt Hidx off. pose proof Hin as (Hb & Hl & Hcap).
  assert (Ho : 0 <= u16 (idx * 8) < 65536).
  { unfold u16, wrap. apply Z.mod_pos_bound. lia. }
  assert (Hpre : forall r,
            (data <- from node dataStart ;;
             s <- from data (u16 (idx * childPointerLen)) ;; Uint64 m s) = r ->
            getChildPointer m node idx = r).
  { intros r <-. unfold getChildPointer, checkType, checkIdx.
    rewrite Ht, Hcnt. cbn [bind]. simpl negb. cbv iota.
    destruct (Z.leb_spec count idx); [lia | ]. reflexivity. }
  unfold dataStart, childPointerLen, from in Hpre. fold off in Hpre.
  split; [ | split]; intros Hlen; apply Hpre.
  - rewrite sub_Ok by lia. cbn [bind len base cap].
    rewrite sub_Ok by (cbn [cap]; lia). cbn [bind len base cap].
    unfold Uint64, UintLE.
    set (s := mkSlice _ _ _).
    assert (Hs : inArray m s).
    { unfold inArray, s. cbn [base len cap]. unfold off in Hlen. lia. }
    rewrite (length_view m s Hs).
    destruct (Z.leb_spec (Z.of_nat 8) (Z.of_nat (Z.to_nat (len s))))
      as [_ | Hlt].
    + f_equal. f_equal. unfold view, s. cbn [base len].
      rewrite take_take.
      replace (base node + 4 + u16 (idx * 8)) with (base node + off)
        by (unfold off; lia).
      f_equal. unfold off in Hlen. lia.
    + exfalso. unfold s in Hlt. cbn [len] in Hlt. unfold off in Hlen. lia.
  - rewrite sub_Ok by (unfold off in Hlen; lia). cbn [bind len base cap].
    rewrite sub_Ok by (cbn [cap]; unfold off in Hlen; lia).
    cbn [bind len base cap].
    unfold Uint64, UintLE.
    set (s := mkSlice _ _ _).
    assert (Hs : inArray m s).
    { unfold inArray, s. cbn [base len cap]. unfold off in Hlen. lia. }
    rewrite (length_view m s Hs).
    destruct (Z.leb_spec (Z.of_nat 8) (Z.of_nat (Z.to_nat (len s))))
      as [Hge | _]; [ | reflexivity].
    exfalso. unfold s in Hge. cbn [len] in Hge. unfold off in Hlen. lia.
  - destruct (sub_cases node 4 (len node)) as [(H1 & H2 & ->) | (_ & ->)];
      [ | reflexivity]. cbn [bind len base cap].
    destruct (sub_cases (mkSlice (base node + 4) (len node - 4) (cap node - 4))
                (u16 (idx * 8)) (len node - 4)) as [(H3 & _) | (_ & ->)];
      [ | reflexivity].
    exfalso. unfold off in Hlen. lia.
Qed.

(** An internal node of two children, at 7 and at 9. *)
Definition twoPointers : memory :=
  leBytes 2 internal ++ leBytes 2 2 ++ leBytes 8 7 ++ leBytes 8 9.

Lemma draft_getChildPointer_reads_slot_witness :
  (4 + u16 (1 * 8) + 8 <= len (whole twoPointers) ->
   getChildPointer twoPointers (whole twoPointers) 1
   = Ok (leValue (view twoPointers
                    (mkSlice (base (whole twoPointers) + (4 + u16 (1 * 8)))
                       8 8))))
  /\ (4 + u16 (1 * 8) <= len (whole twoPointers) < 4 + u16 (1 * 8) + 8 ->
      getChildPointer twoPointers (whole twoPointers) 1
      = Panic IndexOutOfRange)
  /\ (len (whole twoPointers) < 4 + u16 (1 * 8) ->
      getChildPointer twoPointers (whole twoPointers) 1
      = Panic SliceOutOfRange).
Proof.
  apply (draft_getChildPointer_reads_slot twoPointers (whole twoPointers)
           1 2).
  - apply inArray_whole.
  - vm_compute. reflexivity.
  - vm_compute. reflexivity.
  - lia.
Defined.

End BTreeDraftFacts.
